(** * Slicer-Forge: slicing, contour linking and sheet nesting

    A shallow embedding of [src/utils/nester.ts] (the [Bin] class, [nestSlices]
    and the axis selection of [splitSlice]) and of the slicer ([sliceGeometry],
    [linkSegments]), followed by the properties the specification states
    about them.  The last part covers more of the code: the whole of
    [splitSlice] with its cut line and clipping, the polygon helpers
    [isPointInPoly] and [getClippedSegments], and the two callers
    [handleSlice] and [handleAutoSplit].

    Numbers.  A TypeScript [number] is modelled by [num]: an exact rational
    or one of [Infinity], [-Infinity], [NaN].  The arithmetic and the
    comparisons follow IEEE 754 on the three special values; finite
    arithmetic is exact (rounding, overflow and the sign of zero are not
    modelled).  Statements that compare computed coordinates therefore
    either repeat a test of the code or leave room for rounding.  Where
    rounding decides a claim, [Double] holds the nester once more in IEEE
    754 binary64 arithmetic, on which concrete runs are evaluated.

    State.  The bins of a packing run are mutable objects in the source;
    here every operation takes the bin and returns the bin it leaves behind.
    Loops over arrays are folds whose state is the tuple of variables the
    loop body assigns. *)

From Stdlib Require Import QArith Qround Qabs Lqa ZArith Lia List Bool Permutation Sorted.
From Stdlib Require PrimFloat FloatOps SpecFloat Uint63.
Import ListNotations.

Set Implicit Arguments.

(* ===================================================================== *)
(** ** JavaScript numbers *)
(* ===================================================================== *)

Inductive num : Type :=
| Fin (q : Q)
| PInf
| NInf
| NaN.

Declare Scope num_scope.
Delimit Scope num_scope with num.
Bind Scope num_scope with num.

Definition ofZ (z : Z) : num := Fin (inject_Z z).
Definition ofNat (n : nat) : num := ofZ (Z.of_nat n).

Definition Qlt_bool (p q : Q) : bool := negb (Qle_bool q p).

(** [Number.isFinite] *)
Definition isFinite (a : num) : bool :=
  match a with Fin _ => true | _ => false end.

Definition nneg (a : num) : num :=
  match a with
  | Fin q => Fin (- q)
  | PInf => NInf
  | NInf => PInf
  | NaN => NaN
  end.

Definition nadd (a b : num) : num :=
  match a, b with
  | NaN, _ | _, NaN => NaN
  | Fin p, Fin q => Fin (p + q)
  | PInf, NInf | NInf, PInf => NaN
  | PInf, _ | _, PInf => PInf
  | NInf, _ | _, NInf => NInf
  end.

Definition nsub (a b : num) : num := nadd a (nneg b).

(** The sign of an infinite product or quotient; [0 * Infinity] is [NaN]. *)
Definition signedInf (positive : bool) : num := if positive then PInf else NInf.

Definition nmul (a b : num) : num :=
  match a, b with
  | NaN, _ | _, NaN => NaN
  | Fin p, Fin q => Fin (p * q)
  | Fin p, PInf | PInf, Fin p =>
      if Qeq_bool p 0 then NaN else signedInf (Qlt_bool 0 p)
  | Fin p, NInf | NInf, Fin p =>
      if Qeq_bool p 0 then NaN else signedInf (Qlt_bool p 0)
  | PInf, PInf | NInf, NInf => PInf
  | PInf, NInf | NInf, PInf => NInf
  end.

Definition ndiv (a b : num) : num :=
  match a, b with
  | NaN, _ | _, NaN => NaN
  | Fin p, Fin q =>
      if Qeq_bool q 0
      then (if Qeq_bool p 0 then NaN else signedInf (Qlt_bool 0 p))
      else Fin (p / q)
  | Fin _, PInf | Fin _, NInf => Fin 0
  | PInf, Fin q => signedInf (Qle_bool 0 q)
  | NInf, Fin q => signedInf (Qlt_bool q 0)
  | _, _ => NaN
  end.

(** [a <= b], [a < b], [a >= b], [a > b], [a === b]: all false on [NaN]. *)
Definition nle (a b : num) : bool :=
  match a, b with
  | NaN, _ | _, NaN => false
  | Fin p, Fin q => Qle_bool p q
  | NInf, _ => true
  | _, PInf => true
  | _, _ => false
  end.

Definition nlt (a b : num) : bool :=
  match a, b with
  | NaN, _ | _, NaN => false
  | Fin p, Fin q => Qlt_bool p q
  | PInf, _ => false
  | _, NInf => false
  | _, _ => true
  end.

Definition nge (a b : num) : bool := nle b a.
Definition ngt (a b : num) : bool := nlt b a.

Definition neq (a b : num) : bool :=
  match a, b with
  | Fin p, Fin q => Qeq_bool p q
  | PInf, PInf | NInf, NInf => true
  | _, _ => false
  end.

(** [Math.abs], [Math.min], [Math.max], [Math.round] *)
Definition Math_abs (a : num) : num :=
  match a with
  | Fin q => Fin (Qabs q)
  | PInf | NInf => PInf
  | NaN => NaN
  end.

Definition Math_min (a b : num) : num :=
  match a, b with
  | NaN, _ | _, NaN => NaN
  | _, _ => if nle a b then a else b
  end.

Definition Math_max (a b : num) : num :=
  match a, b with
  | NaN, _ | _, NaN => NaN
  | _, _ => if nle a b then b else a
  end.

Definition Math_round (a : num) : num :=
  match a with
  | Fin q => ofZ (Qfloor (q + (1 # 2)))
  | _ => a
  end.

(** [Number.MAX_VALUE] = 2^1024 - 2^971, and [Math.PI] as the double it is. *)
Definition MAX_VALUE : Q := inject_Z (2 ^ 1024 - 2 ^ 971).
Definition Number_MAX_VALUE : num := Fin MAX_VALUE.
Definition Math_PI : num := Fin (884279719003555 # 281474976710656).

Infix "+" := nadd : num_scope.
Infix "-" := nsub : num_scope.
Infix "*" := nmul : num_scope.
Infix "/" := ndiv : num_scope.
Infix "<=?" := nle : num_scope.
Infix "<?" := nlt : num_scope.
Infix ">=?" := nge : num_scope.
Infix ">?" := ngt : num_scope.
Infix "===" := neq (at level 70, no associativity) : num_scope.

(** Comparisons read as propositions. *)
Definition num_le (a b : num) : Prop := nle a b = true.
Definition num_lt (a b : num) : Prop := nlt a b = true.
Infix "<=" := num_le : num_scope.
Infix "<" := num_lt : num_scope.

(* ===================================================================== *)
(** ** Data model ([types.ts]) *)
(* ===================================================================== *)

Inductive Axis : Type := AxisX | AxisY | AxisZ.

Inductive Unit : Type := mm | inch.

Record MaterialSettings : Type := mkMaterial {
  mat_width : num;
  mat_length : num;
  mat_thickness : num;
  mat_unit : Unit
}.

Record Vector3 : Type := mkVector3 { vx : num; vy : num; vz : num }.

Record LineSegment : Type := mkSegment { seg_start : Vector3; seg_end : Vector3 }.

Record Bounds : Type := mkBounds {
  minX : num; minY : num; maxX : num; maxY : num;
  b_width : num; b_height : num
}.

Record Slice : Type := mkSlice {
  slice_id : num;
  zHeight : num;
  segments : list LineSegment;
  contours : list (list Vector3);
  bounds : Bounds
}.

(** [PlacedSlice extends Slice]: the slice's own fields are kept together in
    [ps_slice] (the source builds the record with [{...slice, x, y, ...}]). *)
Record PlacedSlice : Type := mkPlaced {
  ps_slice : Slice;
  ps_x : num;
  ps_y : num;
  rotation : num;
  ps_sheetId : nat
}.

Record Sheet : Type := mkSheet {
  sheet_id : nat;
  sheet_width : num;
  sheet_height : num;
  sheet_items : list PlacedSlice
}.

Inductive Strategy : Type := optimized | sequential.

(* ===================================================================== *)
(** ** The guillotine bin ([class Bin]) *)
(* ===================================================================== *)

Record Rect : Type := mkRect {
  rx : num; ry : num; rwidth : num; rheight : num
}.

Record Bin : Type := mkBin {
  bin_width : num;
  bin_height : num;
  freeRects : list Rect;
  items : list PlacedSlice;
  sheetId : nat
}.

Module BinOps.

(** [constructor(id, width, height)] *)
Definition new (id : nat) (width height : num) : Bin :=
  mkBin width height [mkRect (Fin 0) (Fin 0) width height] [] id.

(** The result of [score]: both scores and the chosen free rectangle.  The
    source returns a reference to an element of [freeRects]; the model
    keeps the position of that element next to its value, which is what
    [freeRects.indexOf(rect)] recovers in [splitFreeRect]. *)
Record Fit : Type := mkFit {
  score1 : num; score2 : num; fit_idx : nat; fit_rect : Rect
}.

(** One turn of the [for (const rect of this.freeRects)] loop of [score];
    the state is [(bestScore1, bestScore2, bestRect)]. *)
Definition score_step (w h : num) (st : num * num * option (nat * Rect))
           (ir : nat * Rect) : num * num * option (nat * Rect) :=
  let '(bestScore1, bestScore2, bestRect) := st in
  let rect := snd ir in
  if (rwidth rect >=? w)%num && (rheight rect >=? h)%num then
    let leftoverHoriz := Math_abs (rwidth rect - w) in
    let leftoverVert := Math_abs (rheight rect - h) in
    let shortSideFit := Math_min leftoverHoriz leftoverVert in
    let longSideFit := Math_max leftoverHoriz leftoverVert in
    if (shortSideFit <? bestScore1)%num
       || ((shortSideFit === bestScore1)%num && (longSideFit <? bestScore2)%num)
    then (shortSideFit, longSideFit, Some ir)
    else st
  else st.

Definition indexed (A : Type) (l : list A) : list (nat * A) :=
  combine (seq 0 (length l)) l.

Definition score (b : Bin) (w h : num) : option Fit :=
  let '(bestScore1, bestScore2, bestRect) :=
    fold_left (score_step w h) (indexed (freeRects b))
              (Number_MAX_VALUE, Number_MAX_VALUE, None) in
  match bestRect with
  | Some (i, rect) => Some (mkFit bestScore1 bestScore2 i rect)
  | None => None
  end.

(** [freeRects.splice(idx, 1)] *)
Fixpoint splice1 (A : Type) (idx : nat) (l : list A) : list A :=
  match l, idx with
  | [], _ => []
  | _ :: t, O => t
  | a :: t, S i => a :: splice1 i t
  end.

Definition pushIf (c : bool) (r : Rect) (l : list Rect) : list Rect :=
  if c then l ++ [r] else l.

(** [splitFreeRect(rect, w, h)], with [idx] the position of [rect]. *)
Definition splitFreeRect (b : Bin) (idx : nat) (rect : Rect) (w h : num) : Bin :=
  let free := splice1 idx (freeRects b) in
  if (w === rwidth rect)%num && (h === rheight rect)%num then
    mkBin (bin_width b) (bin_height b) free (items b) (sheetId b)
  else
    let wRem := (rwidth rect - w)%num in
    let hRem := (rheight rect - h)%num in
    let '(r1, r2) :=
      if (wRem >? hRem)%num then
        (mkRect (rx rect + w) (ry rect) wRem (rheight rect),
         mkRect (rx rect) (ry rect + h) w hRem)
      else
        (mkRect (rx rect) (ry rect + h) (rwidth rect) hRem,
         mkRect (rx rect + w) (ry rect) wRem h) in
    let free := pushIf ((rwidth r1 >? Fin 0)%num && (rheight r1 >? Fin 0)%num) r1 free in
    let free := pushIf ((rwidth r2 >? Fin 0)%num && (rheight r2 >? Fin 0)%num) r2 free in
    mkBin (bin_width b) (bin_height b) free (items b) (sheetId b).

(** Step 3 of [insert]: [(useRotated, bestRect)]. *)
Definition decide (normalFit rotatedFit : option Fit) : option (bool * Fit) :=
  match normalFit, rotatedFit with
  | Some n, Some r =>
      if (score1 r <? score1 n)%num
         || ((score1 r === score1 n)%num && (score2 r <? score2 n)%num)
      then Some (true, r) else Some (false, n)
  | Some n, None => Some (false, n)
  | None, Some r => Some (true, r)
  | None, None => None
  end.

(** [insert(slice, margin)]: the bin after the call and the returned flag. *)
Definition insert (b : Bin) (slice : Slice) (margin : num) : Bin * bool :=
  let w := (b_width (bounds slice) + margin)%num in
  let h := (b_height (bounds slice) + margin)%num in
  let normalFit := score b w h in
  let rotatedFit := score b h w in
  match decide normalFit rotatedFit with
  | None => (b, false)
  | Some (useRotated, fit) =>
      let bestRect := fit_rect fit in
      let placedW := if useRotated then h else w in
      let placedH := if useRotated then w else h in
      let item := mkPlaced slice (rx bestRect) (ry bestRect)
                           (if useRotated then (Math_PI / Fin 2)%num else Fin 0)
                           (sheetId b) in
      let b1 := mkBin (bin_width b) (bin_height b) (freeRects b)
                      (items b ++ [item]) (sheetId b) in
      (splitFreeRect b1 (fit_idx fit) bestRect placedW placedH, true)
  end.

End BinOps.

(* ===================================================================== *)
(** ** [nestSlices] *)
(* ===================================================================== *)

Definition margin : num := Fin 5.

Definition scaleFactor (material : MaterialSettings) : num :=
  match mat_unit material with inch => Fin (254 # 10) | mm => Fin 1 end.

Definition sheetWidth (material : MaterialSettings) : num :=
  (mat_width material * scaleFactor material)%num.

Definition sheetHeight (material : MaterialSettings) : num :=
  (mat_length material * scaleFactor material)%num.

(** The guard of the pre-check: the slice is skipped when it holds. *)
Definition invalidBounds (slice : Slice) : bool :=
  let w := b_width (bounds slice) in
  let h := b_height (bounds slice) in
  negb (isFinite w) || negb (isFinite h) || (w <=? Fin 0)%num || (h <=? Fin 0)%num.

Definition fitsNormal (sw sh : num) (slice : Slice) : bool :=
  ((b_width (bounds slice) + margin <=? sw) && (b_height (bounds slice) + margin <=? sh))%num.

Definition fitsRotated (sw sh : num) (slice : Slice) : bool :=
  ((b_height (bounds slice) + margin <=? sw) && (b_width (bounds slice) + margin <=? sh))%num.

(** Step 2, one turn of [slices.forEach]; the state is
    [(oversized, fittableSlices)]. *)
Definition preCheck_step (sw sh : num) (st : list Slice * list Slice) (slice : Slice)
  : list Slice * list Slice :=
  let '(oversized, fittableSlices) := st in
  if invalidBounds slice then st
  else if negb (fitsNormal sw sh slice) && negb (fitsRotated sw sh slice)
       then (oversized ++ [slice], fittableSlices)
       else (oversized, fittableSlices ++ [slice]).

Definition preCheck (sw sh : num) (slices : list Slice) : list Slice * list Slice :=
  fold_left (preCheck_step sw sh) slices ([], []).

(** Step 3, the comparator handed to [sort]. *)
Definition compareSlices (strategy : Strategy) (a b : Slice) : num :=
  match strategy with
  | sequential => (slice_id a - slice_id b)%num
  | optimized =>
      let areaA := (b_width (bounds a) * b_height (bounds a))%num in
      let areaB := (b_width (bounds b) * b_height (bounds b))%num in
      (areaB - areaA)%num
  end.

(** [Array.prototype.sort] is stable: an element moves in front of another
    one only when the comparator says so with a positive number.  For a
    consistent comparator this fixes the result; for one that is not (ids
    that are [NaN]) ECMAScript leaves the order to the engine, and the model
    takes the order of a stable insertion sort. *)
Fixpoint sortInsert (A : Type) (cmp : A -> A -> num) (x : A) (l : list A) : list A :=
  match l with
  | [] => [x]
  | y :: t => if (cmp y x >? Fin 0)%num then x :: y :: t else y :: sortInsert cmp x t
  end.

Definition sort (A : Type) (cmp : A -> A -> num) (l : list A) : list A :=
  fold_left (fun acc x => sortInsert cmp x acc) l [].

(** Step 4, [for (const bin of bins)]: first bin that accepts the slice. *)
Fixpoint tryBins (bins : list Bin) (slice : Slice) : option (list Bin) :=
  match bins with
  | [] => None
  | bin :: rest =>
      let '(bin', ok) := BinOps.insert bin slice margin in
      if ok then Some (bin' :: rest)
      else match tryBins rest slice with
           | Some rest' => Some (bin :: rest')
           | None => None
           end
  end.

(** One turn of [sortedSlices.forEach]; the state is [(bins, oversized)]. *)
Definition pack_step (sw sh : num) (st : list Bin * list Slice) (slice : Slice)
  : list Bin * list Slice :=
  let '(bins, oversized) := st in
  match tryBins bins slice with
  | Some bins' => (bins', oversized)
  | None =>
      let newBin := BinOps.new (length bins) sw sh in
      let '(newBin', ok) := BinOps.insert newBin slice margin in
      if ok then (bins ++ [newBin'], oversized)
      else (bins ++ [newBin'], oversized ++ [slice])
  end.

Record NestResult : Type := mkNestResult {
  sheets : list Sheet;
  oversized : list Slice
}.

Definition toSheet (bin : Bin) : Sheet :=
  mkSheet (sheetId bin) (bin_width bin) (bin_height bin) (items bin).

Definition nestSlices (slices : list Slice) (material : MaterialSettings)
           (strategy : Strategy) : NestResult :=
  let sw := sheetWidth material in
  let sh := sheetHeight material in
  let '(oversized0, fittableSlices) := preCheck sw sh slices in
  let sortedSlices := sort (compareSlices strategy) fittableSlices in
  let '(bins, oversized1) :=
    fold_left (pack_step sw sh) sortedSlices ([], oversized0) in
  mkNestResult (map toSheet bins) oversized1.

(** The footprint of a placed slice on its sheet. *)
Definition placedW (p : PlacedSlice) : num :=
  if (rotation p === Fin 0)%num
  then (b_width (bounds (ps_slice p)) + margin)%num
  else (b_height (bounds (ps_slice p)) + margin)%num.

Definition placedH (p : PlacedSlice) : num :=
  if (rotation p === Fin 0)%num
  then (b_height (bounds (ps_slice p)) + margin)%num
  else (b_width (bounds (ps_slice p)) + margin)%num.

(** Test data: a slice with the given id and 2D bounds [w] x [h]. *)
Definition flatSlice (i : Z) (w h : Q) : Slice :=
  mkSlice (ofZ i) (Fin 0) [] []
          (mkBounds (Fin 0) (Fin 0) (Fin w) (Fin h) (Fin w) (Fin h)).

Definition fiveSquares : list Slice :=
  [flatSlice 1 50 50; flatSlice 2 50 50; flatSlice 3 50 50;
   flatSlice 4 50 50; flatSlice 5 50 50].

Definition sheet120 : MaterialSettings := mkMaterial (Fin 120) (Fin 120) (Fin 3) mm.


(* ===================================================================== *)
(** ** [splitSlice]: choice of the split axis and position *)
(* ===================================================================== *)

Inductive SplitAxis : Type := U | V.

(** Step 1 of [splitSlice]: the pair [(splitAxis, splitPos)] the rest of the
    function clips against. *)
Definition splitSlice_axis (slice : Slice) (maxW maxH : num) : SplitAxis * num :=
  let width := b_width (bounds slice) in
  let height := b_height (bounds slice) in
  if (width >? maxW)%num then
    (U, (minX (bounds slice) + width / Fin 2)%num)
  else if (height >? maxH)%num then
    (V, (minY (bounds slice) + height / Fin 2)%num)
  else
    if (width >? height)%num then
      (U, (minX (bounds slice) + width / Fin 2)%num)
    else
      (V, (minY (bounds slice) + height / Fin 2)%num).

(* ===================================================================== *)
(** ** The slicer ([sliceGeometry]) and the contour linker ([linkSegments]) *)
(* ===================================================================== *)

Definition EPSILON : num := Fin (1 # 100000).

(** What reading a vertex past the end of the position buffer yields: the
    components are [undefined], which arithmetic treats as [NaN]. *)
Definition undefinedVec : Vector3 := mkVector3 NaN NaN NaN.

Definition getVal (v : Vector3) (a : Axis) : num :=
  match a with AxisX => vx v | AxisY => vy v | AxisZ => vz v end.

Definition get2D (axis : Axis) (v : Vector3) : num * num :=
  match axis with
  | AxisZ => (vx v, vy v)
  | AxisY => (vx v, vz v)
  | AxisX => (vy v, vz v)
  end.

(** [THREE.Vector3]: [lerpVectors] and [distanceToSquared]. *)
Definition lerpVectors (v1 v2 : Vector3) (alpha : num) : Vector3 :=
  mkVector3 (vx v1 + (vx v2 - vx v1) * alpha)%num
            (vy v1 + (vy v2 - vy v1) * alpha)%num
            (vz v1 + (vz v2 - vz v1) * alpha)%num.

Definition distanceToSquared (a b : Vector3) : num :=
  let dx := (vx a - vx b)%num in
  let dy := (vy a - vy b)%num in
  let dz := (vz a - vz b)%num in
  (dx * dx + dy * dy + dz * dz)%num.

(** [new THREE.Box3().setFromBufferAttribute(posAttr)]: the component-wise
    minimum and maximum, starting from the empty box
    [(+Infinity, -Infinity)]. *)
Definition boxMin (pos : list Vector3) (a : Axis) : num :=
  fold_left (fun m v => Math_min m (getVal v a)) pos PInf.

Definition boxMax (pos : list Vector3) (a : Axis) : num :=
  fold_left (fun m v => Math_max m (getVal v a)) pos NInf.

(** The triangles the loop [for (j = 0; j < posAttr.count; j += 3)] visits. *)
Fixpoint triangles (pos : list Vector3) : list (Vector3 * Vector3 * Vector3) :=
  match pos with
  | [] => []
  | [v1] => [(v1, undefinedVec, undefinedVec)]
  | [v1; v2] => [(v1, v2, undefinedVec)]
  | v1 :: v2 :: v3 :: rest => (v1, v2, v3) :: triangles rest
  end.

Definition edgeCrossing (pA pB : Vector3) (dA dB : num) : list Vector3 :=
  if ((dA >? Fin 0) && (dB <? Fin 0) || (dA <? Fin 0) && (dB >? Fin 0))%num
  then [lerpVectors pA pB (dA / (dA - dB))%num]
  else [].

Definition onPlane (v : Vector3) (d : num) : list Vector3 :=
  if (Math_abs d <? EPSILON)%num then [v] else [].

Definition dedupe (intersections : list Vector3) : list Vector3 :=
  fold_left
    (fun uniquePoints p =>
       if existsb (fun existing =>
                     (distanceToSquared existing p <? EPSILON * EPSILON)%num)
                  uniquePoints
       then uniquePoints else uniquePoints ++ [p])
    intersections [].

(** The body of the triangle loop: the segments one triangle contributes. *)
Definition sliceTriangle (axis : Axis) (planeLevel : num)
           (t : Vector3 * Vector3 * Vector3) : list LineSegment :=
  let '(v1, v2, v3) := t in
  let d1 := (getVal v1 axis - planeLevel)%num in
  let d2 := (getVal v2 axis - planeLevel)%num in
  let d3 := (getVal v3 axis - planeLevel)%num in
  if ((d1 >? EPSILON) && (d2 >? EPSILON) && (d3 >? EPSILON)
      || (d1 <? nneg EPSILON) && (d2 <? nneg EPSILON) && (d3 <? nneg EPSILON))%num
  then []
  else
    let intersections :=
      edgeCrossing v1 v2 d1 d2 ++ edgeCrossing v2 v3 d2 d3 ++ edgeCrossing v3 v1 d3 d1
      ++ onPlane v1 d1 ++ onPlane v2 d2 ++ onPlane v3 d3 in
    match dedupe intersections with
    | [p0; p1] => [mkSegment p0 p1]
    | _ => []
    end.

Definition levelSegments (axis : Axis) (planeLevel : num) (pos : list Vector3)
  : list LineSegment :=
  flat_map (sliceTriangle axis planeLevel) (triangles pos).

Definition levelBounds (axis : Axis) (segs : list LineSegment) : Bounds :=
  let '(mnX, mnY, mxX, mxY) :=
    fold_left
      (fun (st : num * num * num * num) seg =>
         let '(mnX, mnY, mxX, mxY) := st in
         let s := get2D axis (seg_start seg) in
         let e := get2D axis (seg_end seg) in
         (Math_min (Math_min mnX (fst s)) (fst e),
          Math_min (Math_min mnY (snd s)) (snd e),
          Math_max (Math_max mxX (fst s)) (fst e),
          Math_max (Math_max mxY (snd s)) (snd e)))
      segs (PInf, PInf, NInf, NInf) in
  mkBounds mnX mnY mxX mxY (mxX - mnX)%num (mxY - mnY)%num.

(** *** [linkSegments] *)

(** The hash of a point: the three rounded quotients.  The source renders
    them into a string; two keys are the same string exactly when the three
    numbers agree, [NaN] included. *)
Definition Key : Type := (num * num * num)%type.

Definition hash (epsilon : num) (v : Vector3) : Key :=
  (Math_round (vx v / epsilon), Math_round (vy v / epsilon),
   Math_round (vz v / epsilon))%num.

Definition sameText (a b : num) : bool :=
  match a, b with
  | NaN, NaN => true
  | _, _ => (a === b)%num
  end.

Definition key_eqb (a b : Key) : bool :=
  let '(a1, a2, a3) := a in
  let '(b1, b2, b3) := b in
  sameText a1 b1 && sameText a2 b2 && sameText a3 b3.

(** [Map<string, number[]>] as an association list. *)
Definition AdjMap : Type := list (Key * list nat).

Fixpoint mapGet (m : AdjMap) (k : Key) : option (list nat) :=
  match m with
  | [] => None
  | (k', v) :: t => if key_eqb k' k then Some v else mapGet t k
  end.

(** [if (!map.has(k)) map.set(k, []); map.get(k).push(idx)] *)
Fixpoint mapPush (m : AdjMap) (k : Key) (idx : nat) : AdjMap :=
  match m with
  | [] => [(k, [idx])]
  | (k', v) :: t =>
      if key_eqb k' k then (k', v ++ [idx]) :: t else (k', v) :: mapPush t k idx
  end.

Definition buildMap (epsilon : num) (segs : list LineSegment) : AdjMap :=
  fold_left
    (fun m (ix : nat * LineSegment) =>
       let '(idx, seg) := ix in
       mapPush (mapPush m (hash epsilon (seg_start seg)) idx)
               (hash epsilon (seg_end seg)) idx)
    (BinOps.indexed segs) [].

(** [Set<number>] of used indices. *)
Definition has (used : list nat) (i : nat) : bool := existsb (Nat.eqb i) used.

(** The loop [for (const candIdx of candidates)]: the first unused candidate
    one of whose ends is at [currentPoint], with its far end. *)
Fixpoint findNext (segs : list LineSegment) (epsilon : num) (used : list nat)
         (currentPoint : Vector3) (candidates : list nat) : option (nat * Vector3) :=
  match candidates with
  | [] => None
  | candIdx :: rest =>
      if has used candIdx then findNext segs epsilon used currentPoint rest
      else
        match nth_error segs candIdx with
        | None => findNext segs epsilon used currentPoint rest
        | Some candSeg =>
            let distStart := distanceToSquared (seg_start candSeg) currentPoint in
            let distEnd := distanceToSquared (seg_end candSeg) currentPoint in
            let sqEps := (epsilon * epsilon)%num in
            if (distStart <? sqEps)%num then Some (candIdx, seg_end candSeg)
            else if (distEnd <? sqEps)%num then Some (candIdx, seg_start candSeg)
            else findNext segs epsilon used currentPoint rest
        end
  end.

(** The loop [while (finding)].  Every turn that goes on marks one more
    segment as used, so [fuel] bounds the number of turns; [None] means the
    fuel ran out. *)
Fixpoint grow (fuel : nat) (segs : list LineSegment) (epsilon : num) (m : AdjMap)
         (contour : list Vector3) (currentPoint : Vector3) (used : list nat)
  : option (list Vector3 * list nat) :=
  match fuel with
  | O => None
  | S fuel' =>
      match mapGet m (hash epsilon currentPoint) with
      | None => Some (contour, used)
      | Some candidates =>
          match findNext segs epsilon used currentPoint candidates with
          | None => Some (contour, used)
          | Some (candIdx, far) =>
              let contour' := contour ++ [far] in
              let used' := candIdx :: used in
              if (distanceToSquared far (hd undefinedVec contour')
                  <? epsilon * epsilon)%num
              then Some (contour', used')
              else grow fuel' segs epsilon m contour' far used'
          end
      end
  end.

(** One turn of the outer loop [for (i = 0; i < segments.length; i++)]. *)
Definition link_step (segs : list LineSegment) (epsilon : num) (m : AdjMap)
           (st : option (list (list Vector3) * list nat)) (ix : nat * LineSegment)
  : option (list (list Vector3) * list nat) :=
  match st with
  | None => None
  | Some (cs, used) =>
      let '(i, seg) := ix in
      if has used i then Some (cs, used)
      else
        match grow (S (length segs)) segs epsilon m
                   [seg_start seg; seg_end seg] (seg_end seg) (i :: used) with
        | None => None
        | Some (contour, used') => Some (cs ++ [contour], used')
        end
  end.

Definition linkSegments (segs : list LineSegment) (epsilon : num)
  : option (list (list Vector3)) :=
  match fold_left (link_step segs epsilon (buildMap epsilon segs))
                  (BinOps.indexed segs) (Some ([], [])) with
  | Some (cs, _) => Some cs
  | None => None
  end.

(** *** [sliceGeometry] *)

(** The body of the level loop for level [i]: the slice it pushes, if any. *)
Definition sliceLevel (pos : list Vector3) (axis : Axis) (mn step : num) (i : Z)
  : option (list Slice) :=
  let planeLevel := (mn + ofZ i * step)%num in
  let segs := levelSegments axis planeLevel pos in
  match segs with
  | [] => Some []
  | _ :: _ =>
      match linkSegments segs EPSILON with
      | None => None
      | Some cs =>
          Some [mkSlice (ofZ i) planeLevel segs cs (levelBounds axis segs)]
      end
  end.

(** The loop [for (i = 1; i <= numberOfSlices; i++)], from [i] on.  [None]
    stands for a run that does not end. *)
Fixpoint sliceLoop (fuel : nat) (pos : list Vector3) (axis : Axis)
         (mn step numberOfSlices : num) (i : Z) : option (list Slice) :=
  match fuel with
  | O => None
  | S fuel' =>
      if (ofZ i <=? numberOfSlices)%num then
        match sliceLevel pos axis mn step i with
        | None => None
        | Some here =>
            match sliceLoop fuel' pos axis mn step numberOfSlices (i + 1) with
            | None => None
            | Some later => Some (here ++ later)
            end
        end
      else Some []
  end.

(** Turns of the level loop that can pass its test, plus the failing one. *)
Definition levelFuel (numberOfSlices : num) : nat :=
  match numberOfSlices with
  | Fin q => S (Z.to_nat (Qfloor q))
  | _ => 1
  end.

(** [sliceGeometry(geometry, axis, numberOfSlices)], with [pos] the vertices
    of the non-indexed position attribute.  The progress callback has no
    effect on the result and is left out. *)
Definition sliceGeometry (pos : list Vector3) (axis : Axis) (numberOfSlices : num)
  : option (list Slice) :=
  let mn := boxMin pos axis in
  let mx := boxMax pos axis in
  let range := (mx - mn)%num in
  if ((range <=? Fin 0) || (numberOfSlices <=? Fin 0))%num then Some []
  else
    let step := (range / (numberOfSlices + Fin 1))%num in
    sliceLoop (levelFuel numberOfSlices) pos axis mn step numberOfSlices 1.

(** Test data: the cube [0,100]^3, two triangles on each face. *)
Definition pt (x y z : Z) : Vector3 := mkVector3 (ofZ x) (ofZ y) (ofZ z).

Definition quad (a b c d : Vector3) : list Vector3 := [a; b; c; a; c; d].

Definition cube100 : list Vector3 :=
  quad (pt 0 0 0) (pt 100 0 0) (pt 100 100 0) (pt 0 100 0)
  ++ quad (pt 0 0 100) (pt 100 0 100) (pt 100 100 100) (pt 0 100 100)
  ++ quad (pt 0 0 0) (pt 100 0 0) (pt 100 0 100) (pt 0 0 100)
  ++ quad (pt 0 100 0) (pt 100 100 0) (pt 100 100 100) (pt 0 100 100)
  ++ quad (pt 0 0 0) (pt 0 100 0) (pt 0 100 100) (pt 0 0 100)
  ++ quad (pt 100 0 0) (pt 100 100 0) (pt 100 100 100) (pt 100 0 100).

(** Four segments around a square of side 100 in the plane [z = 20]. *)
Definition squareSegments : list LineSegment :=
  [mkSegment (pt 0 0 20) (pt 100 0 20);
   mkSegment (pt 100 0 20) (pt 100 100 20);
   mkSegment (pt 100 100 20) (pt 0 100 20);
   mkSegment (pt 0 100 20) (pt 0 0 20)].


(* ===================================================================== *)
(** ** Vocabulary of the statements *)
(* ===================================================================== *)

(** A slice passes the pre-check. *)
Definition validBounds (slice : Slice) : bool := negb (invalidBounds slice).

(** Rectangles on a sheet: right and top edge, containment, separation. *)
Definition right (r : Rect) : num := (rx r + rwidth r)%num.
Definition top (r : Rect) : num := (ry r + rheight r)%num.

Definition within (a b : Rect) : Prop :=
  (rx b <= rx a)%num /\ (right a <= right b)%num
  /\ (ry b <= ry a)%num /\ (top a <= top b)%num.

(** Two rectangles are apart when a vertical or a horizontal line separates
    them. *)
Definition apart (a b : Rect) : Prop :=
  (right a <= rx b)%num \/ (right b <= rx a)%num
  \/ (top a <= ry b)%num \/ (top b <= ry a)%num.

Definition inSheet (W H : num) (r : Rect) : Prop :=
  (Fin 0 <= rx r)%num /\ (Fin 0 <= ry r)%num
  /\ (right r <= W)%num /\ (top r <= H)%num.

Definition finiteOrigin (r : Rect) : Prop :=
  isFinite (rx r) = true /\ isFinite (ry r) = true.

(** The margin-inflated, rotation-aware rectangle a placed slice occupies. *)
Definition footprint (p : PlacedSlice) : Rect :=
  mkRect (ps_x p) (ps_y p) (placedW p) (placedH p).


(** What every bin satisfies between two calls of [insert]. *)
Record BinInv (b : Bin) : Prop := mkBinInv {
  inv_free_in : Forall (inSheet (bin_width b) (bin_height b)) (freeRects b);
  inv_items_in :
    Forall (inSheet (bin_width b) (bin_height b)) (map footprint (items b));
  inv_free_origin : Forall finiteOrigin (freeRects b);
  inv_free_apart : ForallOrdPairs apart (freeRects b);
  inv_items_apart : ForallOrdPairs apart (map footprint (items b));
  inv_cross :
    Forall (fun p => Forall (apart p) (freeRects b)) (map footprint (items b));
  inv_items_meta :
    Forall (fun p => (rotation p = Fin 0 \/ rotation p = (Math_PI / Fin 2)%num)
                     /\ ps_sheetId p = sheetId b
                     /\ validBounds (ps_slice p) = true) (items b)
}.

(** The slices placed on the sheets of a result, sheet after sheet. *)
Definition placedOn (bins : list Bin) : list Slice :=
  flat_map (fun b => map ps_slice (items b)) bins.

Definition placedSlices (r : NestResult) : list Slice :=
  flat_map (fun s => map ps_slice (sheet_items s)) (sheets r).

(** The two classes of the pre-check, as tests on one slice. *)
Definition isOversized (sw sh : num) (slice : Slice) : bool :=
  validBounds slice && negb (fitsNormal sw sh slice) && negb (fitsRotated sw sh slice).

Definition isFittable (sw sh : num) (slice : Slice) : bool :=
  validBounds slice && (fitsNormal sw sh slice || fitsRotated sw sh slice).

(** A bin of a packing run on sheets of [sw] x [sh]. *)
Definition BinOK (sw sh : num) (b : Bin) : Prop :=
  BinInv b /\ bin_width b = sw /\ bin_height b = sh.

(** Test data: the first sheet of the five-squares layout and two of its
    items. *)
Definition noSheet : Sheet := mkSheet 0 NaN NaN [].

Definition squaresSheet : Sheet :=
  nth 0 (sheets (nestSlices fiveSquares sheet120 optimized)) noSheet.


(** What a layout shows of a placed slice. *)
Definition placement (p : PlacedSlice) : Slice * num * num * num * nat :=
  (ps_slice p, ps_x p, ps_y p, rotation p, ps_sheetId p).

Definition layout (r : NestResult) : list (nat * list (Slice * num * num * num * nat)) :=
  map (fun s => (sheet_id s, map placement (sheet_items s))) (sheets r).

(** The used set of the linker holds indices of segments, each once. *)
Definition UsedOK (n : nat) (used : list nat) : Prop :=
  NoDup used /\ Forall (fun i => (i < n)%nat) used.

(** Points a contour has beyond its first one: one per segment it links. *)
Definition linked (cs : list (list Vector3)) : nat :=
  list_sum (map (fun c => pred (length c)) cs).

(** The closure test of the linker on a finished contour: its last point is
    within [epsilon] of its first. *)
Definition closedContour (epsilon : num) (c : list Vector3) : bool :=
  (distanceToSquared (last c undefinedVec) (hd undefinedVec c)
   <? epsilon * epsilon)%num.

(** The inner loop cannot go on from point [p]: no candidate list under its
    hash, or no unused candidate with an end at [p]. *)
Definition stuckAt (segs : list LineSegment) (epsilon : num) (m : AdjMap)
           (used : list nat) (p : Vector3) : Prop :=
  match mapGet m (hash epsilon p) with
  | None => True
  | Some candidates => findNext segs epsilon used p candidates = None
  end.

Definition samePoint (p q : Vector3) : bool :=
  ((vx p === vx q) && (vy p === vy q) && (vz p === vz q))%num.

(** A point of the outline of the square [0,100] x [0,100]. *)
Definition onSquare100 (p : Vector3) : bool :=
  let inRange a := ((Fin 0 <=? a) && (a <=? Fin 100))%num in
  let onEdge a := ((a === Fin 0) || (a === Fin 100))%num in
  (onEdge (vx p) && inRange (vy p)) || (onEdge (vy p) && inRange (vx p)).

(** What each slice of the cube looks like: eight segments linked into one
    contour of nine points that ends where it starts and runs along the
    outline of the side-100 square. *)
Definition cubeSliceShape (s : Slice) : Prop :=
  length (segments s) = 8%nat
  /\ exists c,
      contours s = [c]
      /\ length c = 9%nat
      /\ samePoint (last c undefinedVec) (hd undefinedVec c) = true
      /\ closedContour EPSILON c = true
      /\ forallb onSquare100 c = true
      /\ (b_width (bounds s) === Fin 100)%num = true
      /\ (b_height (bounds s) === Fin 100)%num = true.

(** Test data: a sheet without bounds, on which [score] finds no leftover
    below [Number.MAX_VALUE]. *)
Definition boundlessSheet : MaterialSettings := mkMaterial PInf PInf (Fin 3) mm.

(** Two slices that nesting cannot tell apart: same id, same sides. *)
Definition sameSides (s t : Slice) : Prop :=
  slice_id s = slice_id t
  /\ b_width (bounds s) = b_width (bounds t)
  /\ b_height (bounds s) = b_height (bounds t).

Definition samePlacement (p q : PlacedSlice) : Prop :=
  sameSides (ps_slice p) (ps_slice q)
  /\ ps_x p = ps_x q /\ ps_y p = ps_y q
  /\ rotation p = rotation q /\ ps_sheetId p = ps_sheetId q.

Definition sameBin (b c : Bin) : Prop :=
  bin_width b = bin_width c /\ bin_height b = bin_height c
  /\ freeRects b = freeRects c /\ sheetId b = sheetId c
  /\ Forall2 samePlacement (items b) (items c).

Definition sameSheet (s t : Sheet) : Prop :=
  sheet_id s = sheet_id t
  /\ sheet_width s = sheet_width t /\ sheet_height s = sheet_height t
  /\ Forall2 samePlacement (sheet_items s) (sheet_items t).

(** Vocabulary of [score]: a free rectangle holds a block; the short and
    the long leftover; the comparison of two score pairs. *)
Definition holds (r : Rect) (w h : num) : bool :=
  ((rwidth r >=? w) && (rheight r >=? h))%num.

Definition shortSide (r : Rect) (w h : num) : num :=
  Math_min (Math_abs (rwidth r - w)) (Math_abs (rheight r - h)).

Definition longSide (r : Rect) (w h : num) : num :=
  Math_max (Math_abs (rwidth r - w)) (Math_abs (rheight r - h)).

Definition better (s1 l1 s2 l2 : num) : bool :=
  ((s1 <? s2) || ((s1 === s2) && (l1 <? l2)))%num.

(** All free rectangles of a bin have finite sides below
    [Number.MAX_VALUE]. *)
Definition finiteFree (b : Bin) : Prop :=
  Forall (fun r => isFinite (rwidth r) = true /\ isFinite (rheight r) = true
                   /\ (rwidth r < Number_MAX_VALUE)%num
                   /\ (rheight r < Number_MAX_VALUE)%num) (freeRects b).

(** Test data: a slice too large for the 120 x 120 sheet. *)
Definition bigSlice : Slice := flatSlice 2 200 200.

Definition toQ (a : num) : Q := match a with Fin q => q | _ => 0%Q end.

(** All three coordinates of a point are finite numbers. *)
Definition finiteVec (v : Vector3) : Prop :=
  isFinite (vx v) = true /\ isFinite (vy v) = true /\ isFinite (vz v) = true.

(** A point of a level: finite and within [EPSILON] of the plane. *)
Definition onLevel (axis : Axis) (planeLevel : num) (p : Vector3) : Prop :=
  finiteVec p /\ (Math_abs (getVal p axis - planeLevel) <? EPSILON)%num = true.

(** The points after [prev] follow segments: each is the far end of a
    segment whose near end is within [epsilon] of the point before. *)
Fixpoint chain (segs : list LineSegment) (epsilon : num) (prev : Vector3)
         (rest : list Vector3) : Prop :=
  match rest with
  | [] => True
  | p :: rest' =>
      (exists seg,
          In seg segs
          /\ (((distanceToSquared (seg_start seg) prev <? epsilon * epsilon)%num = true
               /\ p = seg_end seg)
              \/ ((distanceToSquared (seg_end seg) prev <? epsilon * epsilon)%num = true
                  /\ p = seg_start seg)))
      /\ chain segs epsilon p rest'
  end.

(** The 2D point of [get2D] lies in the box of some bounds. *)
Definition inBounds (b : Bounds) (xy : num * num) : Prop :=
  (minX b <= fst xy)%num /\ (fst xy <= maxX b)%num
  /\ (minY b <= snd xy)%num /\ (snd xy <= maxY b)%num.

(** Both ends of every segment. *)
Definition endpoints (segs : list LineSegment) : list Vector3 :=
  flat_map (fun seg => [seg_start seg; seg_end seg]) segs.

(** A vertex the triangle loop can read: a finite point of the buffer, or
    the undefined one past its end. *)
Definition okVertex (v : Vector3) : Prop := finiteVec v \/ v = undefinedVec.

(* ===================================================================== *)
(** ** Geometry utilities ([isPointInPoly], [getClippedSegments]) *)
(* ===================================================================== *)

Record Point2D : Type := mkPoint2D { p2x : num; p2y : num }.

Record Segment2D : Type := mkSegment2D { s2_start : Point2D; s2_end : Point2D }.

(** What indexing past the end of an array of points yields. *)
Definition undefinedPoint : Point2D := mkPoint2D NaN NaN.

(** The test [intersect] of [isPointInPoly] for the edge from [poly[j]] to
    [poly[i]]; [!==] on two booleans is exclusive or. *)
Definition rayCrosses (pt pi pj : Point2D) : bool :=
  xorb (p2y pi >? p2y pt)%num (p2y pj >? p2y pt)%num
  && (p2x pt <? (p2x pj - p2x pi) * (p2y pt - p2y pi) / (p2y pj - p2y pi) + p2x pi)%num.

(** The loop [for (i = 0, j = poly.length - 1; i < poly.length; j = i++)]
    from vertex [i] on, with [prev] the vertex [poly[j]]. *)
Fixpoint polyLoop (pt prev : Point2D) (rest : list Point2D) (inside : bool) : bool :=
  match rest with
  | [] => inside
  | cur :: rest' =>
      polyLoop pt cur rest' (if rayCrosses pt cur prev then negb inside else inside)
  end.

Definition isPointInPoly (pt : Point2D) (contours : list (list Point2D)) : bool :=
  fold_left (fun inside poly => polyLoop pt (last poly undefinedPoint) poly inside)
            contours false.

(** The edges of one boundary contour, none for a contour of fewer than
    three points. *)
Definition contourEdges (c : list Point2D) : list Segment2D :=
  if (length c <? 3)%nat then []
  else map (fun i => mkSegment2D (nth i c undefinedPoint)
                                 (nth ((i + 1) mod length c) c undefinedPoint))
           (seq 0 (length c)).

(** The parameter [r] pushed for one edge, if any. *)
Definition edgeHit (line edge : Segment2D) : list num :=
  let x1 := p2x (s2_start line) in let y1 := p2y (s2_start line) in
  let x2 := p2x (s2_end line) in let y2 := p2y (s2_end line) in
  let x3 := p2x (s2_start edge) in let y3 := p2y (s2_start edge) in
  let x4 := p2x (s2_end edge) in let y4 := p2y (s2_end edge) in
  let d := ((x2 - x1) * (y4 - y3) - (y2 - y1) * (x4 - x3))%num in
  if negb (d === Fin 0)%num then
    let r := (((y1 - y3) * (x4 - x3) - (x1 - x3) * (y4 - y3)) / d)%num in
    let s := (((y1 - y3) * (x2 - x1) - (x1 - x3) * (y2 - y1)) / d)%num in
    if ((r >=? Fin 0) && (r <=? Fin 1) && (s >=? Fin 0) && (s <=? Fin 1))%num
    then [r] else []
  else [].

Definition tolerance : num := Fin (1 # 10000).

(** The loop that merges close parameters, from index 1 on. *)
Definition uniqueParams (tValues : list num) : list num :=
  match tValues with
  | [] => []
  | t0 :: rest =>
      fold_left
        (fun uniqueT t =>
           if (t - last uniqueT NaN >? tolerance)%num then uniqueT ++ [t] else uniqueT)
        rest [t0]
  end.

(** The loop over the intervals between consecutive merged parameters. *)
Fixpoint keptIntervals (line : Segment2D) (boundaryContours : list (list Point2D))
         (uniqueT : list num) : list Segment2D :=
  match uniqueT with
  | tStart :: ((tEnd :: _) as rest) =>
      let dx := (p2x (s2_end line) - p2x (s2_start line))%num in
      let dy := (p2y (s2_end line) - p2y (s2_start line))%num in
      let here :=
        if (tEnd - tStart <? tolerance)%num then []
        else
          let midT := ((tStart + tEnd) / Fin 2)%num in
          let midX := (p2x (s2_start line) + midT * dx)%num in
          let midY := (p2y (s2_start line) + midT * dy)%num in
          if isPointInPoly (mkPoint2D midX midY) boundaryContours then
            [mkSegment2D
               (mkPoint2D (p2x (s2_start line) + tStart * dx)
                          (p2y (s2_start line) + tStart * dy))
               (mkPoint2D (p2x (s2_start line) + tEnd * dx)
                          (p2y (s2_start line) + tEnd * dy))]
          else [] in
      here ++ keptIntervals line boundaryContours rest
  | _ => []
  end.

Definition clipLine (edges : list Segment2D) (boundaryContours : list (list Point2D))
           (line : Segment2D) : list Segment2D :=
  let tValues := [Fin 0; Fin 1] ++ flat_map (edgeHit line) edges in
  let sorted := sort (fun a b => (a - b)%num) tValues in
  keptIntervals line boundaryContours (uniqueParams sorted).

Definition getClippedSegments (lines : list Segment2D)
           (boundaryContours : list (list Point2D)) : list Segment2D :=
  let edges := flat_map contourEdges boundaryContours in
  flat_map (clipLine edges boundaryContours) lines.

(** Test data: an axis-aligned rectangle, counter-clockwise from its lower
    left corner. *)
Definition rectangle (x0 y0 x1 y1 : Q) : list Point2D :=
  [mkPoint2D (Fin x0) (Fin y0); mkPoint2D (Fin x1) (Fin y0);
   mkPoint2D (Fin x1) (Fin y1); mkPoint2D (Fin x0) (Fin y1)].

(** A parameter along a line, between its two ends. *)
Definition unitParam (t : num) : Prop := (Fin 0 <= t)%num /\ (t <= Fin 1)%num.

(** The point of a line at parameter [t]. *)
Definition pointAt (line : Segment2D) (t : num) : Point2D :=
  mkPoint2D
    (p2x (s2_start line) + t * (p2x (s2_end line) - p2x (s2_start line)))%num
    (p2y (s2_start line) + t * (p2y (s2_end line) - p2y (s2_start line)))%num.


(* ===================================================================== *)
(** ** Splitting a slice ([utils/modifier.ts]: [splitSlice]) *)

(** JS [a % b]: the remainder takes the sign of the dividend, so the
    quotient is rounded towards zero. *)
Definition truncQ (q : Q) : Z := if Qle_bool 0 q then Qfloor q else Qceiling q.

Definition nrem (a b : num) : num :=
  match a, b with
  | Fin p, Fin q =>
      if Qeq_bool q 0 then NaN else Fin (p - q * inject_Z (truncQ (p / q)))
  | Fin p, PInf | Fin p, NInf => Fin p
  | _, _ => NaN
  end.

Definition Number_isInteger (a : num) : bool :=
  match a with
  | Fin q => Qeq_bool (inject_Z (Qfloor q)) q
  | _ => false
  end.

(** A point [{u, v}] of the slice plane. *)
Record PointUV : Type := mkUV { uv_u : num; uv_v : num }.

Definition undefinedUV : PointUV := mkUV NaN NaN.

Module Modifier.

(** [getSplitOffset]: a triangle wave of wavelength 20 and amplitude 4. *)
Definition getSplitOffset (pos : num) : num :=
  let wavelength := Fin 20 in
  let amplitude := Fin 4 in
  let phase := (nrem pos wavelength / wavelength)%num in
  let phase := if (phase <? Fin 0)%num then (phase + Fin 1)%num else phase in
  if (phase <? Fin (1 # 2))%num
  then (amplitude * (Fin 4 * phase - Fin 1))%num
  else (amplitude * (Fin 3 - Fin 4 * phase))%num.

Definition get2D (axis : Axis) (v : Vector3) : PointUV :=
  match axis with
  | AxisZ => mkUV (vx v) (vy v)
  | AxisY => mkUV (vx v) (vz v)
  | AxisX => mkUV (vy v) (vz v)
  end.

Definition get3D (axis : Axis) (height : num) (u v : num) : Vector3 :=
  match axis with
  | AxisZ => mkVector3 u v height
  | AxisY => mkVector3 u height v
  | AxisX => mkVector3 height u v
  end.

Definition findIntersection (p1 p2 : PointUV) (axis : SplitAxis) (split : num)
  : PointUV :=
  let x1 := match axis with U => uv_u p1 | V => uv_v p1 end in
  let y1 := match axis with U => uv_v p1 | V => uv_u p1 end in
  let x2 := match axis with U => uv_u p2 | V => uv_v p2 end in
  let y2 := match axis with U => uv_v p2 | V => uv_u p2 end in
  if (Math_abs (x2 - x1) <? Fin (1 # 100000))%num then
    let midY := ((y1 + y2) / Fin 2)%num in
    let waveOffset := getSplitOffset midY in
    let val := (split + waveOffset)%num in
    match axis with U => mkUV val midY | V => mkUV midY val end
  else
    let t := ((split - x1) / (x2 - x1))%num in
    let t := Math_max (Fin 0) (Math_min (Fin 1) t) in
    let intersectY := (y1 + t * (y2 - y1))%num in
    let waveOffset := getSplitOffset intersectY in
    let finalVal := (split + waveOffset)%num in
    let finalPerp := intersectY in
    match axis with U => mkUV finalVal finalPerp | V => mkUV finalPerp finalVal end.

(** [isInside], the test of [clipPoly] for the side that is kept. *)
Definition isInside (splitAxis : SplitAxis) (splitPos : num) (keepLeft : bool)
  (p : PointUV) : bool :=
  let val := match splitAxis with U => uv_u p | V => uv_v p end in
  let perp := match splitAxis with U => uv_v p | V => uv_u p end in
  let limit := (splitPos + getSplitOffset perp)%num in
  if keepLeft then (val <=? limit)%num else (val >=? limit)%num.

(** What one turn of the loop of [clipPoly] pushes to [output]. *)
Definition clipStep (splitAxis : SplitAxis) (splitPos : num) (keepLeft : bool)
  (prev curr : PointUV) : list PointUV :=
  let currIn := isInside splitAxis splitPos keepLeft curr in
  let prevIn := isInside splitAxis splitPos keepLeft prev in
  if prevIn && currIn then [curr]
  else if prevIn && negb currIn then
    [findIntersection prev curr splitAxis splitPos]
  else if negb prevIn && currIn then
    [findIntersection prev curr splitAxis splitPos; curr]
  else [].

Definition clipPoly (splitAxis : SplitAxis) (splitPos : num)
  (poly : list PointUV) (keepLeft : bool) : list PointUV :=
  let n := length poly in
  if (n =? 0)%nat then []
  else
    flat_map
      (fun i =>
         let curr := nth i poly undefinedUV in
         let prev := nth ((i + n - 1) mod n) poly undefinedUV in
         clipStep splitAxis splitPos keepLeft prev curr)
      (seq 0 n).

(** The running bounds of [buildSlice] after one more point. *)
Definition boundsStep (st : num * num * num * num) (p : PointUV)
  : num * num * num * num :=
  let '(mnX, mnY, mxX, mxY) := st in
  (Math_min mnX (uv_u p), Math_min mnY (uv_v p),
   Math_max mxX (uv_u p), Math_max mxY (uv_v p)).

(** The segments of a closed contour, from each point to the next one. *)
Definition closedSegments (c : list Vector3) : list LineSegment :=
  map (fun i => mkSegment (nth i c undefinedVec)
                          (nth ((i + 1) mod length c) c undefinedVec))
      (seq 0 (length c)).

Section Ids.

(** The string round trips of [buildSlice]: [parseFloat_id true id s] stands
    for [parseFloat(`${id}.${s}`)] and [parseFloat_id false id s] for
    [parseFloat(`${id}${s}`)]. *)
Variable parseFloat_id : bool -> num -> nat -> num.

Definition buildSlice (slice : Slice) (axis : Axis)
  (contours : list (list PointUV)) (idSuffix : nat) : option Slice :=
  if (length contours =? 0)%nat then None
  else
    let contours3D :=
      map (fun c => map (fun p => get3D axis (zHeight slice) (uv_u p) (uv_v p)) c)
          contours in
    let '(mnX, mnY, mxX, mxY) :=
      fold_left (fun st c => fold_left boundsStep c st) contours
                (PInf, PInf, NInf, NInf) in
    if negb (isFinite mnX) || negb (isFinite mnY)
       || negb (isFinite mxX) || negb (isFinite mxY) then None
    else
      let segments := flat_map closedSegments contours3D in
      let newId :=
        if Number_isInteger (slice_id slice)
        then parseFloat_id true (slice_id slice) idSuffix
        else parseFloat_id false (slice_id slice) idSuffix in
      Some (mkSlice newId (zHeight slice) segments contours3D
                    (mkBounds mnX mnY mxX mxY (mxX - mnX)%num (mxY - mnY)%num)).

Definition pushSome (results : list Slice) (s : option Slice) : list Slice :=
  match s with
  | Some s => results ++ [s]
  | None => results
  end.

(** The two lists of clipped contours of [splitSlice], for the side that is
    kept. *)
Definition clippedContours (slice : Slice) (axis : Axis) (maxW maxH : num)
  (keepLeft : bool) : list (list PointUV) :=
  let '(splitAxis, splitPos) := splitSlice_axis slice maxW maxH in
  let contours2D := map (fun c => map (get2D axis) c) (contours slice) in
  filter (fun c => (2 <? length c)%nat)
         (map (fun c => clipPoly splitAxis splitPos c keepLeft) contours2D).

Definition splitSlice (slice : Slice) (axis : Axis) (maxW maxH : num)
  : list Slice :=
  let contoursLeft := clippedContours slice axis maxW maxH true in
  let contoursRight := clippedContours slice axis maxW maxH false in
  let results := [] in
  let s1 := buildSlice slice axis contoursLeft 1 in
  let results := pushSome results s1 in
  let s2 := buildSlice slice axis contoursRight 2 in
  let results := pushSome results s2 in
  results.

End Ids.

End Modifier.

(** The ids of the examples are small integers that are not negative; for
    these [`${id}.${s}`] reads back as [id + s / 10]. *)
Definition decimalIds (dotted : bool) (id : num) (s : nat) : num :=
  if dotted then (id + Fin (inject_Z (Z.of_nat s) / 10))%num else NaN.

(** Test data: a slice at height 0 (cut along Z) whose one contour is the
    rectangle from [(0, 0)] to [(w, h)]. *)
Definition rectSlice (i : Z) (w h : Q) : Slice :=
  mkSlice (ofZ i) (Fin 0) []
          [[mkVector3 (Fin 0) (Fin 0) (Fin 0); mkVector3 (Fin w) (Fin 0) (Fin 0);
            mkVector3 (Fin w) (Fin h) (Fin 0); mkVector3 (Fin 0) (Fin h) (Fin 0)]]
          (mkBounds (Fin 0) (Fin 0) (Fin w) (Fin h) (Fin w) (Fin h)).


(** A point of the slice plane with two finite coordinates. *)
Definition finiteUV (p : PointUV) : Prop :=
  isFinite (uv_u p) = true /\ isFinite (uv_v p) = true.

(** The coordinate of a point along the split axis, and the other one. *)
Definition along (splitAxis : SplitAxis) (p : PointUV) : num :=
  match splitAxis with U => uv_u p | V => uv_v p end.

Definition across (splitAxis : SplitAxis) (p : PointUV) : num :=
  match splitAxis with U => uv_v p | V => uv_u p end.

(** A point that lies on the cut line. *)
Definition onCut (splitAxis : SplitAxis) (splitPos : num) (p : PointUV) : Prop :=
  along splitAxis p = (splitPos + Modifier.getSplitOffset (across splitAxis p))%num.


(** Test data: the rectangle from [(0, 0)] to [(w, h)] in the slice plane. *)
Definition rectUV (w h : Q) : list PointUV :=
  [mkUV (Fin 0) (Fin 0); mkUV (Fin w) (Fin 0); mkUV (Fin w) (Fin h);
   mkUV (Fin 0) (Fin h)].


(** The lower end and the extent of bounds along the split axis. *)
Definition boundsLow (splitAxis : SplitAxis) (b : Bounds) : num :=
  match splitAxis with U => minX b | V => minY b end.

Definition boundsExtent (splitAxis : SplitAxis) (b : Bounds) : num :=
  match splitAxis with U => b_width b | V => b_height b end.

(** All contour points of a slice, in the slice plane. *)
Definition contourPoints (axis : Axis) (slice : Slice) : list PointUV :=
  concat (map (fun c => map (Modifier.get2D axis) c) (contours slice)).

(** The bounds of a slice hold its contours along the split axis. *)
Definition boundsHold (splitAxis : SplitAxis) (axis : Axis) (slice : Slice) : Prop :=
  Forall (fun p => (boundsLow splitAxis (bounds slice) <= along splitAxis p)%num
                   /\ (along splitAxis p
                       <= boundsLow splitAxis (bounds slice)
                          + boundsExtent splitAxis (bounds slice))%num)
         (contourPoints axis slice).


(* ===================================================================== *)
(** ** The callers in [App.tsx]: [handleSlice] and [handleAutoSplit] *)





Section AutoSplit.

Variable parseFloat_id : bool -> num -> nat -> num.

(** The limits that [handleAutoSplit] passes to [splitSlice]. *)
Definition splitLimits (material : MaterialSettings) : num * num :=
  let scaleFactor := match mat_unit material with inch => Fin (254 # 10) | mm => Fin 1 end in
  ((mat_width material * scaleFactor - Fin 10)%num,
   (mat_length material * scaleFactor - Fin 10)%num).

(** One turn of the [forEach] of [handleAutoSplit]. *)
Definition autoSplit_step (axis : Axis) (maxW maxH : num)
  (newSlices : list Slice) (badSlice : Slice) : list Slice :=
  let newSlices :=
    filter (fun s => negb (slice_id s === slice_id badSlice)%num) newSlices in
  let parts := Modifier.splitSlice parseFloat_id badSlice axis maxW maxH in
  newSlices ++ parts.

(** The slices that [handleAutoSplit] stores in the state; with nothing
    oversized the state is left as it is. *)
Definition handleAutoSplit (slices oversizedSlices : list Slice)
  (material : MaterialSettings) (axis : Axis) : list Slice :=
  if (length oversizedSlices =? 0)%nat then slices
  else
    let '(maxW, maxH) := splitLimits material in
    fold_left (autoSplit_step axis maxW maxH) oversizedSlices slices.

End AutoSplit.

(** A slice whose id differs ([!==]) from the id of every slice of a list. *)
Definition idApart (others : list Slice) (s : Slice) : bool :=
  forallb (fun o => negb (slice_id s === slice_id o)%num) others.


(** Every element of a list is more than the tolerance above the one before
    it. *)
Fixpoint gapped (l : list num) : Prop :=
  match l with
  | a :: ((b :: _) as rest) => (b - a >? tolerance)%num = true /\ gapped rest
  | _ => True
  end.


(* ===================================================================== *)
(** ** The sort of the engine *)

(** [nestSlices] with [Array.prototype.sort] as a parameter: the sort is the
    one step of the function that the code leaves to the engine. *)
Definition nestSlicesWith
           (engineSort : (Slice -> Slice -> num) -> list Slice -> list Slice)
           (slices : list Slice) (material : MaterialSettings)
           (strategy : Strategy) : NestResult :=
  let sw := sheetWidth material in
  let sh := sheetHeight material in
  let '(oversized0, fittableSlices) := preCheck sw sh slices in
  let sortedSlices := engineSort (compareSlices strategy) fittableSlices in
  let '(bins, oversized1) :=
    fold_left (pack_step sw sh) sortedSlices ([], oversized0) in
  mkNestResult (map toSheet bins) oversized1.

(** What ECMAScript asks of [Array.prototype.sort] when the comparator is
    consistent: the output is a permutation of the input, no element comes
    before one that the comparator puts in front of it, and elements that
    compare equal keep the order of the input (the sort is stable). *)
Record SortsStably (A : Type) (cmp : A -> A -> num) (input output : list A)
  : Prop := mkSortsStably {
  sorts_perm : Permutation output input;
  sorts_sorted : StronglySorted (fun a b => (cmp a b <=? Fin 0)%num = true) output;
  sorts_stable :
    forall x, In x input ->
              filter (fun y => (cmp x y === Fin 0)%num) output
              = filter (fun y => (cmp x y === Fin 0)%num) input
}.

(** The sort key behind [compareSlices]: slices are sorted by descending
    area, or by ascending id. *)
Definition sortKey (strategy : Strategy) (s : Slice) : Q :=
  match strategy with
  | sequential => - toQ (slice_id s)
  | optimized => toQ (b_width (bounds s)) * toQ (b_height (bounds s))
  end.

(** Test data: a second stable sort, which inserts from the right end of the
    input, and a list with a tie between two areas. *)
Fixpoint insertFront (A : Type) (cmp : A -> A -> num) (x : A) (l : list A) : list A :=
  match l with
  | [] => [x]
  | y :: t => if (cmp x y >? Fin 0)%num then y :: insertFront cmp x t else x :: y :: t
  end.

Definition sortFromRight (A : Type) (cmp : A -> A -> num) (l : list A) : list A :=
  fold_right (fun x acc => insertFront cmp x acc) [] l.

Definition tiedSlices : list Slice :=
  [flatSlice 1 50 50; flatSlice 2 60 60; flatSlice 3 50 50; flatSlice 4 10 10].


(* ===================================================================== *)
(** ** The nester in IEEE double arithmetic *)

(** The definitions above compute with exact rationals.  [Double] holds the
    same code once more with the numbers of the engine, IEEE 754 binary64
    with rounding to nearest: every sum, difference and product is rounded
    as the code rounds it.  It is used to evaluate the nester on concrete
    sheets. *)
Module Double.

Import PrimFloat.

Definition double : Set := PrimFloat.float.

(** A decimal literal [n / den] with [den] a power of ten, such as [15.4]:
    the double nearest to it (both integers are exact, and the quotient is
    rounded once, to nearest). *)
Definition lit (n den : Z) : double :=
  (PrimFloat.of_uint63 (Uint63.of_Z n) / PrimFloat.of_uint63 (Uint63.of_Z den))%float.

Definition Number_MAX_VALUE : double := 0x1.fffffffffffffp+1023%float.

Definition Math_PI : double := 0x1.921fb54442d18p+1%float.

(** [Number.isFinite] *)
Definition isFinite (a : double) : bool := PrimFloat.is_finite a.

Definition Math_abs (a : double) : double := PrimFloat.abs a.

Definition Math_min (a b : double) : double :=
  if PrimFloat.is_nan a || PrimFloat.is_nan b then PrimFloat.nan
  else if (a <=? b)%float then a else b.

Definition Math_max (a b : double) : double :=
  if PrimFloat.is_nan a || PrimFloat.is_nan b then PrimFloat.nan
  else if (a <=? b)%float then b else a.

(** The exact value of a finite double. *)
Definition toQ (a : double) : Q :=
  match FloatOps.Prim2SF a with
  | SpecFloat.S754_finite s m e =>
      let v := (inject_Z (Zpos m) * (if (0 <=? e)%Z then inject_Z (2 ^ e)
                                     else / inject_Z (2 ^ (- e))))%Q in
      if s then (- v)%Q else v
  | _ => 0%Q
  end.

(** Of a slice the nester reads the id and the sides of the bounds; the
    other fields are carried along and are left out here. *)
Record Slice : Type := mkSlice {
  slice_id : double;
  width : double;
  height : double
}.

Record PlacedSlice : Type := mkPlaced {
  ps_slice : Slice;
  ps_x : double;
  ps_y : double;
  rotation : double;
  ps_sheetId : nat
}.

Record Sheet : Type := mkSheet {
  sheet_id : nat;
  sheet_width : double;
  sheet_height : double;
  sheet_items : list PlacedSlice
}.

Record MaterialSettings : Type := mkMaterial {
  mat_width : double;
  mat_length : double;
  mat_thickness : double;
  mat_unit : Unit
}.

Record Rect : Type := mkRect {
  rx : double; ry : double; rwidth : double; rheight : double
}.

Record Bin : Type := mkBin {
  bin_width : double;
  bin_height : double;
  freeRects : list Rect;
  items : list PlacedSlice;
  sheetId : nat
}.

(** [constructor(id, width, height)] *)
Definition new (id : nat) (width height : double) : Bin :=
  mkBin width height [mkRect 0%float 0%float width height] [] id.

(** One turn of the loop of [score]. *)
Definition score_step (w h : double) (st : double * double * option (nat * Rect))
           (ir : nat * Rect) : double * double * option (nat * Rect) :=
  let '(bestScore1, bestScore2, bestRect) := st in
  let rect := snd ir in
  if (w <=? rwidth rect)%float && (h <=? rheight rect)%float then
    let leftoverHoriz := Math_abs (rwidth rect - w)%float in
    let leftoverVert := Math_abs (rheight rect - h)%float in
    let shortSideFit := Math_min leftoverHoriz leftoverVert in
    let longSideFit := Math_max leftoverHoriz leftoverVert in
    if (shortSideFit <? bestScore1)%float
       || ((shortSideFit =? bestScore1)%float && (longSideFit <? bestScore2)%float)
    then (shortSideFit, longSideFit, Some ir)
    else st
  else st.

Definition score (b : Bin) (w h : double)
  : option (double * double * (nat * Rect)) :=
  let '(bestScore1, bestScore2, bestRect) :=
    fold_left (score_step w h) (BinOps.indexed (freeRects b))
              (Number_MAX_VALUE, Number_MAX_VALUE, None) in
  match bestRect with
  | Some ir => Some (bestScore1, bestScore2, ir)
  | None => None
  end.

Definition pushIf (c : bool) (r : Rect) (l : list Rect) : list Rect :=
  if c then l ++ [r] else l.

(** [splitFreeRect(rect, w, h)], with [idx] the position of [rect]. *)
Definition splitFreeRect (b : Bin) (idx : nat) (rect : Rect) (w h : double) : Bin :=
  let free := BinOps.splice1 idx (freeRects b) in
  if (w =? rwidth rect)%float && (h =? rheight rect)%float then
    mkBin (bin_width b) (bin_height b) free (items b) (sheetId b)
  else
    let wRem := (rwidth rect - w)%float in
    let hRem := (rheight rect - h)%float in
    let '(r1, r2) :=
      if (hRem <? wRem)%float then
        (mkRect (rx rect + w)%float (ry rect) wRem (rheight rect),
         mkRect (rx rect) (ry rect + h)%float w hRem)
      else
        (mkRect (rx rect) (ry rect + h)%float (rwidth rect) hRem,
         mkRect (rx rect + w)%float (ry rect) wRem h) in
    let free := pushIf ((0 <? rwidth r1)%float && (0 <? rheight r1)%float) r1 free in
    let free := pushIf ((0 <? rwidth r2)%float && (0 <? rheight r2)%float) r2 free in
    mkBin (bin_width b) (bin_height b) free (items b) (sheetId b).

(** [insert(slice, margin)]: the bin after the call and the returned flag. *)
Definition insert (b : Bin) (slice : Slice) (margin : double) : Bin * bool :=
  let w := (width slice + margin)%float in
  let h := (height slice + margin)%float in
  let normalFit := score b w h in
  let rotatedFit := score b h w in
  let decision :=
    match normalFit, rotatedFit with
    | Some (n1, n2, nr), Some (r1, r2, rr) =>
        if (r1 <? n1)%float || ((r1 =? n1)%float && (r2 <? n2)%float)
        then Some (true, rr) else Some (false, nr)
    | Some (_, _, nr), None => Some (false, nr)
    | None, Some (_, _, rr) => Some (true, rr)
    | None, None => None
    end in
  match decision with
  | None => (b, false)
  | Some (useRotated, (idx, bestRect)) =>
      let placedW := if useRotated then h else w in
      let placedH := if useRotated then w else h in
      let item := mkPlaced slice (rx bestRect) (ry bestRect)
                           (if useRotated then (Math_PI / 2)%float else 0%float)
                           (sheetId b) in
      let b1 := mkBin (bin_width b) (bin_height b) (freeRects b)
                      (items b ++ [item]) (sheetId b) in
      (splitFreeRect b1 idx bestRect placedW placedH, true)
  end.

Definition margin : double := 5%float.

Definition sheetWidth (material : MaterialSettings) : double :=
  (mat_width material
   * match mat_unit material with inch => lit 254 10 | mm => 1 end)%float.

Definition sheetHeight (material : MaterialSettings) : double :=
  (mat_length material
   * match mat_unit material with inch => lit 254 10 | mm => 1 end)%float.

(** Step 2, one turn of [slices.forEach]. *)
Definition preCheck_step (sw sh : double) (st : list Slice * list Slice)
           (slice : Slice) : list Slice * list Slice :=
  let '(oversized, fittableSlices) := st in
  let w := width slice in
  let h := height slice in
  if negb (isFinite w) || negb (isFinite h) || (w <=? 0)%float || (h <=? 0)%float
  then st
  else
    let fitsNormal := (w + margin <=? sw)%float && (h + margin <=? sh)%float in
    let fitsRotated := (h + margin <=? sw)%float && (w + margin <=? sh)%float in
    if negb fitsNormal && negb fitsRotated
    then (oversized ++ [slice], fittableSlices)
    else (oversized, fittableSlices ++ [slice]).

(** Step 3, the comparator handed to [sort]. *)
Definition compareSlices (strategy : Strategy) (a b : Slice) : double :=
  match strategy with
  | sequential => (slice_id a - slice_id b)%float
  | optimized =>
      let areaA := (width a * height a)%float in
      let areaB := (width b * height b)%float in
      (areaB - areaA)%float
  end.

(** The stable sort, as in the exact model. *)
Fixpoint sortInsert (cmp : Slice -> Slice -> double) (x : Slice) (l : list Slice)
  : list Slice :=
  match l with
  | [] => [x]
  | y :: t => if (0 <? cmp y x)%float then x :: y :: t else y :: sortInsert cmp x t
  end.

Definition sort (cmp : Slice -> Slice -> double) (l : list Slice) : list Slice :=
  fold_left (fun acc x => sortInsert cmp x acc) l [].

Fixpoint tryBins (bins : list Bin) (slice : Slice) : option (list Bin) :=
  match bins with
  | [] => None
  | bin :: rest =>
      let '(bin', ok) := insert bin slice margin in
      if ok then Some (bin' :: rest)
      else match tryBins rest slice with
           | Some rest' => Some (bin :: rest')
           | None => None
           end
  end.

Definition pack_step (sw sh : double) (st : list Bin * list Slice) (slice : Slice)
  : list Bin * list Slice :=
  let '(bins, oversized) := st in
  match tryBins bins slice with
  | Some bins' => (bins', oversized)
  | None =>
      let newBin := new (length bins) sw sh in
      let '(newBin', ok) := insert newBin slice margin in
      if ok then (bins ++ [newBin'], oversized)
      else (bins ++ [newBin'], oversized ++ [slice])
  end.

Definition toSheet (bin : Bin) : Sheet :=
  mkSheet (sheetId bin) (bin_width bin) (bin_height bin) (items bin).

Definition nestSlices (slices : list Slice) (material : MaterialSettings)
           (strategy : Strategy) : list Sheet * list Slice :=
  let sw := sheetWidth material in
  let sh := sheetHeight material in
  let '(oversized0, fittableSlices) :=
    fold_left (preCheck_step sw sh) slices ([], []) in
  let sortedSlices := sort (compareSlices strategy) fittableSlices in
  let '(bins, oversized1) :=
    fold_left (pack_step sw sh) sortedSlices ([], oversized0) in
  (map toSheet bins, oversized1).

(** The sides of the footprint of a placed slice, as exact numbers: the
    sides of the bounds plus the margin, swapped when the slice is rotated. *)
Definition placedW (p : PlacedSlice) : Q :=
  if (rotation p =? 0)%float
  then (toQ (width (ps_slice p)) + 5)%Q else (toQ (height (ps_slice p)) + 5)%Q.

Definition placedH (p : PlacedSlice) : Q :=
  if (rotation p =? 0)%float
  then (toQ (height (ps_slice p)) + 5)%Q else (toQ (width (ps_slice p)) + 5)%Q.





End Double.






(* ===================================================================== *)
(** * Properties *)
(* ===================================================================== *)

(** ** Numbers *)

Lemma Qlt_bool_iff (p q : Q) : Qlt_bool p q = true <-> (p < q)%Q.
Proof.
  unfold Qlt_bool. rewrite negb_true_iff.
  split; intro H.
  - apply Qnot_le_lt. intro C. apply Qle_bool_iff in C. congruence.
  - destruct (Qle_bool q p) eqn:E; [|reflexivity].
    apply Qle_bool_iff in E. exfalso. apply (Qlt_not_le _ _ H E).
Qed.

Lemma Qle_bool_false (p q : Q) : Qle_bool p q = false <-> (q < p)%Q.
Proof.
  rewrite <- Qlt_bool_iff. unfold Qlt_bool.
  destruct (Qle_bool p q); simpl; split; congruence.
Qed.

Lemma Qlt_bool_false (p q : Q) : Qlt_bool p q = false <-> (q <= p)%Q.
Proof.
  unfold Qlt_bool. rewrite negb_false_iff. apply Qle_bool_iff.
Qed.

Lemma Qeq_bool_false (p q : Q) : Qeq_bool p q = false <-> ~ (p == q)%Q.
Proof.
  split.
  - apply Qeq_bool_neq.
  - intro H. destruct (Qeq_bool p q) eqn:E; [|reflexivity].
    apply Qeq_bool_iff in E. contradiction.
Qed.

(** Turns boolean tests on rationals into propositions [lra] understands. *)
Ltac qprop :=
  repeat match goal with
  | H : Qle_bool _ _ = true |- _ => apply Qle_bool_iff in H
  | H : Qle_bool _ _ = false |- _ => apply Qle_bool_false in H
  | H : Qlt_bool _ _ = true |- _ => apply Qlt_bool_iff in H
  | H : Qlt_bool _ _ = false |- _ => apply Qlt_bool_false in H
  | H : Qeq_bool _ _ = true |- _ => apply Qeq_bool_iff in H
  | H : Qeq_bool _ _ = false |- _ => apply Qeq_bool_false in H
  | |- Qle_bool _ _ = true => apply Qle_bool_iff
  | |- Qle_bool _ _ = false => apply Qle_bool_false
  | |- Qlt_bool _ _ = true => apply Qlt_bool_iff
  | |- Qlt_bool _ _ = false => apply Qlt_bool_false
  | |- Qeq_bool _ _ = true => apply Qeq_bool_iff
  | |- Qeq_bool _ _ = false => apply Qeq_bool_false
  end.

(** Case analysis on the numbers named, then linear arithmetic. *)
Ltac num_simpl :=
  unfold not, num_le, num_lt, nge, ngt, nsub in *; simpl in *;
  try discriminate; try reflexivity.

Ltac num_solve :=
  num_simpl; intros; try discriminate; try tauto;
  qprop; try lra; try (exfalso; lra).

Lemma num_le_trans (a b c : num) : (a <= b)%num -> (b <= c)%num -> (a <= c)%num.
Proof. destruct a, b, c; num_solve. Qed.


Lemma num_le_lt_trans (a b c : num) : (a <= b)%num -> (b < c)%num -> (a < c)%num.
Proof. destruct a, b, c; num_solve. Qed.


Lemma num_lt_le (a b : num) : (a < b)%num -> (a <= b)%num.
Proof. destruct a, b; num_solve. Qed.


(** ** Lists *)

Lemma indexed_nth (A : Type) (l : list A) (s i : nat) (a : A) :
  In (i, a) (combine (seq s (length l)) l) ->
  (s <= i)%nat /\ nth_error l (i - s) = Some a.
Proof.
  revert s. induction l as [|x l IH]; simpl; intros s H; [contradiction|].
  destruct H as [H|H].
  - inversion H; subst. split; [lia|]. now rewrite Nat.sub_diag.
  - apply IH in H. destruct H as [Hle Hn]. split; [lia|].
    replace (i - s)%nat with (S (i - S s)) by lia. exact Hn.
Qed.

Lemma indexed_In (A : Type) (l : list A) (i : nat) (a : A) :
  In (i, a) (BinOps.indexed l) -> nth_error l i = Some a.
Proof.
  intro H. apply indexed_nth in H. now rewrite Nat.sub_0_r in H.
Qed.

Lemma splice1_In (A : Type) (i : nat) (l : list A) (a : A) :
  In a (BinOps.splice1 i l) -> In a l.
Proof.
  revert i. induction l as [|x l IH]; intros [|i] H; simpl in *; auto.
  destruct H; auto. right. eapply IH; eauto.
Qed.

Lemma FOP_app (A : Type) (P : A -> A -> Prop) (l1 l2 : list A) :
  ForallOrdPairs P l1 -> ForallOrdPairs P l2 ->
  (forall a b, In a l1 -> In b l2 -> P a b) ->
  ForallOrdPairs P (l1 ++ l2).
Proof.
  induction 1 as [|a l Ha Hl IH]; simpl; intros H2 Hc; [exact H2|].
  constructor.
  - apply Forall_app. split; [exact Ha|].
    apply Forall_forall. intros b Hb. apply Hc; simpl; auto.
  - apply IH; [assumption|]. intros x y Hx Hy. apply Hc; simpl; auto.
Qed.

Lemma FOP_splice1 (A : Type) (P : A -> A -> Prop) (i : nat) (l : list A) :
  ForallOrdPairs P l -> ForallOrdPairs P (BinOps.splice1 i l).
Proof.
  intro H. revert i. induction H as [|a l Ha Hl IH]; intros [|i]; simpl;
    try constructor; auto.
  apply Forall_forall. intros b Hb. apply splice1_In in Hb.
  rewrite Forall_forall in Ha. auto.
Qed.

Lemma FOP_splice1_nth (A : Type) (P : A -> A -> Prop) (i : nat) (l : list A) (r : A) :
  (forall a b, P a b -> P b a) ->
  ForallOrdPairs P l -> nth_error l i = Some r ->
  Forall (P r) (BinOps.splice1 i l).
Proof.
  intros Hsym H. revert i. induction H as [|a l Ha Hl IH]; intros [|i] Hn;
    simpl in *; try discriminate.
  - inversion Hn; subst. exact Ha.
  - constructor.
    + apply Hsym. rewrite Forall_forall in Ha. apply Ha.
      eapply nth_error_In; eauto.
    + apply IH; auto.
Qed.


(** ** Rectangles *)

Lemma apart_sym (a b : Rect) : apart a b -> apart b a.
Proof. unfold apart. tauto. Qed.

Lemma apart_within (a b c : Rect) : apart b c -> within a b -> apart a c.
Proof.
  unfold apart, within. intros H (H1 & H2 & H3 & H4).
  destruct H as [H|[H|[H|H]]].
  - left. eapply num_le_trans; eauto.
  - right; left. eapply num_le_trans; eauto.
  - right; right; left. eapply num_le_trans; eauto.
  - right; right; right. eapply num_le_trans; eauto.
Qed.

Lemma inSheet_within (W H : num) (a b : Rect) :
  inSheet W H b -> within a b -> inSheet W H a.
Proof.
  unfold inSheet, within. intros (A1 & A2 & A3 & A4) (H1 & H2 & H3 & H4).
  split; [exact (num_le_trans A1 H1)|].
  split; [exact (num_le_trans A2 H3)|].
  split; [exact (num_le_trans H2 A3)|exact (num_le_trans H4 A4)].
Qed.


(** The geometry of one guillotine cut: the block placed at the origin of
    [R] and the four candidate remainders. *)
Section Cut.

Variables (R : Rect) (w h : num).
Hypothesis Horigin : finiteOrigin R.
Hypothesis Hw : isFinite w = true.
Hypothesis Hh : isFinite h = true.
Hypothesis Hwpos : (Fin 0 < w)%num.
Hypothesis Hhpos : (Fin 0 < h)%num.
Hypothesis Hwfit : (w <= rwidth R)%num.
Hypothesis Hhfit : (h <= rheight R)%num.

Let block := mkRect (rx R) (ry R) w h.
Let rightFull := mkRect (rx R + w)%num (ry R) (rwidth R - w)%num (rheight R).
Let topShort := mkRect (rx R) (ry R + h)%num w (rheight R - h)%num.
Let topFull := mkRect (rx R) (ry R + h)%num (rwidth R) (rheight R - h)%num.
Let rightShort := mkRect (rx R + w)%num (ry R) (rwidth R - w)%num h.

Ltac cut_cases :=
  subst block rightFull topShort topFull rightShort;
  destruct Horigin as [Hx Hy];
  destruct R as [[x| | |] [y| | |] [W| | |] [H| | |]];
  destruct w as [w'| | |]; destruct h as [h'| | |];
  unfold within, apart, finiteOrigin, right, top in *; simpl in *;
  try discriminate.

Lemma cut_block_within : within block R.
Proof using All. cut_cases; repeat split; num_solve. Qed.

Lemma cut_rightFull : within rightFull R /\ apart block rightFull /\ finiteOrigin rightFull.
Proof using All.
  cut_cases; (split; [repeat split; num_solve|split; [left; num_solve|split; reflexivity]]).
Qed.

Lemma cut_topShort : within topShort R /\ apart block topShort /\ finiteOrigin topShort.
Proof using All.
  cut_cases;
    (split; [repeat split; num_solve|split; [right; right; left; num_solve|split; reflexivity]]).
Qed.

Lemma cut_topFull : within topFull R /\ apart block topFull /\ finiteOrigin topFull.
Proof using All.
  cut_cases;
    (split; [repeat split; num_solve|split; [right; right; left; num_solve|split; reflexivity]]).
Qed.

Lemma cut_rightShort : within rightShort R /\ apart block rightShort /\ finiteOrigin rightShort.
Proof using All.
  cut_cases; (split; [repeat split; num_solve|split; [left; num_solve|split; reflexivity]]).
Qed.

Lemma cut_remainders_apart : apart rightFull topShort /\ apart topFull rightShort.
Proof using All.
  cut_cases; (split; [right; left; num_solve|right; right; right; num_solve]).
Qed.

End Cut.

(** ** The bin *)

Lemma score_step_keeps (P : nat * Rect -> Prop) (w h : num)
      (st : num * num * option (nat * Rect)) (ir : nat * Rect) :
  (((rwidth (snd ir) >=? w) && (rheight (snd ir) >=? h))%num = true -> P ir) ->
  (forall x, snd st = Some x -> P x) ->
  forall x, snd (BinOps.score_step w h st ir) = Some x -> P x.
Proof.
  intros Hir Hst x. destruct st as [[s1 s2] best]. unfold BinOps.score_step.
  destruct ((rwidth (snd ir) >=? w) && (rheight (snd ir) >=? h))%num; [|apply Hst].
  match goal with |- context [if ?c then _ else _] => destruct c end;
    [|apply Hst].
  simpl. intro E. inversion E; subst. auto.
Qed.

Lemma score_fold_keeps (P : nat * Rect -> Prop) (w h : num) (l : list (nat * Rect)) :
  forall st,
    (forall ir, In ir l ->
                ((rwidth (snd ir) >=? w) && (rheight (snd ir) >=? h))%num = true -> P ir) ->
    (forall x, snd st = Some x -> P x) ->
    forall x, snd (fold_left (BinOps.score_step w h) l st) = Some x -> P x.
Proof.
  induction l as [|ir l IH]; simpl; intros st Hl Hst; [exact Hst|].
  apply IH.
  - intros; apply Hl; auto.
  - apply score_step_keeps; auto.
Qed.

(** [score] answers with a free rectangle of the bin that is large enough. *)
Lemma score_spec (b : Bin) (w h : num) (f : BinOps.Fit) :
  BinOps.score b w h = Some f ->
  nth_error (freeRects b) (BinOps.fit_idx f) = Some (BinOps.fit_rect f)
  /\ (w <= rwidth (BinOps.fit_rect f))%num
  /\ (h <= rheight (BinOps.fit_rect f))%num.
Proof.
  unfold BinOps.score.
  pose proof (@score_fold_keeps
                (fun ir => nth_error (freeRects b) (fst ir) = Some (snd ir)
                           /\ (w <= rwidth (snd ir))%num
                           /\ (h <= rheight (snd ir))%num)
                w h (BinOps.indexed (freeRects b))
                (Number_MAX_VALUE, Number_MAX_VALUE, None)) as K.
  destruct (fold_left (BinOps.score_step w h) (BinOps.indexed (freeRects b))
                      (Number_MAX_VALUE, Number_MAX_VALUE, None))
    as [[s1 s2] best].
  destruct best as [[i r]|]; [|discriminate].
  intro E. inversion E; subst; simpl.
  apply (K
           ltac:(intros [j q] Hin Hfit; simpl in *;
                 apply andb_true_iff in Hfit; destruct Hfit;
                 split; [now apply indexed_In|split; assumption])
           ltac:(simpl; discriminate)
           (i, r) eq_refl).
Qed.

Lemma splitFreeRect_fields (b : Bin) (idx : nat) (R : Rect) (w h : num) :
  let b' := BinOps.splitFreeRect b idx R w h in
  bin_width b' = bin_width b /\ bin_height b' = bin_height b
  /\ items b' = items b /\ sheetId b' = sheetId b.
Proof.
  unfold BinOps.splitFreeRect.
  destruct ((w === rwidth R) && (h === rheight R))%num; simpl; [auto|].
  destruct (rwidth R - w >? rheight R - h)%num; simpl; auto.
Qed.

(** After the cut the free list is the old one without the chosen rectangle,
    followed by at most two remainders: they lie within the chosen rectangle,
    away from the placed block and from each other. *)
Lemma splitFreeRect_free (b : Bin) (idx : nat) (R : Rect) (w h : num) :
  finiteOrigin R -> isFinite w = true -> isFinite h = true ->
  (Fin 0 < w)%num -> (Fin 0 < h)%num ->
  (w <= rwidth R)%num -> (h <= rheight R)%num ->
  exists extra,
    freeRects (BinOps.splitFreeRect b idx R w h)
    = BinOps.splice1 idx (freeRects b) ++ extra
    /\ Forall (fun r => within r R
                        /\ apart (mkRect (rx R) (ry R) w h) r
                        /\ finiteOrigin r) extra
    /\ ForallOrdPairs apart extra.
Proof.
  intros Ho Hw Hh Hwp Hhp Hwf Hhf.
  pose proof (cut_rightFull Ho Hw Hh Hwp Hhp Hwf Hhf) as A1.
  pose proof (cut_topShort Ho Hw Hh Hwp Hhp Hwf Hhf) as A2.
  pose proof (cut_topFull Ho Hw Hh Hwp Hhp Hwf Hhf) as B1.
  pose proof (cut_rightShort Ho Hw Hh Hwp Hhp Hwf Hhf) as B2.
  destruct (cut_remainders_apart Ho Hw Hh Hwp Hhp Hwf Hhf) as [AA BB].
  unfold BinOps.splitFreeRect.
  destruct ((w === rwidth R) && (h === rheight R))%num; simpl.
  { exists []. rewrite app_nil_r. repeat split; constructor. }
  destruct (rwidth R - w >? rheight R - h)%num; simpl; unfold BinOps.pushIf;
    repeat match goal with
           | |- context [if ?c then _ else _] => destruct c
           end; simpl; rewrite <- ?app_assoc; simpl;
    (eexists; split; [first [symmetry; apply app_nil_r | reflexivity]|]);
    (split;
     repeat first [ apply Forall_nil | apply FOP_nil
                  | apply Forall_cons; [tauto|] | apply FOP_cons ]).
Qed.

Lemma rotation_flag (useRotated : bool) :
  ((if useRotated then (Math_PI / Fin 2)%num else Fin 0) === Fin 0)%num
  = negb useRotated.
Proof. destruct useRotated; reflexivity. Qed.

(** [insert] either leaves the bin as it is and answers [false], or scores
    a free rectangle in one orientation, places the slice at its origin and
    cuts it. *)
Lemma insert_cases (b : Bin) (slice : Slice) (m : num) :
  let w := (b_width (bounds slice) + m)%num in
  let h := (b_height (bounds slice) + m)%num in
  BinOps.insert b slice m = (b, false)
  \/ exists (useRotated : bool) (fit : BinOps.Fit),
      let pw := if useRotated then h else w in
      let ph := if useRotated then w else h in
      let item := mkPlaced slice (rx (BinOps.fit_rect fit)) (ry (BinOps.fit_rect fit))
                           (if useRotated then (Math_PI / Fin 2)%num else Fin 0)
                           (sheetId b) in
      BinOps.score b pw ph = Some fit
      /\ BinOps.insert b slice m
         = (BinOps.splitFreeRect
              (mkBin (bin_width b) (bin_height b) (freeRects b)
                     (items b ++ [item]) (sheetId b))
              (BinOps.fit_idx fit) (BinOps.fit_rect fit) pw ph, true).
Proof.
  intros w h. unfold BinOps.insert. fold w h.
  destruct (BinOps.score b w h) as [n|] eqn:En;
    destruct (BinOps.score b h w) as [r|] eqn:Er; simpl.
  - match goal with |- context [if ?c then _ else _] => destruct c end.
    + right. exists true, r. simpl. auto.
    + right. exists false, n. simpl. auto.
  - right. exists false, n. simpl. auto.
  - right. exists true, r. simpl. auto.
  - left. reflexivity.
Qed.

Lemma validBounds_spec (slice : Slice) :
  validBounds slice = true <->
  exists w h, b_width (bounds slice) = Fin w /\ b_height (bounds slice) = Fin h
              /\ (0 < w)%Q /\ (0 < h)%Q.
Proof.
  unfold validBounds, invalidBounds.
  destruct (b_width (bounds slice)) as [w| | |];
    destruct (b_height (bounds slice)) as [h| | |]; simpl;
    try (split; [discriminate | intros (w0 & h0 & E1 & E2 & _); discriminate]).
  rewrite negb_true_iff, orb_false_iff. split.
  - intros [A B]. exists w, h. repeat split; qprop; assumption.
  - intros (w0 & h0 & E1 & E2 & A & B). inversion E1; inversion E2; subst.
    split; qprop; assumption.
Qed.

(** The margin-inflated sides of a valid slice are finite and positive, in
    either orientation. *)
Lemma placed_sides (slice : Slice) (useRotated : bool) :
  validBounds slice = true ->
  let w := (b_width (bounds slice) + margin)%num in
  let h := (b_height (bounds slice) + margin)%num in
  let pw := if useRotated then h else w in
  let ph := if useRotated then w else h in
  isFinite pw = true /\ isFinite ph = true
  /\ (Fin 0 < pw)%num /\ (Fin 0 < ph)%num.
Proof.
  intro Hv. apply validBounds_spec in Hv.
  destruct Hv as (w & h & Ew & Eh & Hw & Hh). rewrite Ew, Eh.
  destruct useRotated; simpl; repeat split; num_solve.
Qed.

Lemma insert_fields (b : Bin) (slice : Slice) (m : num) :
  let b' := fst (BinOps.insert b slice m) in
  bin_width b' = bin_width b /\ bin_height b' = bin_height b
  /\ sheetId b' = sheetId b.
Proof.
  destruct (insert_cases b slice m) as [E|(rot & fit & _ & E)]; rewrite E; simpl.
  - auto.
  - match goal with
    | |- context [BinOps.splitFreeRect ?b1 ?i ?R ?w ?h] =>
        destruct (splitFreeRect_fields b1 i R w h) as (A & B & _ & D)
    end.
    simpl in *. auto.
Qed.

(** What [insert] does to the item list: nothing when it answers [false],
    one more item carrying the slice when it answers [true]. *)
Lemma insert_items (b : Bin) (slice : Slice) (m : num) :
  match BinOps.insert b slice m with
  | (b', true) =>
      exists p, items b' = items b ++ [p]
                /\ ps_slice p = slice /\ ps_sheetId p = sheetId b
  | (b', false) => b' = b
  end.
Proof.
  destruct (insert_cases b slice m) as [E|(rot & fit & _ & E)]; rewrite E.
  - reflexivity.
  - match goal with
    | |- context [BinOps.splitFreeRect ?b1 ?i ?R ?w ?h] =>
        destruct (splitFreeRect_fields b1 i R w h) as (_ & _ & C & _)
    end.
    simpl in C. eexists. split; [exact C|]. split; reflexivity.
Qed.

(** [insert] keeps the bin invariant. *)
Lemma insert_inv (b : Bin) (slice : Slice) :
  BinInv b -> validBounds slice = true ->
  BinInv (fst (BinOps.insert b slice margin)).
Proof.
  intros Inv Hv.
  destruct (insert_cases b slice margin) as [E|(rot & fit & Hscore & E)];
    rewrite E; cbn [fst]; [exact Inv|]. clear E.
  destruct (placed_sides slice rot Hv) as (Fw & Fh & Pw & Ph).
  apply score_spec in Hscore. destruct Hscore as (Hnth & Hwfit & Hhfit).
  set (R := BinOps.fit_rect fit) in *.
  set (pw := if rot then (b_height (bounds slice) + margin)%num
             else (b_width (bounds slice) + margin)%num) in *.
  set (ph := if rot then (b_width (bounds slice) + margin)%num
             else (b_height (bounds slice) + margin)%num) in *.
  set (item := mkPlaced slice (rx R) (ry R)
                        (if rot then (Math_PI / Fin 2)%num else Fin 0) (sheetId b)).
  assert (HR : In R (freeRects b)) by (eapply nth_error_In; eauto).
  destruct Inv as [Ifree Iitems Iorig Ifa Iia Icross Imeta].
  assert (Ho : finiteOrigin R) by (rewrite Forall_forall in Iorig; auto).
  assert (HRin : inSheet (bin_width b) (bin_height b) R)
    by (rewrite Forall_forall in Ifree; auto).
  assert (Hfp : footprint item = mkRect (rx R) (ry R) pw ph).
  { unfold footprint, placedW, placedH, item; cbn [rotation ps_slice ps_x ps_y].
    rewrite rotation_flag. subst pw ph. destruct rot; reflexivity. }
  pose proof (cut_block_within Ho Fw Fh Pw Ph Hwfit Hhfit) as Hblock.
  rewrite <- Hfp in Hblock.
  match goal with
  | |- BinInv (BinOps.splitFreeRect ?b1 ?i _ _ _) =>
      destruct (splitFreeRect_fields b1 i R pw ph) as (Ew & Eh & Ei & Es);
      destruct (splitFreeRect_free b1 i Ho Fw Fh Pw Ph Hwfit Hhfit)
        as (extra & Efree & Hextra & Hea)
  end.
  rewrite <- Hfp in Hextra.
  cbn [bin_width bin_height items freeRects sheetId] in Ew, Eh, Ei, Es, Efree.
  assert (Hrest : Forall (apart R) (BinOps.splice1 (BinOps.fit_idx fit) (freeRects b)))
    by (eapply FOP_splice1_nth; eauto using apart_sym).
  rewrite Forall_forall in Hrest, Hextra, Ifree, Iorig, Icross, Iitems.
  constructor; rewrite ?Ew, ?Eh, ?Ei, ?Es, ?Efree, ?map_app; cbn [map].
  - apply Forall_forall. intros r Hr. apply in_app_or in Hr. destruct Hr as [Hr|Hr].
    + apply Ifree. eapply splice1_In; eauto.
    + eapply inSheet_within; [exact HRin|]. apply Hextra; auto.
  - apply Forall_app. split; [apply Forall_forall; auto|].
    constructor; [|constructor]. eapply inSheet_within; eauto.
  - apply Forall_forall. intros r Hr. apply in_app_or in Hr. destruct Hr as [Hr|Hr].
    + apply Iorig. eapply splice1_In; eauto.
    + apply Hextra; auto.
  - apply FOP_app; [now apply FOP_splice1|exact Hea|].
    intros a c Ha Hc. apply apart_sym.
    eapply apart_within; [apply Hrest; exact Ha|]. apply Hextra; auto.
  - apply FOP_app; [exact Iia|repeat constructor|].
    intros a c Ha [Hc|[]]. subst c. apply apart_sym.
    eapply apart_within; [|exact Hblock]. apply apart_sym.
    specialize (Icross a Ha). rewrite Forall_forall in Icross. auto.
  - apply Forall_app. split.
    + apply Forall_forall. intros a Ha. apply Forall_forall. intros r Hr.
      specialize (Icross a Ha). rewrite Forall_forall in Icross.
      apply in_app_or in Hr. destruct Hr as [Hr|Hr].
      * apply Icross. eapply splice1_In; eauto.
      * apply apart_sym. eapply apart_within; [|apply Hextra; exact Hr].
        apply apart_sym. auto.
    + constructor; [|constructor]. apply Forall_forall. intros r Hr.
      apply in_app_or in Hr. destruct Hr as [Hr|Hr].
      * eapply apart_within; [apply Hrest; exact Hr|exact Hblock].
      * apply Hextra; auto.
  - apply Forall_app. split; [exact Imeta|].
    constructor; [|constructor]. subst item. cbn [rotation ps_sheetId ps_slice].
    split; [destruct rot; auto|]. split; [reflexivity|exact Hv].
Qed.

(** ** The driver *)

Lemma preCheck_fold (sw sh : num) (l : list Slice) :
  forall o f,
    fold_left (preCheck_step sw sh) l (o, f)
    = (o ++ filter (isOversized sw sh) l, f ++ filter (isFittable sw sh) l).
Proof.
  induction l as [|s l IH]; intros o f; simpl.
  - now rewrite !app_nil_r.
  - unfold isOversized, isFittable, validBounds.
    destruct (invalidBounds s); simpl; [apply IH|].
    destruct (fitsNormal sw sh s), (fitsRotated sw sh s); simpl;
      rewrite IH, <- ?app_assoc; reflexivity.
Qed.

Lemma preCheck_spec (sw sh : num) (slices : list Slice) :
  preCheck sw sh slices
  = (filter (isOversized sw sh) slices, filter (isFittable sw sh) slices).
Proof. unfold preCheck. now rewrite preCheck_fold. Qed.

Lemma sortInsert_perm (A : Type) (cmp : A -> A -> num) (x : A) (l : list A) :
  Permutation (sortInsert cmp x l) (x :: l).
Proof.
  induction l as [|y l IH]; simpl; [reflexivity|].
  match goal with |- context [if ?c then _ else _] => destruct c end;
    [reflexivity|].
  rewrite IH. apply perm_swap.
Qed.

Lemma sort_fold_perm (A : Type) (cmp : A -> A -> num) (l : list A) :
  forall acc,
    Permutation (fold_left (fun acc x => sortInsert cmp x acc) l acc) (acc ++ l).
Proof.
  induction l as [|x l IH]; intro acc; simpl.
  - now rewrite app_nil_r.
  - rewrite IH, sortInsert_perm. apply Permutation_middle.
Qed.

(** Sorting rearranges and nothing else. *)
Lemma sort_perm (A : Type) (cmp : A -> A -> num) (l : list A) :
  Permutation (sort cmp l) l.
Proof. unfold sort. apply (sort_fold_perm cmp l []). Qed.

Lemma new_bin_ok (i : nat) (sw sh : num) (slice : Slice) :
  isFittable sw sh slice = true -> BinOK sw sh (BinOps.new i sw sh).
Proof.
  intro Hf. unfold isFittable in Hf. apply andb_true_iff in Hf.
  destruct Hf as [Hv Hf]. apply validBounds_spec in Hv.
  destruct Hv as (w & h & Ew & Eh & _). unfold fitsNormal, fitsRotated in Hf.
  rewrite Ew, Eh in Hf.
  assert (Hsw : sw <> NaN) by (intro; subst; simpl in Hf; discriminate).
  assert (Hsh : sh <> NaN)
    by (intro; subst; simpl in Hf; rewrite !andb_false_r in Hf; discriminate).
  split; [|split; reflexivity].
  constructor; simpl; repeat constructor;
    destruct sw, sh; try congruence; unfold right, top; num_solve.
Qed.

Lemma placedOn_app (l1 l2 : list Bin) :
  placedOn (l1 ++ l2) = placedOn l1 ++ placedOn l2.
Proof. unfold placedOn. apply flat_map_app. Qed.

(** A bin that accepts the slice gains exactly that slice. *)
Lemma tryBins_spec (sw sh : num) (bins : list Bin) (slice : Slice) :
  forall bins',
    tryBins bins slice = Some bins' ->
    Permutation (placedOn bins') (slice :: placedOn bins)
    /\ length bins' = length bins
    /\ (validBounds slice = true ->
        Forall (BinOK sw sh) bins -> Forall (BinOK sw sh) bins').
Proof.
  induction bins as [|b rest IH]; simpl; intros bins' H; [discriminate|].
  pose proof (insert_items b slice margin) as Hitems.
  pose proof (@insert_inv b slice) as Hinv.
  pose proof (insert_fields b slice margin) as Hfields.
  destruct (BinOps.insert b slice margin) as [b' [|]]; simpl in *.
  - inversion H; subst; clear H.
    destruct Hitems as (p & Ei & Es & _).
    split; [|split; [reflexivity|]].
    + simpl. rewrite Ei, map_app, <- app_assoc. simpl. rewrite Es.
      symmetry. apply Permutation_middle.
    + intros Hv Hall. inversion Hall as [|? ? [Hb [Hw Hh]] Hrest]; subst.
      constructor; [|assumption].
      destruct Hfields as (Fw & Fh & _). split; [auto|]. split; congruence.
  - destruct (tryBins rest slice) as [rest'|]; [|discriminate].
    inversion H; subst; clear H.
    destruct (IH rest' eq_refl) as (Hp & Hl & Hok).
    split; [|split].
    + simpl. rewrite Hp. symmetry. apply Permutation_middle.
    + simpl. congruence.
    + intros Hv Hall. inversion Hall; subst. constructor; auto.
Qed.

(** One turn of the packing loop: the slice ends on a sheet or at the end of
    the oversized list. *)
Lemma pack_step_spec (sw sh : num) (bins : list Bin) (ov : list Slice) (slice : Slice) :
  forall bins' ov',
    pack_step sw sh (bins, ov) slice = (bins', ov') ->
    ((Permutation (placedOn bins') (slice :: placedOn bins) /\ ov' = ov)
     \/ (placedOn bins' = placedOn bins /\ ov' = ov ++ [slice]))
    /\ (isFittable sw sh slice = true ->
        Forall (BinOK sw sh) bins -> Forall (BinOK sw sh) bins').
Proof.
  intros bins' ov'. unfold pack_step.
  pose proof (@tryBins_spec sw sh bins slice) as Htry.
  destruct (tryBins bins slice) as [bins1|].
  - intro H; inversion H; subst; clear H.
    destruct (Htry bins' eq_refl) as (Hp & _ & Hok).
    split; [left; auto|]. intros Hf. apply Hok.
    unfold isFittable in Hf. apply andb_true_iff in Hf. tauto.
  - clear Htry.
    pose proof (insert_items (BinOps.new (length bins) sw sh) slice margin) as Hitems.
    pose proof (@insert_inv (BinOps.new (length bins) sw sh) slice) as Hinv.
    pose proof (insert_fields (BinOps.new (length bins) sw sh) slice margin) as Hfields.
    destruct (BinOps.insert (BinOps.new (length bins) sw sh) slice margin)
      as [nb [|]]; simpl in *; intro H; inversion H; subst; clear H.
    + destruct Hitems as (p & Ei & Es & _). split.
      * left. split; [|reflexivity].
        rewrite placedOn_app. simpl. rewrite Ei, app_nil_r. simpl. rewrite Es.
        symmetry. apply Permutation_cons_append.
      * intros Hf Hall. apply Forall_app. split; [assumption|].
        constructor; [|constructor].
        destruct (@new_bin_ok (length bins) sw sh slice Hf) as (Hb & _ & _).
        destruct Hfields as (Fw & Fh & _).
        unfold isFittable in Hf. apply andb_true_iff in Hf.
        split; [apply Hinv; tauto|]. split; assumption.
    + split.
      * right. split; [|reflexivity].
        rewrite placedOn_app. simpl. now rewrite app_nil_r.
      * intros Hf Hall. apply Forall_app. split; [assumption|].
        constructor; [|constructor]. eapply new_bin_ok; eauto.
Qed.

(** The packing loop as a whole. *)
Lemma pack_fold_spec (sw sh : num) (l : list Slice) :
  forall bins ov bins' ov',
    fold_left (pack_step sw sh) l (bins, ov) = (bins', ov') ->
    (exists placedNew failed,
        Permutation (placedNew ++ failed) l
        /\ Permutation (placedOn bins') (placedOn bins ++ placedNew)
        /\ ov' = ov ++ failed)
    /\ (Forall (fun s => isFittable sw sh s = true) l ->
        Forall (BinOK sw sh) bins -> Forall (BinOK sw sh) bins').
Proof.
  induction l as [|s l IH]; cbn [fold_left]; intros bins ov bins' ov' H.
  - inversion H; subst. split; [|auto].
    exists [], []. simpl. rewrite !app_nil_r. auto.
  - destruct (pack_step sw sh (bins, ov) s) as [bins1 ov1] eqn:E.
    destruct (pack_step_spec _ _ _ _ _ E) as (Hstep & Hok1).
    destruct (IH _ _ _ _ H) as ((pn & fl & Hp & Hpl & Hov) & Hok).
    split.
    + destruct Hstep as [[Hp1 Eo]|[Ep1 Eo]]; subst ov1.
      * exists (s :: pn), fl. simpl. split; [now constructor|]. split; [|assumption].
        rewrite Hpl, Hp1. simpl. apply Permutation_middle.
      * exists pn, (s :: fl). split; [|split].
        -- rewrite <- Hp. symmetry. apply Permutation_middle.
        -- now rewrite Hpl, Ep1.
        -- rewrite Hov, <- app_assoc. reflexivity.
    + intros Hall Hb. inversion Hall; subst. auto.
Qed.

Lemma placedSlices_toSheet (bins : list Bin) (ov : list Slice) :
  placedSlices (mkNestResult (map toSheet bins) ov) = placedOn bins.
Proof.
  unfold placedSlices, placedOn. simpl.
  induction bins as [|b bins IH]; simpl; [reflexivity|]. now rewrite IH.
Qed.

(** [nestSlices] in one statement: the bins it builds satisfy the invariant,
    the oversized list is the pre-check's followed by the slices that failed
    in a fresh bin, and the fittable slices are split between the sheets and
    those failures. *)
Lemma nestSlices_spec (slices : list Slice) (material : MaterialSettings)
      (strategy : Strategy) :
  let sw := sheetWidth material in
  let sh := sheetHeight material in
  let r := nestSlices slices material strategy in
  exists bins placedNew failed,
    sheets r = map toSheet bins
    /\ Forall (BinOK sw sh) bins
    /\ oversized r = filter (isOversized sw sh) slices ++ failed
    /\ Permutation (placedNew ++ failed) (filter (isFittable sw sh) slices)
    /\ Permutation (placedSlices r) placedNew.
Proof.
  intros sw sh r. subst r. unfold nestSlices. fold sw sh.
  rewrite preCheck_spec.
  destruct (fold_left (pack_step sw sh)
                      (sort (compareSlices strategy) (filter (isFittable sw sh) slices))
                      ([], filter (isOversized sw sh) slices)) as [bins ov] eqn:E.
  destruct (@pack_fold_spec _ _ _ _ _ _ _ E) as ((pn & fl & Hp & Hpl & Hov) & Hok).
  exists bins, pn, fl. simpl.
  split; [reflexivity|]. split; [|split; [assumption|split]].
  - apply Hok; [|constructor].
    apply Forall_forall. intros s Hs.
    apply (Permutation_in _ (sort_perm _ _)) in Hs.
    apply filter_In in Hs. tauto.
  - rewrite Hp. apply sort_perm.
  - rewrite placedSlices_toSheet. exact Hpl.
Qed.

Lemma sheet_bin (slices : list Slice) (material : MaterialSettings)
      (strategy : Strategy) (sheet : Sheet) :
  In sheet (sheets (nestSlices slices material strategy)) ->
  exists b, sheet = toSheet b
            /\ BinOK (sheetWidth material) (sheetHeight material) b.
Proof.
  destruct (nestSlices_spec slices material strategy)
    as (bins & pn & fl & Es & Hok & _).
  rewrite Es. intro H. apply in_map_iff in H. destruct H as (b & Eb & Hb).
  exists b. split; [congruence|]. rewrite Forall_forall in Hok. auto.
Qed.


(** ** The claims about nesting *)















Lemma filter_split_perm (A : Type) (f g h : A -> bool) (l : list A) :
  (forall x, f x = g x || h x) -> (forall x, g x && h x = false) ->
  Permutation (filter f l) (filter g l ++ filter h l).
Proof.
  intros Hf Hgh. induction l as [|x l IH]; simpl; [reflexivity|].
  rewrite Hf. specialize (Hgh x).
  destruct (g x), (h x); simpl in *; try discriminate.
  - now constructor.
  - rewrite IH. apply Permutation_middle.
  - exact IH.
Qed.

Lemma valid_classes (sw sh : num) (slices : list Slice) :
  Permutation (filter validBounds slices)
              (filter (isOversized sw sh) slices ++ filter (isFittable sw sh) slices).
Proof.
  apply filter_split_perm; intro s; unfold isOversized, isFittable;
    destruct (validBounds s), (fitsNormal sw sh s), (fitsRotated sw sh s);
    reflexivity.
Qed.

(** C9.  The slices that pass the pre-check are conserved: taken with
    multiplicity, they are exactly the slices placed on the sheets together
    with the oversized list, so each of them is on exactly one sheet or in
    the oversized list, and none is duplicated or lost. *)
Theorem nestSlices_conserves_valid_slices
        (slices : list Slice) (material : MaterialSettings) (strategy : Strategy) :
  let r := nestSlices slices material strategy in
  Permutation (filter validBounds slices) (placedSlices r ++ oversized r).
Proof.
  intro r. subst r.
  destruct (nestSlices_spec slices material strategy)
    as (bins & pn & fl & _ & _ & Eo & Hp & Hpl).
  rewrite Eo, Hpl, (valid_classes (sheetWidth material) (sheetHeight material)).
  rewrite <- Hp.
  rewrite !app_assoc. apply Permutation_app_tail. apply Permutation_app_comm.
Qed.


Lemma isFittable_spec (sw sh : num) (s : Slice) :
  isFittable sw sh s = true <->
  invalidBounds s = false /\ (fitsNormal sw sh s = true \/ fitsRotated sw sh s = true).
Proof.
  unfold isFittable, validBounds.
  destruct (invalidBounds s), (fitsNormal sw sh s), (fitsRotated sw sh s);
    simpl; intuition congruence.
Qed.

(** ** Fresh bins *)

(** On a sheet with finite sides a fresh bin scores every block that fits
    it: the leftovers stay below [Number.MAX_VALUE]. *)
Lemma score_fresh (i : nat) (a b w h : Q) :
  (0 < w)%Q -> (0 < h)%Q -> (w <= a)%Q -> (h <= b)%Q ->
  (a <= MAX_VALUE)%Q -> (b <= MAX_VALUE)%Q ->
  BinOps.score (BinOps.new i (Fin a) (Fin b)) (Fin w) (Fin h) <> None.
Proof.
  unfold BinOps.score, Number_MAX_VALUE. generalize MAX_VALUE as M.
  intros M Hw Hh Hwa Hhb Ha Hb.
  unfold BinOps.new, BinOps.indexed. cbn [freeRects length seq combine fold_left].
  unfold BinOps.score_step. cbn [snd rwidth rheight fst].
  assert (F1 : (Fin a >=? Fin w)%num = true) by num_solve.
  assert (F2 : (Fin b >=? Fin h)%num = true) by num_solve.
  rewrite F1, F2. cbn [andb].
  assert (S1 : (Math_min (Math_abs (Fin a - Fin w)) (Math_abs (Fin b - Fin h))
                <? Fin M)%num = true).
  { unfold nsub. cbn [nneg nadd Math_abs Math_min nle].
    destruct (Qle_bool (Qabs (a + - w)) (Qabs (b + - h))); cbn [nlt]; qprop;
      rewrite Qabs_pos by lra; lra. }
  rewrite S1. cbn [orb]. discriminate.
Qed.

Lemma insert_fresh (i : nat) (sw sh : num) (slice : Slice) :
  isFinite sw = true -> isFinite sh = true ->
  (sw <= Number_MAX_VALUE)%num -> (sh <= Number_MAX_VALUE)%num ->
  isFittable sw sh slice = true ->
  snd (BinOps.insert (BinOps.new i sw sh) slice margin) = true.
Proof.
  intros Fw Fh Mw Mh Hf.
  destruct sw as [a| | |], sh as [b| | |]; try discriminate.
  apply isFittable_spec in Hf. destruct Hf as [Hv Hfit].
  assert (Hv' : validBounds slice = true) by (unfold validBounds; now rewrite Hv).
  apply validBounds_spec in Hv'. destruct Hv' as (w & h & Ew & Eh & Hw & Hh).
  unfold fitsNormal, fitsRotated in Hfit. rewrite Ew, Eh in Hfit.
  unfold Number_MAX_VALUE in Mw, Mh.
  unfold BinOps.insert. rewrite Ew, Eh. unfold margin in *. cbn [nadd] in *.
  destruct Hfit as [Hfit|Hfit]; apply andb_true_iff in Hfit; destruct Hfit as [A B].
  - pose proof (@score_fresh i a b (w + 5) (h + 5)) as K.
    destruct (BinOps.score (BinOps.new i (Fin a) (Fin b)) (Fin (w + 5)) (Fin (h + 5)))
      as [n|]; [|exfalso; apply K; num_solve].
    destruct (BinOps.score (BinOps.new i (Fin a) (Fin b)) (Fin (h + 5)) (Fin (w + 5)))
      as [r|]; cbn [BinOps.decide];
      try match goal with |- context [if ?c then _ else _] => destruct c end;
      reflexivity.
  - pose proof (@score_fresh i a b (h + 5) (w + 5)) as K.
    destruct (BinOps.score (BinOps.new i (Fin a) (Fin b)) (Fin (h + 5)) (Fin (w + 5)))
      as [r|]; [|exfalso; apply K; num_solve].
    destruct (BinOps.score (BinOps.new i (Fin a) (Fin b)) (Fin (w + 5)) (Fin (h + 5)))
      as [n|]; cbn [BinOps.decide];
      try match goal with |- context [if ?c then _ else _] => destruct c end;
      reflexivity.
Qed.



(** The path of the "Logic Error" branch is live: on a sheet without bounds
    a slice that fits is turned away by the fresh bin, which stays empty,
    and lands in the oversized output. *)
Lemma fittable_slice_turned_away_by_fresh_bin :
  let slice := flatSlice 1 10 10 in
  isFittable (sheetWidth boundlessSheet) (sheetHeight boundlessSheet) slice = true
  /\ map sheet_items (sheets (nestSlices [slice] boundlessSheet optimized)) = [[]]
  /\ oversized (nestSlices [slice] boundlessSheet optimized) = [slice].
Proof. vm_compute. repeat split; reflexivity. Qed.



(** *** The layout depends on ids and sides only *)

Lemma Forall2_filter (A : Type) (R : A -> A -> Prop) (f : A -> bool) (l1 l2 : list A) :
  (forall a b, R a b -> f a = f b) ->
  Forall2 R l1 l2 -> Forall2 R (filter f l1) (filter f l2).
Proof.
  intros Hf. induction 1 as [|a b l1 l2 Hab Hl IH]; simpl; [constructor|].
  rewrite (Hf a b Hab). destruct (f b); [constructor|]; assumption.
Qed.

Lemma sortInsert_same (A : Type) (R : A -> A -> Prop) (cmp : A -> A -> num) :
  (forall a a' b b', R a a' -> R b b' -> cmp a b = cmp a' b') ->
  forall x x' l l', R x x' -> Forall2 R l l' ->
                    Forall2 R (sortInsert cmp x l) (sortInsert cmp x' l').
Proof.
  intros Hc x x' l l' Hx. induction 1 as [|y y' l l' Hy Hl IH]; cbn [sortInsert].
  - repeat constructor. assumption.
  - rewrite (Hc y y' x x' Hy Hx).
    destruct (cmp y' x' >? Fin 0)%num; repeat constructor; assumption.
Qed.

Lemma sort_same (A : Type) (R : A -> A -> Prop) (cmp : A -> A -> num) :
  (forall a a' b b', R a a' -> R b b' -> cmp a b = cmp a' b') ->
  forall l l', Forall2 R l l' -> Forall2 R (sort cmp l) (sort cmp l').
Proof.
  intros Hc l l' H. unfold sort.
  assert (G : forall acc acc', Forall2 R acc acc' ->
                Forall2 R (fold_left (fun acc x => sortInsert cmp x acc) l acc)
                        (fold_left (fun acc x => sortInsert cmp x acc) l' acc')).
  { induction H as [|x x' l l' Hx Hl IH]; intros acc acc' Hacc; cbn [fold_left];
      [assumption|]. apply IH. now apply sortInsert_same. }
  apply G. constructor.
Qed.

Lemma sameSides_tests (sw sh : num) (s t : Slice) :
  sameSides s t ->
  isOversized sw sh s = isOversized sw sh t
  /\ isFittable sw sh s = isFittable sw sh t.
Proof.
  intros (_ & Ew & Eh).
  unfold isOversized, isFittable, validBounds, invalidBounds, fitsNormal, fitsRotated.
  rewrite Ew, Eh. split; reflexivity.
Qed.

Lemma compareSlices_same (strategy : Strategy) (a a' b b' : Slice) :
  sameSides a a' -> sameSides b b' ->
  compareSlices strategy a b = compareSlices strategy a' b'.
Proof.
  intros (Ai & Aw & Ah) (Bi & Bw & Bh). unfold compareSlices.
  rewrite Ai, Aw, Ah, Bi, Bw, Bh. reflexivity.
Qed.

Lemma insert_same (b c : Bin) (s t : Slice) (m : num) :
  sameBin b c -> sameSides s t ->
  snd (BinOps.insert b s m) = snd (BinOps.insert c t m)
  /\ sameBin (fst (BinOps.insert b s m)) (fst (BinOps.insert c t m)).
Proof.
  intros (Ew & Eh & Ef & Ei & Hitems) Hst.
  pose proof Hst as (_ & Sw & Sh).
  unfold BinOps.insert, BinOps.score. rewrite Sw, Sh, Ef.
  destruct (BinOps.decide _ _) as [[rot fit]|]; cbn [fst snd].
  2:{ split; [reflexivity|]. repeat split; assumption. }
  split; [reflexivity|].
  unfold BinOps.splitFreeRect. cbn [freeRects bin_width bin_height items sheetId].
  rewrite ?Ef, ?Ew, ?Eh, ?Ei.
  assert (Hnew : Forall2 samePlacement
                   (items b ++ [mkPlaced s (rx (BinOps.fit_rect fit)) (ry (BinOps.fit_rect fit))
                                         (if rot then (Math_PI / Fin 2)%num else Fin 0)
                                         (sheetId c)])
                   (items c ++ [mkPlaced t (rx (BinOps.fit_rect fit)) (ry (BinOps.fit_rect fit))
                                         (if rot then (Math_PI / Fin 2)%num else Fin 0)
                                         (sheetId c)])).
  { apply Forall2_app; [assumption|]. constructor; [|constructor].
    unfold samePlacement. cbn. auto. }
  repeat match goal with |- context [if ?x then _ else _] => destruct x end;
    repeat split; try reflexivity; exact Hnew.
Qed.

Lemma tryBins_same (bins cins : list Bin) (s t : Slice) :
  Forall2 sameBin bins cins -> sameSides s t ->
  match tryBins bins s, tryBins cins t with
  | Some bins', Some cins' => Forall2 sameBin bins' cins'
  | None, None => True
  | _, _ => False
  end.
Proof.
  intros H Hst. induction H as [|b c bins cins Hbc Hrest IH]; cbn [tryBins]; [exact I|].
  destruct (insert_same margin Hbc Hst) as [Eok Hsame].
  destruct (BinOps.insert b s margin) as [b' ok].
  destruct (BinOps.insert c t margin) as [c' ok'].
  cbn [fst snd] in *. subst ok'. destruct ok.
  - constructor; assumption.
  - destruct (tryBins bins s), (tryBins cins t); try contradiction; [|exact I].
    constructor; assumption.
Qed.

Lemma pack_step_same (sw sh : num) (bins cins : list Bin) (ov ov' : list Slice)
      (s t : Slice) :
  Forall2 sameBin bins cins -> Forall2 sameSides ov ov' -> sameSides s t ->
  Forall2 sameBin (fst (pack_step sw sh (bins, ov) s))
          (fst (pack_step sw sh (cins, ov') t))
  /\ Forall2 sameSides (snd (pack_step sw sh (bins, ov) s))
             (snd (pack_step sw sh (cins, ov') t)).
Proof.
  intros Hb Hov Hst. unfold pack_step.
  pose proof (tryBins_same Hb Hst) as Htry.
  destruct (tryBins bins s), (tryBins cins t); try contradiction.
  - split; assumption.
  - assert (Hnew : sameBin (BinOps.new (length bins) sw sh)
                           (BinOps.new (length cins) sw sh)).
    { rewrite (Forall2_length Hb). repeat split. constructor. }
    destruct (insert_same margin Hnew Hst) as [Eok Hsame].
    destruct (BinOps.insert (BinOps.new (length bins) sw sh) s margin) as [b' ok].
    destruct (BinOps.insert (BinOps.new (length cins) sw sh) t margin) as [c' ok'].
    cbn [fst snd] in *. subst ok'.
    assert (Hbins : Forall2 sameBin (bins ++ [b']) (cins ++ [c']))
      by (apply Forall2_app; [assumption|constructor; [assumption|constructor]]).
    destruct ok; cbn [fst snd]; split; try assumption.
    apply Forall2_app; [assumption|constructor; [assumption|constructor]].
Qed.

Lemma pack_fold_same (sw sh : num) (l l' : list Slice) :
  Forall2 sameSides l l' ->
  forall bins cins ov ov',
    Forall2 sameBin bins cins -> Forall2 sameSides ov ov' ->
    Forall2 sameBin (fst (fold_left (pack_step sw sh) l (bins, ov)))
            (fst (fold_left (pack_step sw sh) l' (cins, ov')))
    /\ Forall2 sameSides (snd (fold_left (pack_step sw sh) l (bins, ov)))
               (snd (fold_left (pack_step sw sh) l' (cins, ov'))).
Proof.
  induction 1 as [|s t l l' Hst Hl IH]; intros bins cins ov ov' Hb Hov;
    cbn [fold_left]; [split; assumption|].
  destruct (pack_step_same sw sh Hb Hov Hst) as [H1 H2].
  destruct (pack_step sw sh (bins, ov) s) as [bins1 ov1].
  destruct (pack_step sw sh (cins, ov') t) as [cins1 ov1'].
  apply IH; assumption.
Qed.

(** Two slice lists that agree, position by position, on ids and sides are
    laid out alike: same sheets, same positions and rotations, and
    oversized lists that agree in the same way. *)
Lemma layout_depends_on_sides_only
      (slices1 slices2 : list Slice) (material : MaterialSettings) (strategy : Strategy) :
  Forall2 sameSides slices1 slices2 ->
  Forall2 sameSheet (sheets (nestSlices slices1 material strategy))
          (sheets (nestSlices slices2 material strategy))
  /\ Forall2 sameSides (oversized (nestSlices slices1 material strategy))
             (oversized (nestSlices slices2 material strategy)).
Proof.
  intro H. unfold nestSlices. rewrite !preCheck_spec.
  set (sw := sheetWidth material). set (sh := sheetHeight material).
  assert (Ho : Forall2 sameSides (filter (isOversized sw sh) slices1)
                       (filter (isOversized sw sh) slices2))
    by (apply Forall2_filter; [intros a b Hab; apply (sameSides_tests sw sh Hab)|assumption]).
  assert (Hf : Forall2 sameSides
                       (sort (compareSlices strategy) (filter (isFittable sw sh) slices1))
                       (sort (compareSlices strategy) (filter (isFittable sw sh) slices2))).
  { apply sort_same; [intros; now apply compareSlices_same|].
    apply Forall2_filter; [intros a b Hab; apply (sameSides_tests sw sh Hab)|assumption]. }
  destruct (@pack_fold_same sw sh _ _ Hf [] [] _ _ (Forall2_nil _) Ho) as [Hb Hov].
  destruct (fold_left (pack_step sw sh) _ ([], filter (isOversized sw sh) slices1))
    as [bins1 ov1].
  destruct (fold_left (pack_step sw sh) _ ([], filter (isOversized sw sh) slices2))
    as [bins2 ov2].
  cbn [fst snd sheets oversized] in *. split; [|assumption].
  clear - Hb. induction Hb as [|b c bs cs (Ew & Eh & _ & Ei & Hi) Hrest IH];
    cbn [map]; constructor; [|assumption].
  unfold sameSheet, toSheet. cbn. auto.
Qed.

(** ** Stable sorting *)

Section StableSort.

Variable A : Type.
Variable cmp : A -> A -> num.
Variable key : A -> Q.
Variable l : list A.

(** On the elements of [l] the comparator is the difference of two keys. *)
Hypothesis cmp_key :
  forall a b, In a l -> In b l -> exists d, cmp a b = Fin d /\ (d == key b - key a)%Q.

Lemma cmp_le (a b : A) :
  In a l -> In b l -> ((cmp a b <=? Fin 0)%num = true <-> (key b <= key a)%Q).
Proof.
  intros Ha Hb. destruct (cmp_key a b Ha Hb) as (d & -> & Hd). cbn [nle].
  rewrite Qle_bool_iff, Hd. split; intro H; lra.
Qed.

Lemma cmp_gt (a b : A) :
  In a l -> In b l -> ((cmp a b >? Fin 0)%num = true <-> (key a < key b)%Q).
Proof.
  intros Ha Hb. destruct (cmp_key a b Ha Hb) as (d & -> & Hd). unfold ngt. cbn [nlt].
  rewrite Qlt_bool_iff, Hd. split; intro H; lra.
Qed.

Lemma cmp_eq (a b : A) :
  In a l -> In b l -> ((cmp a b === Fin 0)%num = true <-> (key a == key b)%Q).
Proof.
  intros Ha Hb. destruct (cmp_key a b Ha Hb) as (d & -> & Hd). cbn [neq].
  rewrite Qeq_bool_iff, Hd. split; intro H; lra.
Qed.

Lemma filter_none (f : A -> bool) (t : list A) :
  (forall y, In y t -> f y = false) -> filter f t = [].
Proof.
  induction t as [|y t IH]; intros H; [reflexivity|].
  cbn [filter]. rewrite (H y (or_introl eq_refl)). apply IH.
  intros z Hz. apply H. right. exact Hz.
Qed.

(** A stable sorted arrangement of a list is unique. *)
Lemma stable_sorted_unique :
  forall l1 l2,
    incl l1 l -> incl l2 l ->
    StronglySorted (fun a b => (cmp a b <=? Fin 0)%num = true) l1 ->
    StronglySorted (fun a b => (cmp a b <=? Fin 0)%num = true) l2 ->
    (forall x, In x l ->
               filter (fun y => (cmp x y === Fin 0)%num) l1
               = filter (fun y => (cmp x y === Fin 0)%num) l2) ->
    l1 = l2.
Proof.
  induction l1 as [|a t1 IH]; intros l2 I1 I2 S1 S2 F.
  - destruct l2 as [|b t2]; [reflexivity|].
    assert (Hb : In b l) by (apply I2; left; reflexivity).
    specialize (F b Hb). cbn [filter] in F.
    rewrite (proj2 (cmp_eq _ _ Hb Hb) (Qeq_refl _)) in F. discriminate.
  - assert (Ha : In a l) by (apply I1; left; reflexivity).
    destruct l2 as [|b t2].
    { specialize (F a Ha). cbn [filter] in F.
      rewrite (proj2 (cmp_eq _ _ Ha Ha) (Qeq_refl _)) in F. discriminate. }
    assert (Hb : In b l) by (apply I2; left; reflexivity).
    apply StronglySorted_inv in S1. destruct S1 as [S1 R1].
    apply StronglySorted_inv in S2. destruct S2 as [S2 R2].
    rewrite Forall_forall in R1, R2.
    assert (Kab : (key a <= key b)%Q).
    { pose proof (F a Ha) as Fa. cbn [filter] in Fa.
      rewrite (proj2 (cmp_eq _ _ Ha Ha) (Qeq_refl _)) in Fa.
      assert (Hin : In a (b :: t2)).
      { assert (H : In a (filter (fun y => (cmp a y === Fin 0)%num) (b :: t2))).
        { cbn [filter]. rewrite <- Fa. left. reflexivity. }
        apply filter_In in H. apply H. }
      destruct Hin as [<-|Hin]; [apply Qle_refl|].
      apply (cmp_le _ _ Hb Ha). apply R2. exact Hin. }
    assert (Kba : (key b <= key a)%Q).
    { pose proof (F b Hb) as Fb. cbn [filter] in Fb.
      rewrite (proj2 (cmp_eq _ _ Hb Hb) (Qeq_refl _)) in Fb.
      assert (Hin : In b (a :: t1)).
      { assert (H : In b (filter (fun y => (cmp b y === Fin 0)%num) (a :: t1))).
        { cbn [filter]. rewrite Fb. left. reflexivity. }
        apply filter_In in H. apply H. }
      destruct Hin as [<-|Hin]; [apply Qle_refl|].
      apply (cmp_le _ _ Ha Hb). apply R1. exact Hin. }
    assert (Eab : a = b).
    { pose proof (F a Ha) as Fa. cbn [filter] in Fa.
      rewrite (proj2 (cmp_eq _ _ Ha Ha) (Qeq_refl _)) in Fa.
      rewrite (proj2 (cmp_eq _ _ Ha Hb)) in Fa by lra.
      congruence. }
    subst b. f_equal. apply IH; try assumption.
    + intros x Hx. apply I1. right. exact Hx.
    + intros x Hx. apply I2. right. exact Hx.
    + intros x Hx. specialize (F x Hx). cbn [filter] in F.
      destruct (cmp x a === Fin 0)%num; congruence.
Qed.

Lemma SortsStably_unique (o1 o2 : list A) :
  SortsStably cmp l o1 -> SortsStably cmp l o2 -> o1 = o2.
Proof.
  intros [P1 S1 T1] [P2 S2 T2]. apply stable_sorted_unique; try assumption.
  - intros x Hx. exact (Permutation_in _ P1 Hx).
  - intros x Hx. exact (Permutation_in _ P2 Hx).
  - intros x Hx. rewrite (T1 x Hx), (T2 x Hx). reflexivity.
Qed.

(** The insertion sort of the model is such a sort. *)
Lemma sortInsert_sorted (x : A) (acc : list A) :
  In x l -> incl acc l ->
  StronglySorted (fun a b => (cmp a b <=? Fin 0)%num = true) acc ->
  StronglySorted (fun a b => (cmp a b <=? Fin 0)%num = true) (sortInsert cmp x acc).
Proof.
  intros Hx. induction acc as [|y t IH]; intros I S; cbn [sortInsert].
  - constructor; [constructor|constructor].
  - assert (Hy : In y l) by (apply I; left; reflexivity).
    assert (It : incl t l) by (intros z Hz; apply I; right; exact Hz).
    pose proof S as S'. apply StronglySorted_inv in S'. destruct S' as [St Rt].
    destruct (cmp y x >? Fin 0)%num eqn:E.
    + apply (cmp_gt _ _ Hy Hx) in E. constructor; [exact S|].
      rewrite Forall_forall in *. intros z [<-|Hz].
      * apply (cmp_le _ _ Hx Hy). lra.
      * apply (cmp_le _ _ Hx (It z Hz)).
        pose proof (proj1 (cmp_le _ _ Hy (It z Hz)) (Rt z Hz)). lra.
    + constructor; [apply IH; assumption|].
      rewrite Forall_forall in *. intros z Hz.
      apply (Permutation_in _ (sortInsert_perm cmp x t)) in Hz.
      destruct Hz as [<-|Hz]; [|apply Rt; exact Hz].
      apply (cmp_le _ _ Hy Hx).
      destruct (Qlt_le_dec (key y) (key x)) as [K|K]; [|exact K].
      apply (cmp_gt _ _ Hy Hx) in K. congruence.
Qed.

Lemma sortInsert_stable (x : A) (acc : list A) (z : A) :
  In x l -> In z l -> incl acc l ->
  StronglySorted (fun a b => (cmp a b <=? Fin 0)%num = true) acc ->
  filter (fun y => (cmp z y === Fin 0)%num) (sortInsert cmp x acc)
  = filter (fun y => (cmp z y === Fin 0)%num) (acc ++ [x]).
Proof.
  intros Hx Hz. induction acc as [|y t IH]; intros I S; cbn [sortInsert];
    [reflexivity|].
  assert (Hy : In y l) by (apply I; left; reflexivity).
  assert (It : incl t l) by (intros u Hu; apply I; right; exact Hu).
  pose proof S as S'. apply StronglySorted_inv in S'. destruct S' as [St Rt].
  destruct (cmp y x >? Fin 0)%num eqn:E.
  - apply (cmp_gt _ _ Hy Hx) in E. rewrite filter_app. cbn [filter].
    destruct (cmp z x === Fin 0)%num eqn:Ezx.
    + apply (cmp_eq _ _ Hz Hx) in Ezx.
      replace (cmp z y === Fin 0)%num with false.
      * rewrite (@filter_none (fun u => (cmp z u === Fin 0)%num) t); [reflexivity|].
        intros u Hu. rewrite Forall_forall in Rt.
        pose proof (proj1 (cmp_le _ _ Hy (It u Hu)) (Rt u Hu)) as K.
        destruct (cmp z u === Fin 0)%num eqn:Ezu; [|reflexivity].
        apply (cmp_eq _ _ Hz (It u Hu)) in Ezu. lra.
      * symmetry. destruct (cmp z y === Fin 0)%num eqn:Ezy; [|reflexivity].
        apply (cmp_eq _ _ Hz Hy) in Ezy. lra.
    + rewrite app_nil_r. reflexivity.
  - change ((y :: t) ++ [x]) with (y :: (t ++ [x])). cbn [filter].
    rewrite (IH It St). reflexivity.
Qed.

Lemma sort_fold_conforms :
  forall rest acc,
    incl (acc ++ rest) l ->
    StronglySorted (fun a b => (cmp a b <=? Fin 0)%num = true) acc ->
    StronglySorted (fun a b => (cmp a b <=? Fin 0)%num = true)
                   (fold_left (fun acc x => sortInsert cmp x acc) rest acc)
    /\ forall z, In z l ->
         filter (fun y => (cmp z y === Fin 0)%num)
                (fold_left (fun acc x => sortInsert cmp x acc) rest acc)
         = filter (fun y => (cmp z y === Fin 0)%num) (acc ++ rest).
Proof.
  induction rest as [|x rest IH]; intros acc I S; cbn [fold_left].
  - rewrite app_nil_r. split; [exact S|reflexivity].
  - assert (Hx : In x l) by (apply I, in_or_app; right; left; reflexivity).
    assert (Ia : incl acc l) by (intros u Hu; apply I, in_or_app; left; exact Hu).
    destruct (IH (sortInsert cmp x acc)) as [S' F'].
    + intros u Hu. apply in_app_or in Hu. destruct Hu as [Hu|Hu].
      * apply (Permutation_in _ (sortInsert_perm cmp x acc)) in Hu.
        destruct Hu as [<-|Hu]; [exact Hx|exact (Ia u Hu)].
      * apply I, in_or_app. right. right. exact Hu.
    + apply sortInsert_sorted; assumption.
    + split; [exact S'|]. intros z Hz. rewrite (F' z Hz), !filter_app.
      rewrite (@sortInsert_stable _ _ _ Hx Hz Ia S), filter_app, <- app_assoc.
      change (x :: rest) with ([x] ++ rest). rewrite (filter_app _ [x] rest).
      reflexivity.
Qed.

Lemma sort_conforms : SortsStably cmp l (sort cmp l).
Proof.
  destruct (@sort_fold_conforms l []) as [S F].
  - intros u Hu. exact Hu.
  - constructor.
  - constructor; [apply sort_perm|exact S|exact F].
Qed.

End StableSort.

Lemma compareSlices_key (strategy : Strategy) (l : list Slice) :
  Forall (fun s => validBounds s = true) l ->
  (strategy = sequential -> Forall (fun s => isFinite (slice_id s) = true) l) ->
  forall a b, In a l -> In b l ->
    exists d, compareSlices strategy a b = Fin d
              /\ (d == sortKey strategy b - sortKey strategy a)%Q.
Proof.
  intros V I a b Ha Hb. rewrite Forall_forall in V.
  destruct strategy.
  - destruct (proj1 (validBounds_spec a) (V a Ha)) as (wa & ha & Ea1 & Ea2 & _).
    destruct (proj1 (validBounds_spec b) (V b Hb)) as (wb & hb & Eb1 & Eb2 & _).
    unfold compareSlices, sortKey. cbv zeta. rewrite Ea1, Ea2, Eb1, Eb2.
    eexists. split; [reflexivity|]. cbn [toQ]. ring.
  - specialize (I eq_refl). rewrite Forall_forall in I.
    pose proof (I a Ha) as Fa. pose proof (I b Hb) as Fb.
    unfold compareSlices, sortKey.
    destruct (slice_id a) as [ia| | |]; try discriminate.
    destruct (slice_id b) as [ib| | |]; try discriminate.
    eexists. split; [reflexivity|]. cbn [toQ]. ring.
Qed.

(** C6.  [nestSlices] is deterministic.  The function reads nothing but its
    arguments, and the one step it leaves to the engine is the sort of the
    fittable slices: any two sorts that meet the contract of
    [Array.prototype.sort] (a stable sort, for a consistent comparator) lead
    to identical results, the same number of sheets, the same sheet and
    [(x, y, rotation)] for every placed slice and the same oversized list,
    which are also the results of the model's own sort.  The comparator is
    consistent when the ids are finite numbers (sequential strategy); areas
    of fittable slices always are. *)
Theorem nestSlices_deterministic
        (engine1 engine2 : (Slice -> Slice -> num) -> list Slice -> list Slice)
        (slices : list Slice) (material : MaterialSettings) (strategy : Strategy) :
  let fittable :=
    snd (preCheck (sheetWidth material) (sheetHeight material) slices) in
  (strategy = sequential ->
   Forall (fun s => isFinite (slice_id s) = true) slices) ->
  SortsStably (compareSlices strategy) fittable
              (engine1 (compareSlices strategy) fittable) ->
  SortsStably (compareSlices strategy) fittable
              (engine2 (compareSlices strategy) fittable) ->
  let r1 := nestSlicesWith engine1 slices material strategy in
  let r2 := nestSlicesWith engine2 slices material strategy in
  r1 = r2
  /\ r1 = nestSlices slices material strategy
  /\ length (sheets r1) = length (sheets r2)
  /\ layout r1 = layout r2
  /\ oversized r1 = oversized r2.
Proof.
  intros fittable I C1 C2 r1 r2.
  assert (K : forall a b, In a fittable -> In b fittable ->
                exists d, compareSlices strategy a b = Fin d
                          /\ (d == sortKey strategy b - sortKey strategy a)%Q).
  { apply compareSlices_key.
    - subst fittable. rewrite preCheck_spec. cbn [snd].
      apply Forall_forall. intros s Hs. apply filter_In in Hs.
      destruct Hs as [_ Hs]. unfold isFittable in Hs.
      apply andb_true_iff in Hs. apply Hs.
    - intros E. specialize (I E). subst fittable. rewrite preCheck_spec. cbn [snd].
      rewrite Forall_forall in *. intros s Hs. apply filter_In in Hs. apply I, Hs. }
  pose proof (@SortsStably_unique _ _ (sortKey strategy) _ K _ _ C1 C2) as E12.
  pose proof (@SortsStably_unique _ _ (sortKey strategy) _ K _ _ C1
                (@sort_conforms _ _ (sortKey strategy) _ K)) as E1.
  assert (R12 : r1 = r2).
  { subst r1 r2. unfold nestSlicesWith. fold fittable.
    destruct (preCheck (sheetWidth material) (sheetHeight material) slices)
      as [ov fit] eqn:P.
    cbn [snd] in fittable. subst fittable. rewrite E12. reflexivity. }
  assert (R1 : r1 = nestSlices slices material strategy).
  { subst r1. unfold nestSlicesWith, nestSlices. fold fittable.
    destruct (preCheck (sheetWidth material) (sheetHeight material) slices)
      as [ov fit] eqn:P.
    cbn [snd] in fittable. subst fittable. rewrite E1. reflexivity. }
  split; [exact R12|]. split; [exact R1|]. rewrite R12. repeat split; reflexivity.
Qed.

Lemma nestSlices_deterministic_witness :
  let r1 := nestSlicesWith (@sort Slice) tiedSlices sheet120 optimized in
  let r2 := nestSlicesWith (@sortFromRight Slice) tiedSlices sheet120 optimized in
  map slice_id (sortFromRight (compareSlices optimized) tiedSlices)
  = [Fin 2; Fin 1; Fin 3; Fin 4]
  /\ r1 = r2
  /\ r1 = nestSlices tiedSlices sheet120 optimized
  /\ length (sheets r1) = length (sheets r2)
  /\ layout r1 = layout r2
  /\ oversized r1 = oversized r2.
Proof.
  split; [vm_compute; reflexivity|].
  assert (K : forall a b,
             In a (snd (preCheck (sheetWidth sheet120) (sheetHeight sheet120)
                                 tiedSlices)) ->
             In b (snd (preCheck (sheetWidth sheet120) (sheetHeight sheet120)
                                 tiedSlices)) ->
             exists d, compareSlices optimized a b = Fin d
                       /\ (d == sortKey optimized b - sortKey optimized a)%Q).
  { apply compareSlices_key.
    - vm_compute. repeat constructor.
    - discriminate. }
  apply (@nestSlices_deterministic (@sort Slice) (@sortFromRight Slice) tiedSlices
                                   sheet120 optimized).
  - discriminate.
  - exact (@sort_conforms _ _ (sortKey optimized) _ K).
  - replace (snd (preCheck (sheetWidth sheet120) (sheetHeight sheet120) tiedSlices))
      with tiedSlices by (vm_compute; reflexivity).
    replace (sortFromRight (compareSlices optimized) tiedSlices)
      with [flatSlice 2 60 60; flatSlice 1 50 50; flatSlice 3 50 50;
            flatSlice 4 10 10] by (vm_compute; reflexivity).
    constructor.
    + apply perm_swap.
    + repeat (constructor; try (vm_compute; reflexivity)).
    + intros x Hx.
      destruct Hx as [<-|[<-|[<-|[<-|[]]]]]; vm_compute; reflexivity.
Defined.

(** C7.  Five slices with 50 x 50 bounds, a 120 x 120 sheet, margin 5 and
    the optimized strategy: exactly two sheets, numbered 0 and 1, with four
    slices on the first and one on the second, and nothing oversized. *)
Theorem five_squares_fill_two_sheets
        (s1 s2 s3 s4 s5 : Slice) (thickness : num) :
  Forall (fun s => b_width (bounds s) = Fin 50 /\ b_height (bounds s) = Fin 50)
         [s1; s2; s3; s4; s5] ->
  let r := nestSlices [s1; s2; s3; s4; s5]
                      (mkMaterial (Fin 120) (Fin 120) thickness mm) optimized in
  length (sheets r) = 2%nat
  /\ map sheet_id (sheets r) = [0%nat; 1%nat]
  /\ map (fun s => length (sheet_items s)) (sheets r) = [4%nat; 1%nat]
  /\ map (fun s => map ps_sheetId (sheet_items s)) (sheets r)
     = [[0%nat; 0%nat; 0%nat; 0%nat]; [1%nat]]
  /\ oversized r = [].
Proof.
  intro H.
  repeat match goal with
         | H : Forall _ (_ :: _) |- _ => inversion H; clear H; subst
         end.
  destruct s1 as [i1 z1 g1 c1 [? ? ? ? w1 h1]], s2 as [i2 z2 g2 c2 [? ? ? ? w2 h2]],
           s3 as [i3 z3 g3 c3 [? ? ? ? w3 h3]], s4 as [i4 z4 g4 c4 [? ? ? ? w4 h4]],
           s5 as [i5 z5 g5 c5 [? ? ? ? w5 h5]].
  simpl in *.
  repeat match goal with
         | H : _ /\ _ |- _ => destruct H
         end.
  subst. vm_compute. repeat split; reflexivity.
Qed.

Lemma five_squares_fill_two_sheets_witness :
  let r := nestSlices fiveSquares sheet120 optimized in
  length (sheets r) = 2%nat
  /\ map sheet_id (sheets r) = [0%nat; 1%nat]
  /\ map (fun s => length (sheet_items s)) (sheets r) = [4%nat; 1%nat]
  /\ map (fun s => map ps_sheetId (sheet_items s)) (sheets r)
     = [[0%nat; 0%nat; 0%nat; 0%nat]; [1%nat]]
  /\ oversized r = [].
Proof.
  apply (@five_squares_fill_two_sheets
           (flatSlice 1 50 50) (flatSlice 2 50 50) (flatSlice 3 50 50)
           (flatSlice 4 50 50) (flatSlice 5 50 50) (Fin 3)).
  repeat constructor.
Defined.

(** ** The contour linker *)

Lemma has_false (used : list nat) (i : nat) : has used i = false <-> ~ In i used.
Proof.
  unfold has. split.
  - intros H Hin. assert (E : existsb (Nat.eqb i) used = true).
    { apply existsb_exists. exists i. split; [assumption|apply Nat.eqb_refl]. }
    congruence.
  - intro H. destruct (existsb (Nat.eqb i) used) eqn:E; [|reflexivity].
    apply existsb_exists in E. destruct E as (j & Hj & Ej).
    apply Nat.eqb_eq in Ej. subst. contradiction.
Qed.

Lemma has_true (used : list nat) (i : nat) : has used i = true -> In i used.
Proof.
  intro H. destruct (in_dec Nat.eq_dec i used) as [Hin|Hin]; [assumption|].
  apply has_false in Hin. congruence.
Qed.

Lemma UsedOK_length (n : nat) (used : list nat) : UsedOK n used -> (length used <= n)%nat.
Proof.
  intros [Hnd Hlt]. rewrite <- (length_seq n 0).
  apply NoDup_incl_length; [assumption|].
  intros i Hi. rewrite Forall_forall in Hlt. apply in_seq. specialize (Hlt i Hi). lia.
Qed.

Lemma UsedOK_cons (n i : nat) (used : list nat) :
  UsedOK n used -> (i < n)%nat -> has used i = false -> UsedOK n (i :: used).
Proof.
  intros [Hnd Hlt] Hi Hh. apply has_false in Hh.
  split; constructor; assumption.
Qed.

Lemma findNext_spec (segs : list LineSegment) (epsilon : num) (used : list nat)
      (currentPoint : Vector3) (candidates : list nat) (i : nat) (far : Vector3) :
  findNext segs epsilon used currentPoint candidates = Some (i, far) ->
  has used i = false /\ (i < length segs)%nat.
Proof.
  induction candidates as [|c rest IH]; simpl; [discriminate|].
  destruct (has used c) eqn:Hc; [exact IH|].
  destruct (nth_error segs c) as [seg|] eqn:Hn; [|exact IH].
  assert (Hlt : (c < length segs)%nat)
    by (apply nth_error_Some; congruence).
  repeat match goal with |- context [if ?b then _ else _] => destruct b end;
    try exact IH; intro E; inversion E; subst; auto.
Qed.

(** The inner loop ends before its fuel does, and appends one point for
    every segment it marks. *)
Lemma grow_total (segs : list LineSegment) (epsilon : num) (m : AdjMap) :
  forall fuel contour currentPoint used,
    UsedOK (length segs) used ->
    (length segs < fuel + length used)%nat ->
    exists c u,
      grow fuel segs epsilon m contour currentPoint used = Some (c, u)
      /\ UsedOK (length segs) u
      /\ incl used u
      /\ (length c + length used = length contour + length u)%nat.
Proof.
  induction fuel as [|fuel IH]; intros contour cp used Hok Hfuel.
  - apply UsedOK_length in Hok. lia.
  - simpl. destruct (mapGet m (hash epsilon cp)) as [cands|].
    2:{ exists contour, used. repeat split; auto using incl_refl; apply Hok. }
    destruct (findNext segs epsilon used cp cands) as [[i far]|] eqn:Ef.
    2:{ exists contour, used. repeat split; auto using incl_refl; apply Hok. }
    apply findNext_spec in Ef. destruct Ef as [Hh Hi].
    pose proof (UsedOK_cons Hok Hi Hh) as Hok'.
    match goal with |- context [if ?b then _ else _] => destruct b end.
    + exists (contour ++ [far]), (i :: used).
      split; [reflexivity|]. split; [assumption|].
      split; [apply incl_tl, incl_refl|]. rewrite length_app. simpl. lia.
    + destruct (IH (contour ++ [far]) far (i :: used) Hok') as (c & u & E & Hu & Hincl & Hlen).
      { simpl. lia. }
      exists c, u. split; [exact E|]. split; [assumption|].
      split; [intros x Hx; apply Hincl; right; exact Hx|].
      rewrite length_app in Hlen. simpl in Hlen. lia.
Qed.

Lemma link_fold_total (segs : list LineSegment) (epsilon : num) (m : AdjMap)
      (l : list (nat * LineSegment)) :
  Forall (fun ix => (fst ix < length segs)%nat) l ->
  forall cs used,
    UsedOK (length segs) used ->
    exists cs' used',
      fold_left (link_step segs epsilon m) l (Some (cs, used)) = Some (cs', used')
      /\ UsedOK (length segs) used'
      /\ incl used used'
      /\ (forall ix, In ix l -> In (fst ix) used')
      /\ (linked cs' + length used = linked cs + length used')%nat
      /\ (Forall (fun c => (2 <= length c)%nat) cs ->
          Forall (fun c => (2 <= length c)%nat) cs').
Proof.
  induction 1 as [|[i seg] l Hi Hl IH]; intros cs used Hok; cbn [fold_left].
  - exists cs, used. repeat split; auto using incl_refl; try apply Hok.
    intros ix [].
  - cbn [link_step]. simpl in Hi. destruct (has used i) eqn:Hh.
    + destruct (IH cs used Hok) as (cs' & used' & E & Hu & Hincl & Hall & Hsum & Hlen).
      exists cs', used'. repeat split; auto; try apply Hu.
      intros ix [Hx|Hx]; [|auto]. subst ix. simpl. apply Hincl.
      now apply has_true.
    + pose proof (UsedOK_cons Hok Hi Hh) as Hok1.
      destruct (@grow_total segs epsilon m (S (length segs))
                            [seg_start seg; seg_end seg] (seg_end seg) (i :: used) Hok1)
        as (c & u & Eg & Hu & Hincl1 & Hlen1).
      { simpl. lia. }
      rewrite Eg.
      pose proof (NoDup_incl_length (proj1 Hok1) Hincl1) as Hle.
      destruct (IH (cs ++ [c]) u Hu) as (cs' & used' & E & Hu' & Hincl & Hall & Hsum & Hlen).
      exists cs', used'. split; [exact E|]. split; [assumption|].
      split; [intros x Hx; apply Hincl, Hincl1; right; exact Hx|].
      split; [|split].
      * intros ix [Hx|Hx]; [|auto]. subst ix. simpl. apply Hincl, Hincl1. left. reflexivity.
      * unfold linked in *. rewrite map_app, list_sum_app in Hsum. simpl in *. lia.
      * intro Hcs. apply Hlen. apply Forall_app. split; [assumption|].
        constructor; [|constructor]. simpl in Hlen1, Hle. lia.
Qed.

Lemma indexed_bound (A : Type) (l : list A) :
  Forall (fun ix : nat * A => (fst ix < length l)%nat) (BinOps.indexed l).
Proof.
  apply Forall_forall. intros [i a] H. apply indexed_In in H. simpl.
  apply nth_error_Some. congruence.
Qed.

Lemma indexed_nth_In (A : Type) (l : list A) :
  forall s i a, nth_error l i = Some a ->
                In ((s + i)%nat, a) (combine (seq s (length l)) l).
Proof.
  induction l as [|x l IH]; intros s [|i] a H; simpl in *; try discriminate.
  - inversion H; subst. left. now rewrite Nat.add_0_r.
  - right. replace (s + S i)%nat with (S s + i)%nat by lia. now apply IH.
Qed.

(** The linker always ends; each segment contributes exactly one point
    beyond the first point of the contour it lands in, and every contour has
    at least the two ends of its seed. *)
Lemma linkSegments_total (segs : list LineSegment) (epsilon : num) :
  exists cs,
    linkSegments segs epsilon = Some cs
    /\ linked cs = length segs
    /\ Forall (fun c => (2 <= length c)%nat) cs.
Proof.
  unfold linkSegments.
  destruct (@link_fold_total segs epsilon (buildMap epsilon segs)
                             (BinOps.indexed segs) (indexed_bound segs) [] [])
    as (cs & used & E & Hu & _ & Hall & Hsum & Hlen).
  { split; constructor. }
  rewrite E. exists cs. split; [reflexivity|]. split; [|apply Hlen; constructor].
  unfold linked in *. simpl in Hsum. rewrite Nat.add_0_r in Hsum. rewrite Hsum.
  apply Nat.le_antisymm; [now apply UsedOK_length|].
  rewrite <- (length_seq (length segs) 0).
  apply NoDup_incl_length; [apply seq_NoDup|].
  intros i Hi. apply in_seq in Hi.
  destruct (nth_error segs i) as [a|] eqn:En; [|apply nth_error_None in En; lia].
  apply (Hall (i, a)). apply (indexed_nth_In segs 0 i En).
Qed.

Lemma last_default (A : Type) (l : list A) (d1 d2 : A) :
  l <> [] -> last l d1 = last l d2.
Proof.
  induction l as [|x l IH]; intro H; [congruence|].
  destruct l as [|y l]; [reflexivity|].
  change (last (y :: l) d1 = last (y :: l) d2). apply IH. discriminate.
Qed.

(** The two ways out of the inner loop: the chain is stuck at its last
    point, or the point appended last is within [epsilon] of the first. *)
Lemma grow_exits (segs : list LineSegment) (epsilon : num) (m : AdjMap) :
  forall fuel contour currentPoint used c u,
    grow fuel segs epsilon m contour currentPoint used = Some (c, u) ->
    last contour currentPoint = currentPoint ->
    exists more,
      c = contour ++ more
      /\ ((more <> [] /\ closedContour epsilon c = true)
          \/ stuckAt segs epsilon m u (last c currentPoint)).
Proof.
  induction fuel as [|fuel IH]; intros contour cp used c u H Hlast; simpl in H;
    [discriminate|].
  destruct (mapGet m (hash epsilon cp)) as [cands|] eqn:Em.
  2:{ inversion H; subst. exists []. rewrite app_nil_r. split; [reflexivity|].
      right. rewrite Hlast. unfold stuckAt. now rewrite Em. }
  destruct (findNext segs epsilon used cp cands) as [[i far]|] eqn:Ef.
  2:{ inversion H; subst. exists []. rewrite app_nil_r. split; [reflexivity|].
      right. rewrite Hlast. unfold stuckAt. now rewrite Em. }
  match type of H with
  | (if ?b then _ else _) = _ => destruct b eqn:Ec
  end.
  - inversion H; subst. exists [far]. split; [reflexivity|]. left.
    split; [discriminate|]. unfold closedContour. rewrite last_last. exact Ec.
  - destruct (IH _ _ _ _ _ H (last_last _ _ _)) as (more & E & Hex).
    exists (far :: more). rewrite E, <- app_assoc. split; [reflexivity|].
    destruct Hex as [[Hne Hc]|Hs].
    + left. split; [discriminate|]. rewrite E, <- app_assoc in Hc. exact Hc.
    + right. rewrite E, <- app_assoc in Hs.
      rewrite (@last_default _ (contour ++ [far] ++ more) cp far); [exact Hs|].
      destruct contour; discriminate.
Qed.

(** ** The claims about slicing and linking *)

(** C2, as stated, fails: linking the four sides of a square closes the
    loop with the closing point appended again, so the contour has five
    points and its last point is its first. *)
Lemma closing_point_repeated_on_square :
  exists c,
    linkSegments squareSegments EPSILON = Some [c]
    /\ c = [pt 0 0 20; pt 100 0 20; pt 100 100 20; pt 0 100 20; pt 0 0 20]
    /\ closedContour EPSILON c = true
    /\ last c undefinedVec = hd undefinedVec c
    /\ length c <> 4%nat.
Proof.
  eexists. split; [vm_compute; reflexivity|].
  split; [reflexivity|]. split; [reflexivity|]. split; [reflexivity|discriminate].
Qed.

(** C2, amended.  The linker always ends and appends the far end of every
    segment it links, the closing one included: the contours hold one point
    per segment beyond their first points.  Its inner loop stops either
    stuck at the last point or right after appending a point within epsilon
    of the first one, so a closed contour ends with a duplicate of its first
    point.  Slicing the cube [cube100] with count 4 yields four slices, at
    heights 20, 40, 60 and 80, each with eight segments linked into one
    closed contour of nine points along the outline of the side-100
    square. *)
Theorem closing_point_is_appended :
  (forall segs epsilon,
      exists cs,
        linkSegments segs epsilon = Some cs
        /\ linked cs = length segs
        /\ Forall (fun c => (2 <= length c)%nat) cs)
  /\ (forall segs epsilon m fuel contour currentPoint used c u,
         grow fuel segs epsilon m contour currentPoint used = Some (c, u) ->
         last contour currentPoint = currentPoint ->
         exists more,
           c = contour ++ more
           /\ ((more <> [] /\ closedContour epsilon c = true)
               \/ stuckAt segs epsilon m u (last c currentPoint)))
  /\ (exists l,
         sliceGeometry cube100 AxisZ (Fin 4) = Some l
         /\ length l = 4%nat
         /\ Forall2 (fun s z => (zHeight s === ofZ z)%num = true) l [20; 40; 60; 80]%Z
         /\ Forall cubeSliceShape l).
Proof.
  split; [exact linkSegments_total|].
  split; [intros; eapply grow_exits; eassumption|].
  exists (match sliceGeometry cube100 AxisZ (Fin 4) with Some l => l | None => [] end).
  split; [vm_compute; reflexivity|].
  split; [vm_compute; reflexivity|].
  split.
  - vm_compute. repeat constructor.
  - vm_compute.
    repeat (constructor;
            [split; [reflexivity|eexists; repeat split; reflexivity]|]).
    constructor.
Qed.

(** C8.  A mesh whose extent on the chosen axis is not positive (flat or
    empty geometry) or a requested count that is not positive gives the
    empty list. *)
Theorem sliceGeometry_rejects_flat_or_empty
        (pos : list Vector3) (axis : Axis) (numberOfSlices : num) :
  (boxMax pos axis - boxMin pos axis <= Fin 0)%num
  \/ (numberOfSlices <= Fin 0)%num ->
  sliceGeometry pos axis numberOfSlices = Some [].
Proof.
  intro H. unfold sliceGeometry.
  destruct H as [H|H]; unfold num_le in H; rewrite H; [|rewrite orb_true_r];
    reflexivity.
Qed.

Lemma sliceGeometry_rejects_flat_or_empty_witness :
  sliceGeometry cube100 AxisZ (Fin 0) = Some []
  /\ sliceGeometry [] AxisZ (Fin 4) = Some []
  /\ sliceGeometry (quad (pt 0 0 7) (pt 1 0 7) (pt 1 1 7) (pt 0 1 7)) AxisZ (Fin 4)
     = Some [].
Proof.
  split; [|split].
  - apply (@sliceGeometry_rejects_flat_or_empty cube100 AxisZ (Fin 0)).
    right. reflexivity.
  - apply (@sliceGeometry_rejects_flat_or_empty [] AxisZ (Fin 4)).
    left. reflexivity.
  - apply (@sliceGeometry_rejects_flat_or_empty
             (quad (pt 0 0 7) (pt 1 0 7) (pt 1 1 7) (pt 0 1 7)) AxisZ (Fin 4)).
    left. reflexivity.
Defined.

Lemma inject_le_floor (i : Z) (q : Q) : (inject_Z i <= q)%Q <-> (i <= Qfloor q)%Z.
Proof.
  split; intro H.
  - rewrite <- (Qfloor_Z i). now apply Qfloor_resp_le.
  - apply Qle_trans with (inject_Z (Qfloor q));
      [now rewrite <- Zle_Qle|apply Qfloor_le].
Qed.

(** One level gives no slice or one slice, at that level, with segments. *)
Lemma sliceLevel_spec (pos : list Vector3) (axis : Axis) (mn step : num) (i : Z) :
  exists l,
    sliceLevel pos axis mn step i = Some l
    /\ (l = []
        \/ exists s, l = [s]
                     /\ zHeight s = (mn + ofZ i * step)%num
                     /\ slice_id s = ofZ i
                     /\ segments s <> []).
Proof.
  unfold sliceLevel.
  destruct (levelSegments axis (mn + ofZ i * step)%num pos) as [|seg segs] eqn:E.
  - exists []. auto.
  - destruct (linkSegments_total (seg :: segs) EPSILON) as (cs & Ecs & _).
    rewrite Ecs. eexists. split; [reflexivity|]. right. eexists.
    split; [reflexivity|]. simpl. repeat split. discriminate.
Qed.

(** The level loop ends when it has fuel for the levels left, and emits at
    most one slice for each of them. *)
Lemma sliceLoop_spec (pos : list Vector3) (axis : Axis) (mn step : num) (q : Q) :
  forall fuel i,
    (Z.max 0 (Qfloor q - i + 1) < Z.of_nat fuel)%Z ->
    exists l,
      sliceLoop fuel pos axis mn step (Fin q) i = Some l
      /\ (Z.of_nat (length l) <= Z.max 0 (Qfloor q - i + 1))%Z
      /\ Forall (fun s => exists k, (i <= k <= Qfloor q)%Z
                                    /\ zHeight s = (mn + ofZ k * step)%num
                                    /\ slice_id s = ofZ k
                                    /\ segments s <> []) l.
Proof.
  induction fuel as [|fuel IH]; intros i Hfuel; [lia|].
  cbn [sliceLoop]. unfold ofZ at 1. cbn [nle].
  destruct (Qle_bool (inject_Z i) q) eqn:Hi.
  - apply Qle_bool_iff, inject_le_floor in Hi.
    destruct (sliceLevel_spec pos axis mn step i) as (here & Eh & Hhere).
    destruct (IH (i + 1)%Z) as (later & El & Hlen & Hall); [lia|].
    rewrite Eh, El. exists (here ++ later). split; [reflexivity|].
    split.
    + rewrite length_app.
      destruct Hhere as [->|(s & -> & _)]; simpl length; lia.
    + apply Forall_app. split.
      * destruct Hhere as [->|(s & -> & Hz & Hid & Hseg)]; constructor;
          [|constructor]. exists i. repeat split; auto; lia.
      * eapply Forall_impl; [|exact Hall]. intros s (k & Hk & Hrest).
        exists k. split; [lia|exact Hrest].
  - exists []. split; [reflexivity|]. split; [simpl; lia|constructor].
Qed.

(** With a count of [Infinity] and a positive extent the level loop has no
    last turn: no amount of fuel lets it return. *)
Lemma sliceLoop_unbounded (pos : list Vector3) (axis : Axis) (mn step : num) :
  forall fuel i, sliceLoop fuel pos axis mn step PInf i = None.
Proof.
  induction fuel as [|fuel IH]; intro i; cbn [sliceLoop]; [reflexivity|].
  unfold ofZ. cbn [nle]. rewrite IH.
  destruct (sliceLevel pos axis mn step i); reflexivity.
Qed.

(** C4.  For a mesh with positive extent [[a, b]] on the axis and a count
    [q >= 1], [sliceGeometry] returns; every slice has
    [zHeight = a + i * ((b - a) / (q + 1))] for an integer [i] in [1..q],
    which is strictly between [a] and [b]; the slices are at most [q]; and
    none has an empty segment list. *)
Theorem slice_heights_are_interior_levels
        (pos : list Vector3) (axis : Axis) (a b q : Q) :
  boxMin pos axis = Fin a -> boxMax pos axis = Fin b ->
  (a < b)%Q -> (1 <= q)%Q ->
  exists l,
    sliceGeometry pos axis (Fin q) = Some l
    /\ (inject_Z (Z.of_nat (length l)) <= q)%Q
    /\ forall s, In s l ->
         (exists i : Z,
             (1 <= i)%Z /\ (inject_Z i <= q)%Q
             /\ zHeight s = (Fin a + ofZ i * ((Fin b - Fin a) / (Fin q + Fin 1)))%num)
         /\ (Fin a < zHeight s)%num /\ (zHeight s < Fin b)%num
         /\ segments s <> [].
Proof.
  intros Emin Emax Hab Hq. unfold sliceGeometry. rewrite Emin, Emax.
  assert (Hfloor : (1 <= Qfloor q)%Z) by (apply inject_le_floor; exact Hq).
  assert (Hg : (((Fin b - Fin a)%num <=? Fin 0) || (Fin q <=? Fin 0))%num = false).
  { apply orb_false_iff. split; num_solve. }
  rewrite Hg.
  assert (Hne : Qeq_bool (q + 1) 0 = false) by (qprop; lra).
  assert (Estep : ((Fin b - Fin a) / (Fin q + Fin 1))%num
                  = Fin ((b + - a) / (q + 1))).
  { unfold nsub. cbn [nneg nadd ndiv]. now rewrite Hne. }
  rewrite Estep.
  destruct (@sliceLoop_spec pos axis (Fin a) (Fin ((b + - a) / (q + 1))) q
                            (levelFuel (Fin q)) 1%Z) as (l & El & Hlen & Hall).
  { cbn [levelFuel]. lia. }
  exists l. split; [exact El|]. split.
  - apply Qle_trans with (inject_Z (Qfloor q)); [|apply Qfloor_le].
    rewrite <- Zle_Qle. lia.
  - intros s Hs. rewrite Forall_forall in Hall.
    destruct (Hall s Hs) as (k & Hk & Hz & _ & Hseg).
    assert (Hkq : (inject_Z k <= q)%Q) by (apply inject_le_floor; lia).
    assert (Hk1 : (1 <= inject_Z k)%Q)
      by (change 1%Q with (inject_Z 1); rewrite <- Zle_Qle; lia).
    split; [exists k; split; [lia|split; [exact Hkq|exact Hz]]|].
    rewrite Hz. unfold ofZ. cbn [nmul nadd].
    assert (Hd : ((b + - a) / (q + 1) * (q + 1) == b + - a)%Q)
      by (rewrite Qmult_comm; apply Qmult_div_r; lra).
    set (d := ((b + - a) / (q + 1))%Q) in *.
    assert (Hdpos : (0 < d)%Q) by nra.
    split; [|split; [|exact Hseg]]; num_simpl; qprop; nra.
Qed.

Lemma slice_heights_are_interior_levels_witness :
  exists l,
    sliceGeometry cube100 AxisZ (Fin 4) = Some l
    /\ (inject_Z (Z.of_nat (length l)) <= 4)%Q
    /\ forall s, In s l ->
         (exists i : Z,
             (1 <= i)%Z /\ (inject_Z i <= 4)%Q
             /\ zHeight s = (Fin 0 + ofZ i * ((Fin 100 - Fin 0) / (Fin 4 + Fin 1)))%num)
         /\ (Fin 0 < zHeight s)%num /\ (zHeight s < Fin 100)%num
         /\ segments s <> [].
Proof.
  apply (@slice_heights_are_interior_levels cube100 AxisZ 0 100 4).
  - reflexivity.
  - reflexivity.
  - reflexivity.
  - discriminate.
Defined.

(** ** The claim about splitting *)

(** What step 1 of [splitSlice] chooses: the width as soon as it exceeds
    its limit, whatever the height; else the height if it exceeds its limit;
    else the longer side, the height on a tie.  The position is the lower
    bound plus half the chosen side. *)
Lemma splitSlice_axis_spec (slice : Slice) (maxW maxH : num) :
  let width := b_width (bounds slice) in
  let height := b_height (bounds slice) in
  let atU := (U, (minX (bounds slice) + width / Fin 2)%num) in
  let atV := (V, (minY (bounds slice) + height / Fin 2)%num) in
  ((width >? maxW)%num = true -> splitSlice_axis slice maxW maxH = atU)
  /\ ((width >? maxW)%num = false -> (height >? maxH)%num = true ->
      splitSlice_axis slice maxW maxH = atV)
  /\ ((width >? maxW)%num = false -> (height >? maxH)%num = false ->
      splitSlice_axis slice maxW maxH
      = if (width >? height)%num then atU else atV).
Proof.
  unfold splitSlice_axis. cbv zeta.
  split; [|split]; intros; repeat match goal with H : _ = _ |- _ => rewrite H end;
    reflexivity.
Qed.

(** C3, the failing input.  A slice of 200 x 300 with both limits at 100:
    both sides exceed their limit and the height is the longer one, yet the
    split is made across the width, at its midpoint 100. *)
Theorem splitSlice_both_exceed_splits_width :
  let slice := flatSlice 7 200 300 in
  (b_width (bounds slice) >? Fin 100)%num = true
  /\ (b_height (bounds slice) >? Fin 100)%num = true
  /\ (b_height (bounds slice) >? b_width (bounds slice))%num = true
  /\ fst (splitSlice_axis slice (Fin 100) (Fin 100)) = U
  /\ (snd (splitSlice_axis slice (Fin 100) (Fin 100)) === Fin 100)%num = true.
Proof. vm_compute. repeat split; reflexivity. Qed.

(* ===================================================================== *)
(** * Further properties of the code *)
(* ===================================================================== *)

(** ** Sheets of a nesting run *)

Lemma tryBins_keeps (bins : list Bin) (slice : Slice) :
  forall bins',
    tryBins bins slice = Some bins' ->
    map sheetId bins' = map sheetId bins
    /\ (Forall (fun b => items b <> []) bins ->
        Forall (fun b => items b <> []) bins').
Proof.
  induction bins as [|b rest IH]; cbn [tryBins]; intros bins' H; [discriminate|].
  pose proof (insert_items b slice margin) as Hitems.
  pose proof (insert_fields b slice margin) as Hfields.
  destruct (BinOps.insert b slice margin) as [b' [|]]; cbn [fst] in *.
  - inversion H; subst; clear H. destruct Hfields as (_ & _ & Eid).
    destruct Hitems as (p & Ei & _).
    split; [cbn [map]; now rewrite Eid|].
    intro Hall. inversion Hall; subst. constructor; [|assumption].
    rewrite Ei. destruct (items b); discriminate.
  - destruct (tryBins rest slice) as [rest'|]; [|discriminate].
    inversion H; subst; clear H. destruct (IH rest' eq_refl) as [E1 E2].
    split; [cbn [map]; now rewrite E1|].
    intro Hall. inversion Hall; subst. constructor; auto.
Qed.

Lemma pack_step_sheets (sw sh : num) (bins : list Bin) (ov : list Slice) (slice : Slice) :
  let bins' := fst (pack_step sw sh (bins, ov) slice) in
  (map sheetId bins = seq 0 (length bins) ->
   map sheetId bins' = seq 0 (length bins'))
  /\ (length bins <= length bins' <= S (length bins))%nat
  /\ bins' <> [].
Proof.
  unfold pack_step.
  pose proof (@tryBins_keeps bins slice) as Hk.
  pose proof (@tryBins_spec sw sh bins slice) as Hs.
  destruct (tryBins bins slice) as [bins1|] eqn:Et; cbn [fst].
  - destruct (Hk bins1 eq_refl) as [Eid _].
    destruct (Hs bins1 eq_refl) as (_ & El & _).
    split; [intro H; now rewrite Eid, El|]. split; [lia|].
    destruct bins1; [|discriminate]. destruct bins; discriminate.
  - pose proof (insert_fields (BinOps.new (length bins) sw sh) slice margin)
      as (_ & _ & Eid).
    assert (E : fst (let '(newBin', ok) :=
                       BinOps.insert (BinOps.new (length bins) sw sh) slice margin in
                     if ok then (bins ++ [newBin'], ov)
                     else (bins ++ [newBin'], ov ++ [slice]))
                = bins ++ [fst (BinOps.insert (BinOps.new (length bins) sw sh) slice margin)]).
    { destruct (BinOps.insert (BinOps.new (length bins) sw sh) slice margin) as [nb [|]];
        reflexivity. }
    rewrite E. split; [|split].
    + intro H. rewrite map_app, length_app, seq_app, H. cbn [map length seq].
      rewrite Eid. reflexivity.
    + rewrite length_app. simpl. lia.
    + destruct bins; discriminate.
Qed.

Lemma pack_fold_sheets (sw sh : num) (l : list Slice) :
  forall bins ov,
    let bins' := fst (fold_left (pack_step sw sh) l (bins, ov)) in
    (map sheetId bins = seq 0 (length bins) ->
     map sheetId bins' = seq 0 (length bins'))
    /\ (length bins <= length bins' <= length bins + length l)%nat
    /\ (l <> [] -> bins' <> []).
Proof.
  induction l as [|s l IH]; intros bins ov; cbn [fold_left].
  - cbn. split; [auto|]. split; [lia|congruence].
  - destruct (pack_step_sheets sw sh bins ov s) as (A1 & A2 & A3).
    destruct (pack_step sw sh (bins, ov) s) as [bins1 ov1]. cbn [fst] in *.
    destruct (IH bins1 ov1) as (B1 & B2 & B3).
    split; [auto|]. split; [simpl; lia|]. intros _.
    destruct l as [|s' l]; [exact A3|]. apply B3. discriminate.
Qed.

(** X1.  The sheets are numbered 0, 1, 2, ... in the order they were
    opened, and every placed slice carries the number of the sheet it is
    on. *)
Theorem sheet_ids_are_positions
        (slices : list Slice) (material : MaterialSettings) (strategy : Strategy) :
  let r := nestSlices slices material strategy in
  map sheet_id (sheets r) = seq 0 (length (sheets r))
  /\ forall sheet p,
      In sheet (sheets r) -> In p (sheet_items sheet) ->
      ps_sheetId p = sheet_id sheet.
Proof.
  intro r. split.
  - subst r. unfold nestSlices.
    destruct (preCheck (sheetWidth material) (sheetHeight material) slices)
      as [ov0 fit].
    pose proof (pack_fold_sheets (sheetWidth material) (sheetHeight material)
                                 (sort (compareSlices strategy) fit) [] ov0) as (A & _ & _).
    destruct (fold_left _ _ _) as [bins ov]. cbn [fst sheets] in *.
    rewrite length_map, map_map. cbn [toSheet sheet_id]. apply A. reflexivity.
  - intros sheet p Hs Hp.
    destruct (sheet_bin _ _ _ _ Hs) as (b & Eb & (Inv & _ & _)). subst sheet.
    cbn [toSheet sheet_items sheet_id] in *.
    pose proof (inv_items_meta Inv) as Hm. rewrite Forall_forall in Hm.
    destruct (Hm p Hp) as (_ & E & _). exact E.
Qed.

(** X2.  Every sheet was opened for a slice of its own: there are at most
    as many sheets as fittable slices, and there is no sheet at all exactly
    when no input slice is fittable. *)
Theorem sheets_bounded_by_fittable_slices
        (slices : list Slice) (material : MaterialSettings) (strategy : Strategy) :
  let sw := sheetWidth material in
  let sh := sheetHeight material in
  let r := nestSlices slices material strategy in
  (length (sheets r) <= length (filter (isFittable sw sh) slices))%nat
  /\ (sheets r = [] <-> filter (isFittable sw sh) slices = []).
Proof.
  intros sw sh r. subst r. unfold nestSlices. fold sw sh. rewrite preCheck_spec.
  pose proof (pack_fold_sheets sw sh
                (sort (compareSlices strategy) (filter (isFittable sw sh) slices))
                [] (filter (isOversized sw sh) slices)) as (_ & B & C).
  pose proof (Permutation_length (sort_perm (compareSlices strategy)
                                            (filter (isFittable sw sh) slices))) as El.
  destruct (fold_left _ _ _) as [bins ov]. cbn [fst sheets] in *.
  rewrite length_map. split; [simpl in B; lia|].
  split; intro H.
  - destruct (filter (isFittable sw sh) slices) as [|s l] eqn:E; [reflexivity|].
    exfalso. destruct bins; [|discriminate]. apply C; [|reflexivity].
    intro K. rewrite K in El. discriminate.
  - rewrite H in B. cbn in B. destruct bins; [reflexivity|].
    simpl in B. lia.
Qed.

Lemma pack_fold_nonempty_bins (sw sh : num) (l : list Slice) :
  isFinite sw = true -> isFinite sh = true ->
  (sw <= Number_MAX_VALUE)%num -> (sh <= Number_MAX_VALUE)%num ->
  Forall (fun s => isFittable sw sh s = true) l ->
  forall bins ov,
    Forall (fun b => items b <> []) bins ->
    Forall (fun b => items b <> [])
           (fst (fold_left (pack_step sw sh) l (bins, ov))).
Proof.
  intros Fw Fh Mw Mh. induction 1 as [|s l Hs Hl IH]; intros bins ov Hb;
    cbn [fold_left]; [exact Hb|].
  unfold pack_step at 2.
  pose proof (@tryBins_keeps bins s) as Hk.
  destruct (tryBins bins s) as [bins'|].
  - apply IH. apply (proj2 (Hk bins' eq_refl)). exact Hb.
  - pose proof (@insert_fresh (length bins) sw sh s Fw Fh Mw Mh Hs) as K.
    pose proof (insert_items (BinOps.new (length bins) sw sh) s margin) as Hi.
    destruct (BinOps.insert (BinOps.new (length bins) sw sh) s margin) as [nb ok].
    cbn [snd] in K. subst ok. destruct Hi as (p & Ei & _).
    apply IH. apply Forall_app. split; [exact Hb|].
    constructor; [|constructor]. rewrite Ei. discriminate.
Qed.

(** X3.  On a sheet whose sides are finite and below [Number.MAX_VALUE] no
    sheet of the result is empty. *)
Theorem no_empty_sheet_on_finite_material
        (slices : list Slice) (material : MaterialSettings) (strategy : Strategy)
        (sheet : Sheet) :
  isFinite (sheetWidth material) = true ->
  isFinite (sheetHeight material) = true ->
  (sheetWidth material < Number_MAX_VALUE)%num ->
  (sheetHeight material < Number_MAX_VALUE)%num ->
  In sheet (sheets (nestSlices slices material strategy)) ->
  sheet_items sheet <> [].
Proof.
  intros Fw Fh Mw Mh. apply num_lt_le in Mw, Mh. unfold nestSlices.
  set (sw := sheetWidth material) in *. set (sh := sheetHeight material) in *.
  rewrite preCheck_spec.
  pose proof (@pack_fold_nonempty_bins
                sw sh (sort (compareSlices strategy) (filter (isFittable sw sh) slices))
                Fw Fh Mw Mh) as K.
  specialize (K ltac:(apply Forall_forall; intros s Hs;
                      apply (Permutation_in _ (sort_perm _ _)) in Hs;
                      apply filter_In in Hs; tauto)
                [] (filter (isOversized sw sh) slices) (Forall_nil _)).
  destruct (fold_left _ _ _) as [bins ov]. cbn [fst sheets] in *.
  intro Hin. apply in_map_iff in Hin. destruct Hin as (b & Eb & Hb). subst sheet.
  rewrite Forall_forall in K. exact (K b Hb).
Qed.

Lemma no_empty_sheet_on_finite_material_witness :
  sheet_items squaresSheet <> [].
Proof.
  apply (@no_empty_sheet_on_finite_material fiveSquares sheet120 optimized squaresSheet).
  - reflexivity.
  - reflexivity.
  - vm_compute. reflexivity.
  - vm_compute. reflexivity.
  - vm_compute. left. reflexivity.
Defined.

(** ** Best short side fit *)

Lemma num_lt_trans (a b c : num) : (a <? b)%num = true -> (b <? c)%num = true ->
                                   (a <? c)%num = true.
Proof. destruct a, b, c; num_solve. Qed.

Lemma num_lt_eq (a b c : num) : (a <? b)%num = true -> (b === c)%num = true ->
                                (a <? c)%num = true.
Proof. destruct a, b, c; num_solve. Qed.

Lemma num_eq_lt (a b c : num) : (a === b)%num = true -> (b <? c)%num = true ->
                                (a <? c)%num = true.
Proof. destruct a, b, c; num_solve. Qed.

Lemma num_eq_trans (a b c : num) : (a === b)%num = true -> (b === c)%num = true ->
                                   (a === c)%num = true.
Proof. destruct a, b, c; num_solve. Qed.

Lemma num_lt_irrefl_bool (a : num) : (a <? a)%num = false.
Proof. destruct a; num_solve. Qed.

Lemma better_trans (s1 l1 s2 l2 s3 l3 : num) :
  better s1 l1 s2 l2 = true -> better s2 l2 s3 l3 = true ->
  better s1 l1 s3 l3 = true.
Proof.
  unfold better. intros H1 H2.
  apply orb_true_iff in H1. apply orb_true_iff in H2. apply orb_true_iff.
  destruct H1 as [H1|H1], H2 as [H2|H2];
    try (apply andb_true_iff in H1; destruct H1 as [E1 L1]);
    try (apply andb_true_iff in H2; destruct H2 as [E2 L2]).
  - left. eapply num_lt_trans; eauto.
  - left. eapply num_lt_eq; eauto.
  - left. eapply num_eq_lt; eauto.
  - right. apply andb_true_iff. split.
    + eapply num_eq_trans; eauto.
    + eapply num_lt_trans; eauto.
Qed.

Lemma better_irrefl (s l : num) : better s l s l = false.
Proof.
  unfold better. rewrite !num_lt_irrefl_bool, andb_false_r. reflexivity.
Qed.

Lemma score_step_cases (w h : num) (s1 s2 : num) (best : option (nat * Rect))
      (ir : nat * Rect) :
  BinOps.score_step w h (s1, s2, best) ir
  = if holds (snd ir) w h
       && better (shortSide (snd ir) w h) (longSide (snd ir) w h) s1 s2
    then (shortSide (snd ir) w h, longSide (snd ir) w h, Some ir)
    else (s1, s2, best).
Proof.
  unfold BinOps.score_step, holds, better, shortSide, longSide.
  destruct ((rwidth (snd ir) >=? w) && (rheight (snd ir) >=? h))%num; reflexivity.
Qed.

Lemma score_fold_some (w h : num) (l : list (nat * Rect)) :
  forall u v k, snd (fold_left (BinOps.score_step w h) l (u, v, Some k)) <> None.
Proof.
  induction l as [|jr l IHl]; intros u v k; cbn [fold_left]; [discriminate|].
  rewrite score_step_cases.
  destruct (holds (snd jr) w h
            && better (shortSide (snd jr) w h) (longSide (snd jr) w h) u v);
    apply IHl.
Qed.

(** The running best of [score] only improves, is never beaten by a
    rectangle already seen, and carries the scores of its rectangle. *)
Lemma score_fold_best (w h : num) (l : list (nat * Rect)) :
  forall s1 s2 best,
    let st' := fold_left (BinOps.score_step w h) l (s1, s2, best) in
    (forall s l0, better s l0 s1 s2 = false ->
                  better s l0 (fst (fst st')) (snd (fst st')) = false)
    /\ (forall ir, In ir l -> holds (snd ir) w h = true ->
                   better (shortSide (snd ir) w h) (longSide (snd ir) w h)
                          (fst (fst st')) (snd (fst st')) = false)
    /\ ((forall x, best = Some x ->
                   s1 = shortSide (snd x) w h /\ s2 = longSide (snd x) w h) ->
        forall x, snd st' = Some x ->
                  fst (fst st') = shortSide (snd x) w h
                  /\ snd (fst st') = longSide (snd x) w h)
    /\ (snd st' = None -> fst (fst st') = s1 /\ snd (fst st') = s2).
Proof.
  induction l as [|ir l IH]; intros s1 s2 best; cbn [fold_left].
  - cbn. split; [auto|]. split; [intros ir []|]. split; [auto|]. intros _. auto.
  - rewrite score_step_cases.
    destruct (holds (snd ir) w h) eqn:Hh; cbn [andb].
    + destruct (better (shortSide (snd ir) w h) (longSide (snd ir) w h) s1 s2) eqn:Hb.
      * destruct (IH (shortSide (snd ir) w h) (longSide (snd ir) w h) (Some ir))
          as (A & B & C & D).
        split; [|split; [|split]].
        -- intros s l0 Hs. apply A.
           destruct (better s l0 (shortSide (snd ir) w h) (longSide (snd ir) w h))
                    eqn:E; [|reflexivity].
           rewrite (better_trans _ _ _ _ _ _ E Hb) in Hs. discriminate.
        -- intros x [Hx|Hx] Hhx; [subst x; apply A, better_irrefl|now apply B].
        -- intros _. apply C. intros x Ex. inversion Ex; subst. auto.
        -- intro Hn. exfalso. exact (score_fold_some _ _ _ _ _ _ Hn).
      * destruct (IH s1 s2 best) as (A & B & C & D).
        split; [assumption|]. split; [|split; assumption].
        intros x [Hx|Hx] Hhx; [subst x; now apply A|now apply B].
    + destruct (IH s1 s2 best) as (A & B & C & D).
      split; [assumption|]. split; [|split; assumption].
      intros x [Hx|Hx] Hhx; [subst x; congruence|now apply B].
Qed.

(** X4.  [score] is a best short side fit: the rectangle it returns is a
    free rectangle of the bin that holds the block, its scores are the short
    and the long leftover of that rectangle, and no free rectangle that
    holds the block scores better. *)
Theorem score_is_best_short_side_fit (b : Bin) (w h : num) (f : BinOps.Fit) :
  BinOps.score b w h = Some f ->
  In (BinOps.fit_rect f) (freeRects b)
  /\ holds (BinOps.fit_rect f) w h = true
  /\ BinOps.score1 f = shortSide (BinOps.fit_rect f) w h
  /\ BinOps.score2 f = longSide (BinOps.fit_rect f) w h
  /\ forall r, In r (freeRects b) -> holds r w h = true ->
               better (shortSide r w h) (longSide r w h)
                      (BinOps.score1 f) (BinOps.score2 f) = false.
Proof.
  intro H. destruct (score_spec _ _ _ H) as (Hn & Hw & Hh).
  split; [eapply nth_error_In; eauto|].
  split; [unfold holds, nge; apply andb_true_iff; split; assumption|].
  unfold BinOps.score in H.
  pose proof (@score_fold_best w h (BinOps.indexed (freeRects b))
                               Number_MAX_VALUE Number_MAX_VALUE None)
    as (_ & B & C & _).
  destruct (fold_left (BinOps.score_step w h) (BinOps.indexed (freeRects b))
                      (Number_MAX_VALUE, Number_MAX_VALUE, None))
    as [[s1 s2] [[i r]|]]; [|discriminate].
  inversion H; subst; clear H. cbn [BinOps.score1 BinOps.score2 BinOps.fit_rect] in *.
  cbn [fst snd] in *.
  destruct (C ltac:(discriminate) (i, r) eq_refl) as [E1 E2].
  split; [exact E1|]. split; [exact E2|].
  intros r0 Hr0 Hh0. apply In_nth_error in Hr0. destruct Hr0 as (j & Hj).
  apply (B (j, r0)); [|exact Hh0].
  apply (indexed_nth_In (freeRects b) 0 j Hj).
Qed.

Lemma score_is_best_short_side_fit_witness :
  exists f,
    In (BinOps.fit_rect f) (freeRects (BinOps.new 0 (Fin 120) (Fin 120)))
    /\ holds (BinOps.fit_rect f) (Fin 55) (Fin 55) = true
    /\ BinOps.score1 f = shortSide (BinOps.fit_rect f) (Fin 55) (Fin 55)
    /\ BinOps.score2 f = longSide (BinOps.fit_rect f) (Fin 55) (Fin 55)
    /\ forall r, In r (freeRects (BinOps.new 0 (Fin 120) (Fin 120))) ->
                 holds r (Fin 55) (Fin 55) = true ->
                 better (shortSide r (Fin 55) (Fin 55)) (longSide r (Fin 55) (Fin 55))
                        (BinOps.score1 f) (BinOps.score2 f) = false.
Proof.
  eexists.
  apply (@score_is_best_short_side_fit (BinOps.new 0 (Fin 120) (Fin 120))
                                       (Fin 55) (Fin 55)).
  vm_compute. reflexivity.
Defined.

Lemma score_fold_idle (w h : num) (l : list (nat * Rect)) (s1 s2 : num)
      (best : option (nat * Rect)) :
  (forall ir, In ir l -> holds (snd ir) w h = true ->
              better (shortSide (snd ir) w h) (longSide (snd ir) w h) s1 s2 = false) ->
  fold_left (BinOps.score_step w h) l (s1, s2, best) = (s1, s2, best).
Proof.
  induction l as [|ir l IH]; intro H; cbn [fold_left]; [reflexivity|].
  rewrite score_step_cases.
  destruct (holds (snd ir) w h) eqn:Hh; cbn [andb].
  - rewrite (H ir (or_introl eq_refl) Hh). apply IH. intros; apply H; simpl; auto.
  - apply IH. intros; apply H; simpl; auto.
Qed.

(** [score] finds nothing exactly when no free rectangle that holds the
    block has leftovers below the initial best, [Number.MAX_VALUE] twice. *)
Lemma score_none (b : Bin) (w h : num) :
  BinOps.score b w h = None <->
  forall r, In r (freeRects b) -> holds r w h = true ->
            better (shortSide r w h) (longSide r w h)
                   Number_MAX_VALUE Number_MAX_VALUE = false.
Proof.
  split.
  - unfold BinOps.score.
    pose proof (@score_fold_best w h (BinOps.indexed (freeRects b))
                                 Number_MAX_VALUE Number_MAX_VALUE None)
      as (_ & B & _ & D).
    destruct (fold_left (BinOps.score_step w h) (BinOps.indexed (freeRects b))
                        (Number_MAX_VALUE, Number_MAX_VALUE, None))
      as [[s1 s2] [[i r]|]] eqn:Ef; cbn [fst snd] in *; [discriminate|].
    intros _ r Hr Hh. destruct (D eq_refl) as [E1 E2]. subst s1 s2.
    apply In_nth_error in Hr. destruct Hr as (j & Hj).
    apply (B (j, r)); [|exact Hh]. apply (indexed_nth_In (freeRects b) 0 j Hj).
  - intro K. unfold BinOps.score. rewrite score_fold_idle; [reflexivity|].
    intros [j r] Hin Hh. cbn [snd] in *. apply K; [|exact Hh].
    apply indexed_In in Hin. eapply nth_error_In; eauto.
Qed.

(** A finite rectangle that holds a finite block always beats the initial
    best. *)
Lemma holding_rect_scores (r : Rect) (w h : Q) :
  isFinite (rwidth r) = true -> isFinite (rheight r) = true ->
  (rwidth r <= Number_MAX_VALUE)%num -> (rheight r <= Number_MAX_VALUE)%num ->
  (0 < w)%Q -> (0 < h)%Q ->
  holds r (Fin w) (Fin h) = true ->
  better (shortSide r (Fin w) (Fin h)) (longSide r (Fin w) (Fin h))
         Number_MAX_VALUE Number_MAX_VALUE = true.
Proof.
  unfold Number_MAX_VALUE. generalize MAX_VALUE as M.
  intros M Fw Fh Mw Mh Hw Hh Hold.
  destruct r as [x y [a| | |] [b| | |]]; try discriminate.
  unfold holds in Hold. cbn [rwidth rheight] in *.
  apply andb_true_iff in Hold. destruct Hold as [Ha Hb].
  unfold better, shortSide. cbn [rwidth rheight]. apply orb_true_iff. left.
  unfold nsub. cbn [nneg nadd Math_abs Math_min nle].
  unfold nge, num_le in *. cbn [nle] in Ha, Hb, Mw, Mh.
  apply Qle_bool_iff in Ha, Hb, Mw, Mh.
  destruct (Qle_bool (Qabs (a + - w)) (Qabs (b + - h))); cbn [nlt];
    apply Qlt_bool_iff; rewrite Qabs_pos by lra; lra.
Qed.

(** X5.  In a bin whose free rectangles have finite sides below
    [Number.MAX_VALUE], [insert] turns a valid slice away exactly when no
    free rectangle holds it in either orientation; the bin is then left as
    it was. *)
Theorem insert_fails_only_without_room (b : Bin) (slice : Slice) :
  finiteFree b -> validBounds slice = true ->
  let w := (b_width (bounds slice) + margin)%num in
  let h := (b_height (bounds slice) + margin)%num in
  (snd (BinOps.insert b slice margin) = false <->
   forall r, In r (freeRects b) -> holds r w h = false /\ holds r h w = false)
  /\ (snd (BinOps.insert b slice margin) = false ->
      fst (BinOps.insert b slice margin) = b).
Proof.
  intros Hfin Hv w h.
  pose proof (insert_items b slice margin) as Hitems.
  apply validBounds_spec in Hv. destruct Hv as (w0 & h0 & Ew & Eh & Hw & Hh).
  assert (Ew' : w = Fin (w0 + 5)) by (subst w; rewrite Ew; reflexivity).
  assert (Eh' : h = Fin (h0 + 5)) by (subst h; rewrite Eh; reflexivity).
  unfold finiteFree in Hfin. rewrite Forall_forall in Hfin.
  assert (Hscore : forall u v : Q, (0 < u)%Q -> (0 < v)%Q ->
             (BinOps.score b (Fin u) (Fin v) = None <->
              forall r, In r (freeRects b) -> holds r (Fin u) (Fin v) = false)).
  { intros u v Hu Hv'. rewrite score_none. split; intros K r Hr.
    - destruct (holds r (Fin u) (Fin v)) eqn:E; [|reflexivity].
      destruct (Hfin r Hr) as (F1 & F2 & M1 & M2).
      pose proof (K r Hr E) as K'.
      rewrite (holding_rect_scores r F1 F2 (num_lt_le M1) (num_lt_le M2) Hu Hv' E)
        in K'.
      discriminate.
    - intro E. rewrite (K r Hr) in E. discriminate. }
  assert (Hfail : snd (BinOps.insert b slice margin) = false <->
                  BinOps.score b w h = None /\ BinOps.score b h w = None).
  { unfold BinOps.insert. fold w h.
    destruct (BinOps.score b w h) as [n|], (BinOps.score b h w) as [r|];
      cbn [BinOps.decide];
      try match goal with |- context [if ?c then _ else _] => destruct c end;
      cbn [snd]; split; try discriminate; try tauto;
      intros [A B]; discriminate. }
  split.
  - rewrite Hfail, Ew', Eh', !Hscore by lra. split.
    + intros [A B] r Hr. split; auto.
    + intro K. split; intros r Hr; apply (K r Hr).
  - intro E. destruct (BinOps.insert b slice margin) as [b' ok].
    cbn [fst snd] in *. subst ok. exact Hitems.
Qed.

Lemma insert_fails_only_without_room_witness :
  let b := BinOps.new 0 (Fin 120) (Fin 120) in
  let w := (b_width (bounds bigSlice) + margin)%num in
  let h := (b_height (bounds bigSlice) + margin)%num in
  (snd (BinOps.insert b bigSlice margin) = false <->
   forall r, In r (freeRects b) -> holds r w h = false /\ holds r h w = false)
  /\ (snd (BinOps.insert b bigSlice margin) = false ->
      fst (BinOps.insert b bigSlice margin) = b).
Proof.
  apply (@insert_fails_only_without_room (BinOps.new 0 (Fin 120) (Fin 120)) bigSlice).
  - repeat constructor; vm_compute; reflexivity.
  - reflexivity.
Defined.

(** ** Slices of a mesh *)

(** What [sliceGeometry] returns is made of the levels' own data: the
    segments of a slice are the crossings at its height, its contours link
    them, its bounds are computed from them, and its id is the index of the
    level. *)
Lemma sliceLevel_data (pos : list Vector3) (axis : Axis) (mn step : num) (i : Z)
      (l : list Slice) (s : Slice) :
  sliceLevel pos axis mn step i = Some l -> In s l ->
  slice_id s = ofZ i
  /\ zHeight s = (mn + ofZ i * step)%num
  /\ segments s = levelSegments axis (zHeight s) pos
  /\ segments s <> []
  /\ linkSegments (segments s) EPSILON = Some (contours s)
  /\ bounds s = levelBounds axis (segments s).
Proof.
  unfold sliceLevel.
  destruct (levelSegments axis (mn + ofZ i * step)%num pos) as [|seg segs] eqn:E.
  - intro H; inversion H; subst. intros [].
  - destruct (linkSegments (seg :: segs) EPSILON) as [cs|] eqn:Ecs; [|discriminate].
    intro H; inversion H; subst; clear H. intros [<-|[]].
    cbn [slice_id zHeight segments contours bounds].
    repeat split; auto. discriminate.
Qed.

Lemma sliceLoop_levels (pos : list Vector3) (axis : Axis) (mn step n : num) :
  forall fuel i l,
    sliceLoop fuel pos axis mn step n i = Some l ->
    exists ks,
      Forall2 (fun s k => (ofZ k <=? n)%num = true
                          /\ sliceLevel pos axis mn step k = Some [s]) l ks
      /\ StronglySorted Z.lt ks
      /\ Forall (fun k => (i <= k)%Z) ks.
Proof.
  induction fuel as [|fuel IH]; intros i l H; cbn [sliceLoop] in H; [discriminate|].
  destruct (ofZ i <=? n)%num eqn:Hi.
  2:{ inversion H; subst. exists []. repeat constructor. }
  destruct (sliceLevel pos axis mn step i) as [here|] eqn:Eh; [|discriminate].
  destruct (sliceLoop fuel pos axis mn step n (i + 1)) as [later|] eqn:El;
    [|discriminate].
  inversion H; subst; clear H.
  destruct (IH _ _ El) as (ks & F2 & Hs & Hge).
  assert (Hge' : Forall (fun k => (i <= k)%Z) ks)
    by (eapply Forall_impl; [|exact Hge]; intros; cbn in *; lia).
  destruct (sliceLevel_spec pos axis mn step i) as (here' & Eh' & Hcase).
  rewrite Eh in Eh'. inversion Eh'; subst here'; clear Eh'.
  destruct Hcase as [->|(s & -> & _)].
  - exists ks. auto.
  - exists (i :: ks). split; [|split].
    + constructor; auto.
    + constructor; [assumption|].
      eapply Forall_impl; [|exact Hge]. intros; cbn in *; lia.
    + constructor; [lia|assumption].
Qed.

Lemma sliceGeometry_levels (pos : list Vector3) (axis : Axis) (n : num) (l : list Slice) :
  sliceGeometry pos axis n = Some l ->
  let mn := boxMin pos axis in
  let step := ((boxMax pos axis - boxMin pos axis) / (n + Fin 1))%num in
  exists ks,
    Forall2 (fun s k => (ofZ k <=? n)%num = true
                        /\ sliceLevel pos axis mn step k = Some [s]) l ks
    /\ StronglySorted Z.lt ks
    /\ Forall (fun k => (1 <= k)%Z) ks.
Proof.
  unfold sliceGeometry.
  destruct ((boxMax pos axis - boxMin pos axis <=? Fin 0) || (n <=? Fin 0))%num.
  - intro H; inversion H; subst. exists []. repeat constructor.
  - apply sliceLoop_levels.
Qed.

Lemma sliceGeometry_data (pos : list Vector3) (axis : Axis) (n : num)
      (l : list Slice) (s : Slice) :
  sliceGeometry pos axis n = Some l -> In s l ->
  segments s = levelSegments axis (zHeight s) pos
  /\ segments s <> []
  /\ linkSegments (segments s) EPSILON = Some (contours s)
  /\ bounds s = levelBounds axis (segments s).
Proof.
  intros H Hs. destruct (@sliceGeometry_levels _ _ _ _ H) as (ks & F2 & _ & _).
  clear H. induction F2 as [|s' k l ks [_ Hk] Hrest IH]; [contradiction|].
  destruct Hs as [<-|Hs]; [|auto].
  destruct (@sliceLevel_data _ _ _ _ _ _ _ Hk (or_introl eq_refl)) as (_ & _ & A & B & C & D).
  auto.
Qed.

(** X7.  The slices come out level by level: their ids are the indices of
    their levels, strictly increasing integers from 1 up to the count, and
    the slice of level [i] sits at [min + i * step]. *)
Theorem slices_are_numbered_by_level
        (pos : list Vector3) (axis : Axis) (n : num) (l : list Slice) :
  sliceGeometry pos axis n = Some l ->
  exists ks,
    map slice_id l = map ofZ ks
    /\ map zHeight l
       = map (fun k => (boxMin pos axis
                        + ofZ k * ((boxMax pos axis - boxMin pos axis) / (n + Fin 1)))%num)
             ks
    /\ StronglySorted Z.lt ks
    /\ Forall (fun k => (1 <= k)%Z /\ (ofZ k <= n)%num) ks.
Proof.
  intro H. destruct (@sliceGeometry_levels _ _ _ _ H) as (ks & F2 & Hs & Hge).
  exists ks. split; [|split; [|split; [exact Hs|]]].
  - clear - F2. induction F2 as [|s k l ks [_ Hk] _ IH]; [reflexivity|].
    cbn [map]. rewrite IH.
    destruct (@sliceLevel_data _ _ _ _ _ _ _ Hk (or_introl eq_refl)) as (-> & _).
    reflexivity.
  - clear - F2. induction F2 as [|s k l ks [_ Hk] _ IH]; [reflexivity|].
    cbn [map]. rewrite IH.
    destruct (@sliceLevel_data _ _ _ _ _ _ _ Hk (or_introl eq_refl)) as (_ & -> & _).
    reflexivity.
  - clear - F2 Hge. induction F2 as [|s k l ks [Hn _] _ IH]; [constructor|].
    inversion Hge; subst. constructor; [split; assumption|auto].
Qed.

Lemma slices_are_numbered_by_level_witness :
  exists l ks,
    sliceGeometry cube100 AxisZ (Fin 4) = Some l
    /\ map slice_id l = map ofZ ks
    /\ StronglySorted Z.lt ks
    /\ Forall (fun k => (1 <= k)%Z /\ (ofZ k <= Fin 4)%num) ks.
Proof.
  destruct (sliceGeometry cube100 AxisZ (Fin 4)) as [l|] eqn:E;
    [|vm_compute in E; discriminate].
  destruct (@slices_are_numbered_by_level cube100 AxisZ (Fin 4) l E)
    as (ks & A & _ & C & D).
  exists l, ks. auto.
Defined.

(** ** Contours follow segments *)

Lemma findNext_far (segs : list LineSegment) (epsilon : num) (used : list nat)
      (currentPoint : Vector3) (candidates : list nat) (i : nat) (far : Vector3) :
  findNext segs epsilon used currentPoint candidates = Some (i, far) ->
  exists seg,
    In seg segs
    /\ (((distanceToSquared (seg_start seg) currentPoint <? epsilon * epsilon)%num = true
         /\ far = seg_end seg)
        \/ ((distanceToSquared (seg_end seg) currentPoint <? epsilon * epsilon)%num = true
            /\ far = seg_start seg)).
Proof.
  induction candidates as [|c rest IH]; cbn [findNext]; [discriminate|].
  destruct (has used c); [exact IH|].
  destruct (nth_error segs c) as [seg|] eqn:Hn; [|exact IH].
  destruct (distanceToSquared (seg_start seg) currentPoint <? epsilon * epsilon)%num
    eqn:E1.
  - intro H; inversion H; subst. exists seg.
    split; [eapply nth_error_In; eauto|]. left. auto.
  - destruct (distanceToSquared (seg_end seg) currentPoint <? epsilon * epsilon)%num
      eqn:E2; [|exact IH].
    intro H; inversion H; subst. exists seg.
    split; [eapply nth_error_In; eauto|]. right. auto.
Qed.

Lemma grow_chain (segs : list LineSegment) (epsilon : num) (m : AdjMap) :
  forall fuel contour currentPoint used c u,
    grow fuel segs epsilon m contour currentPoint used = Some (c, u) ->
    exists more, c = contour ++ more /\ chain segs epsilon currentPoint more.
Proof.
  induction fuel as [|fuel IH]; intros contour cp used c u H; cbn [grow] in H;
    [discriminate|].
  destruct (mapGet m (hash epsilon cp)) as [cands|].
  2:{ inversion H; subst. exists []. rewrite app_nil_r. split; [reflexivity|exact I]. }
  destruct (findNext segs epsilon used cp cands) as [[i far]|] eqn:Ef.
  2:{ inversion H; subst. exists []. rewrite app_nil_r. split; [reflexivity|exact I]. }
  apply findNext_far in Ef.
  match type of H with (if ?t then _ else _) = _ => destruct t end.
  - inversion H; subst. exists [far]. split; [reflexivity|]. split; [exact Ef|exact I].
  - destruct (IH _ _ _ _ _ H) as (more & E & Hc). exists (far :: more).
    rewrite E, <- app_assoc. split; [reflexivity|]. split; [exact Ef|exact Hc].
Qed.

Lemma link_fold_chain (segs : list LineSegment) (epsilon : num) (m : AdjMap)
      (P : list Vector3 -> Prop) :
  (forall seg more, In seg segs -> chain segs epsilon (seg_end seg) more ->
                    P (seg_start seg :: seg_end seg :: more)) ->
  forall l cs used cs' used',
    (forall ix, In ix l -> In (snd ix) segs) ->
    Forall P cs ->
    fold_left (link_step segs epsilon m) l (Some (cs, used)) = Some (cs', used') ->
    Forall P cs'.
Proof.
  intros HP. induction l as [|[i seg] l IH]; intros cs used cs' used' Hl Hcs H;
    cbn [fold_left] in H.
  - inversion H; subst. exact Hcs.
  - cbn [link_step] in H. destruct (has used i).
    + eapply IH; eauto. intros; apply Hl; simpl; auto.
    + destruct (grow (S (length segs)) segs epsilon m
                     [seg_start seg; seg_end seg] (seg_end seg) (i :: used))
        as [[c u]|] eqn:Eg.
      * destruct (grow_chain _ _ _ _ _ _ _ Eg) as (more & Ec & Hc).
        eapply IH; [| |exact H]; [intros; apply Hl; simpl; auto|].
        apply Forall_app. split; [exact Hcs|]. constructor; [|constructor].
        subst c. apply HP; [|exact Hc]. apply (Hl (i, seg)). left. reflexivity.
      * exfalso. clear - H. induction l as [|x l IHl]; cbn [fold_left] in H;
          [discriminate|]. apply IHl. exact H.
Qed.

Lemma linkSegments_chains (segs : list LineSegment) (epsilon : num)
      (cs : list (list Vector3)) :
  linkSegments segs epsilon = Some cs ->
  Forall (fun c => exists seg more,
              In seg segs /\ c = seg_start seg :: seg_end seg :: more
              /\ chain segs epsilon (seg_end seg) more) cs.
Proof.
  unfold linkSegments.
  destruct (fold_left (link_step segs epsilon (buildMap epsilon segs))
                      (BinOps.indexed segs) (Some ([], [])))
    as [[cs' used]|] eqn:E; [|discriminate].
  intro H; inversion H; subst; clear H.
  eapply (@link_fold_chain segs epsilon (buildMap epsilon segs)
            (fun c => exists seg more,
                 In seg segs /\ c = seg_start seg :: seg_end seg :: more
                 /\ chain segs epsilon (seg_end seg) more)).
  - intros seg more Hs Hm. exists seg, more. auto.
  - intros [i seg] Hin. apply indexed_In in Hin. eapply nth_error_In; eauto.
  - constructor.
  - exact E.
Qed.

(** X8.  Every contour starts with the two ends of one input segment and
    goes on along segments: each further point is the far end of an input
    segment whose near end lies within epsilon of the point before. *)
Theorem contours_follow_segments
        (segs : list LineSegment) (epsilon : num) (cs : list (list Vector3))
        (c : list Vector3) :
  linkSegments segs epsilon = Some cs -> In c cs ->
  exists seg more,
    In seg segs
    /\ c = seg_start seg :: seg_end seg :: more
    /\ chain segs epsilon (seg_end seg) more.
Proof.
  intros H Hc. pose proof (linkSegments_chains _ _ H) as K.
  rewrite Forall_forall in K. exact (K c Hc).
Qed.

Lemma contours_follow_segments_witness :
  exists c seg more,
    linkSegments squareSegments EPSILON = Some [c]
    /\ In seg squareSegments
    /\ c = seg_start seg :: seg_end seg :: more
    /\ chain squareSegments EPSILON (seg_end seg) more.
Proof.
  destruct (linkSegments squareSegments EPSILON) as [cs|] eqn:E;
    [|vm_compute in E; discriminate].
  assert (Ecs : cs = [[pt 0 0 20; pt 100 0 20; pt 100 100 20; pt 0 100 20; pt 0 0 20]])
    by (vm_compute in E; inversion E; reflexivity).
  destruct (@contours_follow_segments squareSegments EPSILON cs
              [pt 0 0 20; pt 100 0 20; pt 100 100 20; pt 0 100 20; pt 0 0 20] E
              ltac:(rewrite Ecs; left; reflexivity))
    as (seg & more & A & B & C).
  eexists; exists seg, more. rewrite Ecs. repeat split; eauto.
Defined.

Lemma chain_points (segs : list LineSegment) (epsilon : num) :
  forall more prev p, chain segs epsilon prev more -> In p more ->
                      In p (endpoints segs).
Proof.
  induction more as [|q more IH]; intros prev p H Hp; [contradiction|].
  destruct H as [(seg & Hseg & Hcase) Hrest]. destruct Hp as [<-|Hp].
  - unfold endpoints. apply in_flat_map. exists seg. split; [assumption|].
    destruct Hcase as [[_ ->]|[_ ->]]; simpl; auto.
  - eapply IH; eauto.
Qed.

(** Every point of every contour is an end of an input segment. *)
Lemma contour_points_are_endpoints
      (segs : list LineSegment) (epsilon : num) (cs : list (list Vector3))
      (c : list Vector3) (p : Vector3) :
  linkSegments segs epsilon = Some cs -> In c cs -> In p c ->
  In p (endpoints segs).
Proof.
  intros H Hc Hp.
  pose proof (linkSegments_chains _ _ H) as K.
  rewrite Forall_forall in K. specialize (K c Hc).
  destruct K as (seg & more & Hseg & -> & Hchain).
  destruct Hp as [<-|[<-|Hp]].
  - unfold endpoints. apply in_flat_map. exists seg. simpl. auto.
  - unfold endpoints. apply in_flat_map. exists seg. simpl. auto.
  - eapply chain_points; eauto.
Qed.

(** ** Segments lie in the slicing plane *)

Lemma getVal_lerp (axis : Axis) (pA pB : Vector3) (t : num) :
  getVal (lerpVectors pA pB t) axis
  = (getVal pA axis + (getVal pB axis - getVal pA axis) * t)%num.
Proof. destruct axis; reflexivity. Qed.

Lemma finiteVec_getVal (v : Vector3) (axis : Axis) :
  finiteVec v -> isFinite (getVal v axis) = true.
Proof. intros (A & B & C). destruct axis; assumption. Qed.

Lemma okVertex_finite (v : Vector3) (axis : Axis) (L : num) :
  okVertex v -> (getVal v axis - L)%num <> NaN -> finiteVec v.
Proof.
  intros [F| ->] H; [exact F|]. exfalso. apply H. destruct axis; reflexivity.
Qed.

Lemma crossing_param (a b l : Q) :
  ((0 < a - l /\ b - l < 0) \/ (a - l < 0 /\ 0 < b - l))%Q ->
  ~ (a + - l + - (b + - l) == 0)%Q
  /\ (a + (b + - a) * ((a + - l) / (a + - l + - (b + - l))) + - l == 0)%Q.
Proof.
  intro H. assert (Hd : ~ (a + - l + - (b + - l) == 0)%Q) by (intro E; lra).
  split; [exact Hd|]. field. exact Hd.
Qed.

(** A crossing of an edge with the plane is a finite point of the plane. *)
Lemma edgeCrossing_onLevel (axis : Axis) (L : num) (pA pB : Vector3) :
  okVertex pA -> okVertex pB ->
  forall p,
    In p (edgeCrossing pA pB (getVal pA axis - L)%num (getVal pB axis - L)%num) ->
    onLevel axis L p.
Proof.
  intros HA HB p. unfold edgeCrossing.
  match goal with |- context [if ?t then _ else _] => destruct t eqn:E end;
    [|contradiction].
  intros [<-|[]].
  assert (NA : (getVal pA axis - L)%num <> NaN)
    by (intro K; rewrite K in E;
        destruct (getVal pB axis - L)%num; cbn in E; discriminate).
  assert (NB : (getVal pB axis - L)%num <> NaN)
    by (intro K; rewrite K in E;
        destruct (getVal pA axis - L)%num; cbn in E;
        rewrite ?andb_false_r in E; discriminate).
  pose proof (@okVertex_finite pA axis L HA NA) as FA.
  pose proof (@okVertex_finite pB axis L HB NB) as FB.
  pose proof (@finiteVec_getVal pA axis FA) as GA.
  pose proof (@finiteVec_getVal pB axis FB) as GB.
  unfold onLevel. rewrite getVal_lerp.
  destruct (getVal pA axis) as [a| | |] eqn:Ea; try discriminate.
  destruct (getVal pB axis) as [b| | |] eqn:Eb; try discriminate.
  destruct L as [l| | |]; try (cbn in E; discriminate).
  unfold nsub, ngt in *. cbn [nneg nadd nlt] in *.
  assert (Hs : ((0 < a - l /\ b - l < 0) \/ (a - l < 0 /\ 0 < b - l))%Q).
  { apply orb_true_iff in E. destruct E as [E|E]; apply andb_true_iff in E;
      destruct E as [E1 E2]; apply Qlt_bool_iff in E1, E2; [left|right]; split; lra. }
  destruct (@crossing_param a b l Hs) as [Hd Hz].
  apply Qeq_bool_false in Hd.
  split.
  - destruct FA as (A1 & A2 & A3), FB as (B1 & B2 & B3).
    destruct pA as [[xa| | |] [ya| | |] [za| | |]]; try discriminate.
    destruct pB as [[xb| | |] [yb| | |] [zb| | |]]; try discriminate.
    unfold finiteVec, lerpVectors, nsub. cbn [vx vy vz nneg nadd ndiv].
    rewrite Hd. cbn [nmul nadd isFinite]. auto.
  - cbn [ndiv]. rewrite Hd. cbn [nmul nadd Math_abs]. unfold EPSILON. cbn [nlt].
    apply Qlt_bool_iff. rewrite Hz. reflexivity.
Qed.

Lemma onPlane_onLevel (axis : Axis) (L : num) (v : Vector3) :
  okVertex v ->
  forall p, In p (onPlane v (getVal v axis - L)%num) -> onLevel axis L p.
Proof.
  intros Hv p. unfold onPlane.
  destruct (Math_abs (getVal v axis - L) <? EPSILON)%num eqn:E; [|contradiction].
  intros [<-|[]]. split; [|exact E].
  apply (@okVertex_finite v axis L Hv). intro K. rewrite K in E. discriminate.
Qed.

Lemma dedupe_incl (l : list Vector3) (p : Vector3) : In p (dedupe l) -> In p l.
Proof.
  unfold dedupe.
  assert (G : forall l acc, In p (fold_left
                (fun uniquePoints q =>
                   if existsb (fun existing =>
                                 (distanceToSquared existing q <? EPSILON * EPSILON)%num)
                              uniquePoints
                   then uniquePoints else uniquePoints ++ [q]) l acc) ->
              In p acc \/ In p l).
  { clear l. induction l as [|q l IH]; intros acc H; cbn [fold_left] in H; [auto|].
    apply IH in H. destruct H as [H|H]; [|right; right; exact H].
    destruct (existsb _ acc); [auto|].
    apply in_app_or in H. destruct H as [H|[<-|[]]]; [auto|]. right. left. reflexivity. }
  intro H. apply G in H. destruct H as [[]|H]. exact H.
Qed.

Lemma sliceTriangle_onLevel (axis : Axis) (L : num) (v1 v2 v3 : Vector3) :
  okVertex v1 -> okVertex v2 -> okVertex v3 ->
  forall p, In p (endpoints (sliceTriangle axis L (v1, v2, v3))) -> onLevel axis L p.
Proof.
  intros H1 H2 H3 p. unfold sliceTriangle.
  match goal with |- context [if ?t then _ else _] => destruct t end;
    [intros []|].
  match goal with
  | |- context [dedupe ?l] =>
      pose proof (fun q => @dedupe_incl l q) as Hincl;
      destruct (dedupe l) as [|p0 [|p1 [|p2 rest]]]
  end; try (solve [intros []]).
  intro Hp. assert (Hq : p = p0 \/ p = p1) by (simpl in Hp; intuition auto).
  assert (Hin : In p (edgeCrossing v1 v2 (getVal v1 axis - L)%num (getVal v2 axis - L)%num
                      ++ edgeCrossing v2 v3 (getVal v2 axis - L)%num (getVal v3 axis - L)%num
                      ++ edgeCrossing v3 v1 (getVal v3 axis - L)%num (getVal v1 axis - L)%num
                      ++ onPlane v1 (getVal v1 axis - L)%num
                      ++ onPlane v2 (getVal v2 axis - L)%num
                      ++ onPlane v3 (getVal v3 axis - L)%num)).
  { apply Hincl. destruct Hq as [->| ->]; simpl; auto. }
  repeat (apply in_app_or in Hin; destruct Hin as [Hin|Hin]);
    eauto using edgeCrossing_onLevel, onPlane_onLevel.
Qed.

Lemma triangles_ok (pos : list Vector3) :
  Forall finiteVec pos ->
  Forall (fun t => okVertex (fst (fst t)) /\ okVertex (snd (fst t)) /\ okVertex (snd t))
         (triangles pos).
Proof.
  assert (U : okVertex undefinedVec) by (right; reflexivity).
  assert (G : forall n pos, (length pos <= n)%nat -> Forall finiteVec pos ->
              Forall (fun t => okVertex (fst (fst t)) /\ okVertex (snd (fst t))
                               /\ okVertex (snd t)) (triangles pos)).
  { induction n as [|n IH]; intros l Hl Hf.
    - destruct l; [constructor|simpl in Hl; lia].
    - destruct l as [|v1 [|v2 [|v3 rest]]]; cbn [triangles].
      + constructor.
      + inversion Hf; subst.
        constructor; [cbn; repeat split; [left; assumption|exact U|exact U]|constructor].
      + inversion Hf as [|? ? F1 Hf']; subst. inversion Hf'; subst.
        constructor;
          [cbn; repeat split; [left; assumption|left; assumption|exact U]|constructor].
      + inversion Hf as [|? ? F1 Hf']; subst. inversion Hf' as [|? ? F2 Hf'']; subst.
        inversion Hf'' as [|? ? F3 Hrest]; subst.
        constructor; [cbn; repeat split; left; assumption|].
        apply IH; [simpl in Hl; lia|assumption]. }
  apply (G (length pos)). lia.
Qed.

Lemma levelSegments_onLevel (axis : Axis) (L : num) (pos : list Vector3) :
  Forall finiteVec pos ->
  forall p, In p (endpoints (levelSegments axis L pos)) -> onLevel axis L p.
Proof.
  intros Hf p Hp. unfold endpoints, levelSegments in Hp.
  apply in_flat_map in Hp. destruct Hp as (seg & Hseg & Hp).
  apply in_flat_map in Hseg. destruct Hseg as ([[v1 v2] v3] & Ht & Hseg).
  pose proof (@triangles_ok pos Hf) as Hok. rewrite Forall_forall in Hok.
  destruct (Hok _ Ht) as (O1 & O2 & O3). cbn [fst snd] in *.
  apply (@sliceTriangle_onLevel axis L v1 v2 v3 O1 O2 O3).
  unfold endpoints. apply in_flat_map. exists seg. auto.
Qed.

(** X9.  For a mesh with finite vertices, every end of every segment of a
    slice, and so every point of its contours, is a finite point within
    [EPSILON] of the slice's plane on the slicing axis. *)
Theorem slice_points_lie_on_plane
        (pos : list Vector3) (axis : Axis) (n : num) (l : list Slice) (s : Slice) :
  Forall finiteVec pos ->
  sliceGeometry pos axis n = Some l -> In s l ->
  (forall p, In p (endpoints (segments s)) -> onLevel axis (zHeight s) p)
  /\ (forall c p, In c (contours s) -> In p c -> onLevel axis (zHeight s) p).
Proof.
  intros Hf H Hs.
  destruct (@sliceGeometry_data pos axis n l s H Hs) as (Eseg & _ & Elink & _).
  assert (A : forall p, In p (endpoints (segments s)) -> onLevel axis (zHeight s) p).
  { intros p Hp. rewrite Eseg in Hp. eapply levelSegments_onLevel; eauto. }
  split; [exact A|]. intros c p Hc Hp. apply A.
  eapply contour_points_are_endpoints; eauto.
Qed.

Lemma slice_points_lie_on_plane_witness :
  exists l s,
    sliceGeometry cube100 AxisZ (Fin 4) = Some l /\ In s l
    /\ (forall p, In p (endpoints (segments s)) -> onLevel AxisZ (zHeight s) p)
    /\ (forall c p, In c (contours s) -> In p c -> onLevel AxisZ (zHeight s) p).
Proof.
  destruct (sliceGeometry cube100 AxisZ (Fin 4)) as [[|s l]|] eqn:E;
    try (vm_compute in E; discriminate).
  exists (s :: l), s. split; [reflexivity|]. split; [left; reflexivity|].
  apply (@slice_points_lie_on_plane cube100 AxisZ (Fin 4) (s :: l) s).
  - repeat constructor.
  - exact E.
  - left. reflexivity.
Defined.

(** ** Bounds of a slice *)

Lemma fold_min_spec (l : list num) :
  Forall (fun v => isFinite v = true) l ->
  forall m0, (m0 = PInf \/ isFinite m0 = true) ->
    let m := fold_left Math_min l m0 in
    (m <= m0)%num
    /\ (forall v, In v l -> (m <= v)%num)
    /\ (m = m0 \/ In m l).
Proof.
  induction 1 as [|v l Hv Hl IH]; intros m0 H0; cbn [fold_left].
  - cbn. split; [destruct H0 as [->|H0]; [reflexivity|destruct m0; try discriminate;
                                                    num_solve]|].
    split; [intros v []|auto].
  - assert (Hm : Math_min m0 v = PInf \/ isFinite (Math_min m0 v) = true).
    { right. destruct v; try discriminate.
      destruct H0 as [->|H0]; [reflexivity|]. destruct m0; try discriminate.
      cbn. destruct (Qle_bool q0 q); reflexivity. }
    destruct (IH (Math_min m0 v) Hm) as (A & B & C).
    assert (K1 : (Math_min m0 v <= m0)%num /\ (Math_min m0 v <= v)%num
                 /\ (Math_min m0 v = m0 \/ Math_min m0 v = v)).
    { destruct v as [q| | |]; try discriminate.
      destruct H0 as [->|H0].
      - cbn. repeat split; auto; num_solve.
      - destruct m0 as [q0| | |]; try discriminate. cbn.
        destruct (Qle_bool q0 q) eqn:E; repeat split; auto; num_solve. }
    destruct K1 as (K1 & K2 & K3).
    split; [exact (num_le_trans A K1)|]. split.
    + intros w [<-|Hw]; [exact (num_le_trans A K2)|auto].
    + destruct C as [C|C]; [|right; right; exact C].
      rewrite C. destruct K3 as [->| ->]; [left; reflexivity|right; left; reflexivity].
Qed.

Lemma fold_max_spec (l : list num) :
  Forall (fun v => isFinite v = true) l ->
  forall m0, (m0 = NInf \/ isFinite m0 = true) ->
    let m := fold_left Math_max l m0 in
    (m0 <= m)%num
    /\ (forall v, In v l -> (v <= m)%num)
    /\ (m = m0 \/ In m l).
Proof.
  induction 1 as [|v l Hv Hl IH]; intros m0 H0; cbn [fold_left].
  - cbn. split; [destruct H0 as [->|H0]; [reflexivity|destruct m0; try discriminate;
                                                    num_solve]|].
    split; [intros v []|auto].
  - assert (Hm : Math_max m0 v = NInf \/ isFinite (Math_max m0 v) = true).
    { right. destruct v; try discriminate.
      destruct H0 as [->|H0]; [reflexivity|]. destruct m0; try discriminate.
      cbn. destruct (Qle_bool q0 q); reflexivity. }
    destruct (IH (Math_max m0 v) Hm) as (A & B & C).
    assert (K1 : (m0 <= Math_max m0 v)%num /\ (v <= Math_max m0 v)%num
                 /\ (Math_max m0 v = m0 \/ Math_max m0 v = v)).
    { destruct v as [q| | |]; try discriminate.
      destruct H0 as [->|H0].
      - cbn. repeat split; auto; num_solve.
      - destruct m0 as [q0| | |]; try discriminate. cbn.
        destruct (Qle_bool q0 q) eqn:E; repeat split; auto; num_solve. }
    destruct K1 as (K1 & K2 & K3).
    split; [exact (num_le_trans K1 A)|]. split.
    + intros w [<-|Hw]; [exact (num_le_trans K2 A)|auto].
    + destruct C as [C|C]; [|right; right; exact C].
      rewrite C. destruct K3 as [->| ->]; [left; reflexivity|right; left; reflexivity].
Qed.

(** The four running extremes of [levelBounds], one by one. *)
Lemma levelBounds_fold (axis : Axis) (segs : list LineSegment) :
  forall a b c d,
    fold_left
      (fun (st : num * num * num * num) seg =>
         let '(mnX, mnY, mxX, mxY) := st in
         let s := get2D axis (seg_start seg) in
         let e := get2D axis (seg_end seg) in
         (Math_min (Math_min mnX (fst s)) (fst e),
          Math_min (Math_min mnY (snd s)) (snd e),
          Math_max (Math_max mxX (fst s)) (fst e),
          Math_max (Math_max mxY (snd s)) (snd e)))
      segs (a, b, c, d)
    = (fold_left Math_min (map (fun p => fst (get2D axis p)) (endpoints segs)) a,
       fold_left Math_min (map (fun p => snd (get2D axis p)) (endpoints segs)) b,
       fold_left Math_max (map (fun p => fst (get2D axis p)) (endpoints segs)) c,
       fold_left Math_max (map (fun p => snd (get2D axis p)) (endpoints segs)) d).
Proof.
  induction segs as [|seg segs IH]; intros a b c d; [reflexivity|].
  cbn [fold_left endpoints flat_map app map]. rewrite IH. reflexivity.
Qed.

Lemma finiteVec_get2D (axis : Axis) (p : Vector3) :
  finiteVec p ->
  isFinite (fst (get2D axis p)) = true /\ isFinite (snd (get2D axis p)) = true.
Proof. intros (A & B & C). destruct axis; cbn; auto. Qed.

(** The bounds computed for a level are the exact extremes of the 2D
    projections of its segment ends. *)
Lemma levelBounds_exact (axis : Axis) (segs : list LineSegment) :
  Forall finiteVec (endpoints segs) -> segs <> [] ->
  let b := levelBounds axis segs in
  (forall p, In p (endpoints segs) -> inBounds b (get2D axis p))
  /\ (exists p, In p (endpoints segs) /\ minX b = fst (get2D axis p))
  /\ (exists p, In p (endpoints segs) /\ maxX b = fst (get2D axis p))
  /\ (exists p, In p (endpoints segs) /\ minY b = snd (get2D axis p))
  /\ (exists p, In p (endpoints segs) /\ maxY b = snd (get2D axis p))
  /\ b_width b = (maxX b - minX b)%num
  /\ b_height b = (maxY b - minY b)%num.
Proof.
  intros Hf Hne. unfold levelBounds. rewrite levelBounds_fold. cbn zeta.
  cbn [minX maxX minY maxY b_width b_height].
  set (xs := map (fun p => fst (get2D axis p)) (endpoints segs)).
  set (ys := map (fun p => snd (get2D axis p)) (endpoints segs)).
  assert (Fx : Forall (fun v => isFinite v = true) xs).
  { subst xs. apply Forall_forall. intros v Hv. apply in_map_iff in Hv.
    destruct Hv as (p & <- & Hp). rewrite Forall_forall in Hf.
    apply (finiteVec_get2D axis (Hf p Hp)). }
  assert (Fy : Forall (fun v => isFinite v = true) ys).
  { subst ys. apply Forall_forall. intros v Hv. apply in_map_iff in Hv.
    destruct Hv as (p & <- & Hp). rewrite Forall_forall in Hf.
    apply (finiteVec_get2D axis (Hf p Hp)). }
  destruct (fold_min_spec Fx (or_introl eq_refl)) as (_ & A1 & A2).
  destruct (fold_min_spec Fy (or_introl eq_refl)) as (_ & B1 & B2).
  destruct (fold_max_spec Fx (or_introl eq_refl)) as (_ & C1 & C2).
  destruct (fold_max_spec Fy (or_introl eq_refl)) as (_ & D1 & D2).
  assert (Hp0 : exists p0, In p0 (endpoints segs)).
  { destruct segs as [|seg segs]; [congruence|]. exists (seg_start seg). simpl. auto. }
  destruct Hp0 as (p0 & Hp0).
  assert (Nx : forall m, In m xs -> exists p, In p (endpoints segs) /\ m = fst (get2D axis p)).
  { intros m Hm. subst xs. apply in_map_iff in Hm. destruct Hm as (p & <- & Hp). eauto. }
  assert (Ny : forall m, In m ys -> exists p, In p (endpoints segs) /\ m = snd (get2D axis p)).
  { intros m Hm. subst ys. apply in_map_iff in Hm. destruct Hm as (p & <- & Hp). eauto. }
  assert (Ix : In (fst (get2D axis p0)) xs) by (subst xs; apply in_map_iff; eauto).
  assert (Iy : In (snd (get2D axis p0)) ys) by (subst ys; apply in_map_iff; eauto).
  split; [|split; [|split; [|split; [|split; [|split; reflexivity]]]]].
  - intros p Hp. unfold inBounds. cbn [minX maxX minY maxY].
    assert (In (fst (get2D axis p)) xs) by (subst xs; apply in_map_iff; eauto).
    assert (In (snd (get2D axis p)) ys) by (subst ys; apply in_map_iff; eauto).
    repeat split; auto.
  - destruct A2 as [E|E]; [|auto]. exfalso. specialize (A1 _ Ix). rewrite E in A1.
    rewrite Forall_forall in Fx. specialize (Fx _ Ix).
    destruct (fst (get2D axis p0)); discriminate.
  - destruct C2 as [E|E]; [|auto]. exfalso. specialize (C1 _ Ix). rewrite E in C1.
    rewrite Forall_forall in Fx. specialize (Fx _ Ix).
    destruct (fst (get2D axis p0)); discriminate.
  - destruct B2 as [E|E]; [|auto]. exfalso. specialize (B1 _ Iy). rewrite E in B1.
    rewrite Forall_forall in Fy. specialize (Fy _ Iy).
    destruct (snd (get2D axis p0)); discriminate.
  - destruct D2 as [E|E]; [|auto]. exfalso. specialize (D1 _ Iy). rewrite E in D1.
    rewrite Forall_forall in Fy. specialize (Fy _ Iy).
    destruct (snd (get2D axis p0)); discriminate.
Qed.

(** X10.  For a mesh with finite vertices the bounds of every slice are the
    exact extremes of the 2D projections of its segment ends: every end is
    inside the box, each side of the box is attained by some end, and width
    and height are the differences of the extremes. *)
Theorem slice_bounds_are_exact
        (pos : list Vector3) (axis : Axis) (n : num) (l : list Slice) (s : Slice) :
  Forall finiteVec pos ->
  sliceGeometry pos axis n = Some l -> In s l ->
  let b := bounds s in
  (forall p, In p (endpoints (segments s)) -> inBounds b (get2D axis p))
  /\ (exists p, In p (endpoints (segments s)) /\ minX b = fst (get2D axis p))
  /\ (exists p, In p (endpoints (segments s)) /\ maxX b = fst (get2D axis p))
  /\ (exists p, In p (endpoints (segments s)) /\ minY b = snd (get2D axis p))
  /\ (exists p, In p (endpoints (segments s)) /\ maxY b = snd (get2D axis p))
  /\ b_width b = (maxX b - minX b)%num
  /\ b_height b = (maxY b - minY b)%num.
Proof.
  intros Hf H Hs.
  destruct (@sliceGeometry_data pos axis n l s H Hs) as (Eseg & Hne & _ & Eb).
  cbn zeta. rewrite Eb. apply levelBounds_exact; [|exact Hne].
  apply Forall_forall. intros p Hp. rewrite Eseg in Hp.
  exact (proj1 (@levelSegments_onLevel axis (zHeight s) pos Hf p Hp)).
Qed.

Lemma slice_bounds_are_exact_witness :
  exists l s,
    sliceGeometry cube100 AxisZ (Fin 4) = Some l /\ In s l
    /\ (forall p, In p (endpoints (segments s)) -> inBounds (bounds s) (get2D AxisZ p))
    /\ b_width (bounds s) = (maxX (bounds s) - minX (bounds s))%num.
Proof.
  destruct (sliceGeometry cube100 AxisZ (Fin 4)) as [[|s l]|] eqn:E;
    try (vm_compute in E; discriminate).
  exists (s :: l), s. split; [reflexivity|]. split; [left; reflexivity|].
  destruct (@slice_bounds_are_exact cube100 AxisZ (Fin 4) (s :: l) s
              ltac:(repeat constructor) E (or_introl eq_refl))
    as (A & _ & _ & _ & _ & B & _).
  split; assumption.
Defined.

(** ** Point in polygon *)

Lemma polyLoop_xor (pt : Point2D) (rest : list Point2D) :
  forall prev inside,
    polyLoop pt prev rest inside = xorb inside (polyLoop pt prev rest false).
Proof.
  induction rest as [|cur rest IH]; intros prev inside; cbn [polyLoop].
  - now rewrite xorb_false_r.
  - rewrite (IH cur (if rayCrosses pt cur prev then negb inside else inside)).
    rewrite (IH cur (if rayCrosses pt cur prev then negb false else false)).
    destruct (rayCrosses pt cur prev), inside, (polyLoop pt cur rest false); reflexivity.
Qed.

Lemma isPointInPoly_fold (pt : Point2D) (contours : list (list Point2D)) :
  forall inside,
    fold_left (fun inside poly => polyLoop pt (last poly undefinedPoint) poly inside)
              contours inside
    = xorb inside (isPointInPoly pt contours).
Proof.
  unfold isPointInPoly. induction contours as [|c cs IH]; intro inside; cbn [fold_left].
  - now rewrite xorb_false_r.
  - rewrite IH, (IH (polyLoop pt (last c undefinedPoint) c false)).
    rewrite (polyLoop_xor pt c (last c undefinedPoint) inside).
    now rewrite xorb_assoc.
Qed.

(** X11.  Even-odd rule: a point is inside a set of contours exactly when
    it is inside an odd number of them, so putting two contour sets together
    combines their answers by exclusive or (a hole takes its inside out of
    the outer contour). *)
Theorem isPointInPoly_even_odd (pt : Point2D) (cs1 cs2 : list (list Point2D)) :
  isPointInPoly pt (cs1 ++ cs2)
  = xorb (isPointInPoly pt cs1) (isPointInPoly pt cs2).
Proof.
  unfold isPointInPoly at 1. rewrite fold_left_app.
  fold (isPointInPoly pt cs1). apply isPointInPoly_fold.
Qed.

Lemma Qlt_bool_compat (x a b : Q) : (a == b)%Q -> Qlt_bool x a = Qlt_bool x b.
Proof. intro E. unfold Qlt_bool. now rewrite E. Qed.

(** A horizontal edge is never crossed. *)
Lemma rayCrosses_level_edge (pt pi pj : Point2D) :
  p2y pi = p2y pj -> rayCrosses pt pi pj = false.
Proof.
  intro E. unfold rayCrosses. rewrite E, xorb_nilpotent. reflexivity.
Qed.

(** A vertical edge at [xe] is crossed when the point is left of it and at
    the height of the edge, the lower end included. *)
Lemma rayCrosses_upright_edge (x y xe ya yb : Q) :
  ~ (ya == yb)%Q ->
  rayCrosses (mkPoint2D (Fin x) (Fin y)) (mkPoint2D (Fin xe) (Fin ya))
             (mkPoint2D (Fin xe) (Fin yb))
  = xorb (Qlt_bool y ya) (Qlt_bool y yb) && Qlt_bool x xe.
Proof.
  intro H. unfold rayCrosses, ngt, nsub. cbn [p2x p2y nneg nadd nmul nlt ndiv].
  assert (D : Qeq_bool (yb + - ya) 0 = false) by (qprop; intro K; apply H; lra).
  rewrite D. cbn [nadd nlt].
  rewrite (@Qlt_bool_compat x ((xe + - xe) * (y + - ya) / (yb + - ya) + xe) xe);
    [reflexivity|].
  field. intro K. apply H. lra.
Qed.

(** X12.  For an axis-aligned rectangle with corners [(x0, y0)] and
    [(x1, y1)], [x0 < x1] and [y0 < y1], the test answers "inside" exactly
    on the half-open box [x0 <= x < x1], [y0 <= y < y1]: the left and lower
    sides count as inside, the right and upper sides do not. *)
Theorem isPointInPoly_rectangle (x0 y0 x1 y1 x y : Q) :
  (x0 < x1)%Q -> (y0 < y1)%Q ->
  (isPointInPoly (mkPoint2D (Fin x) (Fin y)) [rectangle x0 y0 x1 y1] = true
   <-> (x0 <= x /\ x < x1 /\ y0 <= y /\ y < y1)%Q).
Proof.
  intros Hx Hy. unfold isPointInPoly, rectangle.
  cbn [fold_left last polyLoop].
  rewrite (@rayCrosses_upright_edge x y x0 y0 y1) by lra.
  rewrite (@rayCrosses_level_edge _ (mkPoint2D (Fin x1) (Fin y0))
                                  (mkPoint2D (Fin x0) (Fin y0)) eq_refl).
  rewrite (@rayCrosses_upright_edge x y x1 y1 y0) by lra.
  rewrite (@rayCrosses_level_edge _ (mkPoint2D (Fin x0) (Fin y1))
                                  (mkPoint2D (Fin x1) (Fin y1)) eq_refl).
  destruct (Qlt_bool y y0) eqn:A; destruct (Qlt_bool y y1) eqn:B;
    destruct (Qlt_bool x x0) eqn:C; destruct (Qlt_bool x x1) eqn:D;
    cbn; qprop; split; intro K; try discriminate; try reflexivity;
    try lra; try (exfalso; lra).
Qed.

Lemma isPointInPoly_rectangle_witness :
  isPointInPoly (mkPoint2D (Fin 5) (Fin 5)) [rectangle 0 0 10 10] = true
  <-> (0 <= 5 /\ 5 < 10 /\ 0 <= 5 /\ 5 < 10)%Q.
Proof.
  apply (@isPointInPoly_rectangle 0 0 10 10 5 5); reflexivity.
Defined.

Lemma polyLoop_crossing (pt : Point2D) (poly : list Point2D) :
  forall rest prev inside,
    In prev poly -> incl rest poly ->
    polyLoop pt prev rest inside <> inside ->
    exists pi pj, In pi poly /\ In pj poly /\ rayCrosses pt pi pj = true.
Proof.
  induction rest as [|cur rest IH]; intros prev inside Hp Hr H; cbn [polyLoop] in H;
    [congruence|].
  assert (Hc : In cur poly) by (apply Hr; left; reflexivity).
  destruct (rayCrosses pt cur prev) eqn:E.
  - exists cur, prev. auto.
  - apply (IH cur inside Hc); [|exact H]. intros q Hq. apply Hr. right. exact Hq.
Qed.

Lemma last_In (A : Type) (l : list A) (d : A) : l <> [] -> In (last l d) l.
Proof.
  induction l as [|a l IH]; intro H; [congruence|].
  destruct l as [|b l]; [left; reflexivity|].
  right. apply IH. discriminate.
Qed.

Lemma contours_crossing (pt : Point2D) (contours : list (list Point2D)) :
  forall inside,
    fold_left (fun inside poly => polyLoop pt (last poly undefinedPoint) poly inside)
              contours inside <> inside ->
    exists c pi pj, In c contours /\ In pi c /\ In pj c /\ rayCrosses pt pi pj = true.
Proof.
  induction contours as [|c cs IH]; intros inside H; cbn [fold_left] in H; [congruence|].
  destruct (Bool.bool_dec (polyLoop pt (last c undefinedPoint) c inside) inside) as [E|E].
  - rewrite E in H. destruct (IH inside H) as (c0 & pi & pj & Hc & K).
    exists c0, pi, pj. split; [right; exact Hc|exact K].
  - destruct c as [|v c']; [cbn in E; congruence|].
    destruct (@polyLoop_crossing pt (v :: c') (v :: c') (last (v :: c') undefinedPoint)
                inside (@last_In _ (v :: c') undefinedPoint ltac:(discriminate))
                (incl_refl _) E) as (pi & pj & Hi & Hj & Hx).
    exists (v :: c'), pi, pj. split; [left; reflexivity|auto].
Qed.

(** A crossed edge has one end above the point and one not above it. *)
Lemma rayCrosses_extent (pt pi pj : Point2D) :
  rayCrosses pt pi pj = true ->
  ((p2y pt < p2y pi)%num /\ ~ (p2y pt < p2y pj)%num)
  \/ ((p2y pt < p2y pj)%num /\ ~ (p2y pt < p2y pi)%num).
Proof.
  unfold rayCrosses, ngt, num_lt. intro H.
  apply andb_true_iff in H. destruct H as [Hy _].
  destruct (p2y pt <? p2y pi)%num, (p2y pt <? p2y pj)%num; try discriminate;
    [left|right]; split; congruence.
Qed.

(** X13.  A point that tests inside a set of contours lies within their
    vertical extent: some vertex of the contours is strictly above it and
    some vertex is not. *)
Theorem isPointInPoly_within_extent
        (pt : Point2D) (contours : list (list Point2D)) :
  isPointInPoly pt contours = true ->
  (exists v, In v (concat contours) /\ (p2y pt <? p2y v)%num = true)
  /\ (exists v, In v (concat contours) /\ (p2y pt <? p2y v)%num = false).
Proof.
  intros H.
  destruct (@contours_crossing pt contours false) as (c & pi & pj & Hc & Hi & Hj & Hx).
  { unfold isPointInPoly in H. rewrite H. discriminate. }
  assert (Ci : In pi (concat contours)) by (apply in_concat; eauto).
  assert (Cj : In pj (concat contours)) by (apply in_concat; eauto).
  unfold num_lt in *.
  destruct (rayCrosses_extent _ _ _ Hx) as [[A B]|[A B]]; unfold num_lt in A, B.
  - split; [exists pi|exists pj]; (split; [assumption|]);
      [exact A|destruct (p2y pt <? p2y pj)%num; congruence].
  - split; [exists pj|exists pi]; (split; [assumption|]);
      [exact A|destruct (p2y pt <? p2y pi)%num; congruence].
Qed.

Lemma isPointInPoly_within_extent_witness :
  isPointInPoly (mkPoint2D (Fin 5) (Fin 5)) [rectangle 0 0 10 10] = true
  /\ (exists v, In v (concat [rectangle 0 0 10 10])
                /\ (p2y (mkPoint2D (Fin 5) (Fin 5)) <? p2y v)%num = true)
  /\ (exists v, In v (concat [rectangle 0 0 10 10])
                /\ (p2y (mkPoint2D (Fin 5) (Fin 5)) <? p2y v)%num = false).
Proof.
  split; [reflexivity|].
  apply (@isPointInPoly_within_extent (mkPoint2D (Fin 5) (Fin 5)) [rectangle 0 0 10 10]).
  reflexivity.
Defined.

(** ** Clipping lines against contours *)

Lemma edgeHit_unit (line edge : Segment2D) (r : num) :
  In r (edgeHit line edge) -> unitParam r.
Proof.
  unfold edgeHit. cbv zeta.
  match goal with |- context [if negb ?t then _ else _] => destruct t end;
    cbn [negb]; [intros []|].
  match goal with |- context [if ?t then _ else _] => destruct t eqn:E end;
    [|intros []].
  intros [<-|[]]. unfold unitParam, num_le, nge in *.
  apply andb_true_iff in E. destruct E as [E _].
  apply andb_true_iff in E. destruct E as [E _].
  apply andb_true_iff in E. destruct E as [E1 E2]. auto.
Qed.

Lemma uniqueParams_incl (l : list num) (t : num) : In t (uniqueParams l) -> In t l.
Proof.
  unfold uniqueParams. destruct l as [|t0 rest]; [intros []|].
  assert (G : forall rest acc,
             In t (fold_left
                     (fun uniqueT t =>
                        if (t - last uniqueT NaN >? tolerance)%num
                        then uniqueT ++ [t] else uniqueT) rest acc) ->
             In t acc \/ In t rest).
  { clear. induction rest as [|q rest IH]; intros acc H; cbn [fold_left] in H; [auto|].
    apply IH in H. destruct H as [H|H]; [|right; right; exact H].
    destruct (q - last acc NaN >? tolerance)%num; [|auto].
    apply in_app_or in H. destruct H as [H|[<-|[]]]; [auto|]. right. left. reflexivity. }
  intro H. apply G in H. destruct H as [[<-|[]]|H]; [left; reflexivity|right; exact H].
Qed.

Lemma gapped_snoc (acc : list num) (t : num) :
  gapped acc -> (t - last acc NaN >? tolerance)%num = true -> gapped (acc ++ [t]).
Proof.
  induction acc as [|a acc IH]; intros G H; [exact I|].
  destruct acc as [|b acc'].
  - cbn [app gapped last] in *. split; [exact H|exact I].
  - destruct G as [G1 G2]. change ((a :: b :: acc') ++ [t]) with (a :: (b :: acc') ++ [t]).
    change (gapped (a :: (b :: acc') ++ [t]))
      with ((b - a >? tolerance)%num = true /\ gapped ((b :: acc') ++ [t])).
    split; [exact G1|]. apply IH; [exact G2|exact H].
Qed.

Lemma uniqueParams_gapped (l : list num) : gapped (uniqueParams l).
Proof.
  unfold uniqueParams. destruct l as [|t0 rest]; [exact I|].
  assert (G : forall rest acc,
             gapped acc ->
             gapped (fold_left
                       (fun uniqueT t =>
                          if (t - last uniqueT NaN >? tolerance)%num
                          then uniqueT ++ [t] else uniqueT) rest acc)).
  { clear. induction rest as [|q rest IH]; intros acc H; cbn [fold_left]; [exact H|].
    apply IH. destruct (q - last acc NaN >? tolerance)%num eqn:E; [|exact H].
    apply gapped_snoc; assumption. }
  apply G. exact I.
Qed.

Lemma keptIntervals_spec (line : Segment2D) (cs : list (list Point2D)) :
  forall u o,
    gapped u ->
    In o (keptIntervals line cs u) ->
    exists tStart tEnd,
      In tStart u /\ In tEnd u
      /\ (tEnd - tStart >? tolerance)%num = true
      /\ isPointInPoly (pointAt line ((tStart + tEnd) / Fin 2)%num) cs = true
      /\ o = mkSegment2D (pointAt line tStart) (pointAt line tEnd).
Proof.
  induction u as [|tStart u IH]; intros o G H; [contradiction|].
  destruct u as [|tEnd u']; [contradiction|].
  destruct G as [G1 G2].
  cbn [keptIntervals] in H. apply in_app_or in H. destruct H as [H|H].
  - destruct (tEnd - tStart <? tolerance)%num eqn:E; [contradiction|].
    match type of H with
    | In _ (if ?t then _ else _) => destruct t eqn:Ein
    end; [|contradiction].
    destruct H as [<-|[]]. exists tStart, tEnd.
    split; [left; reflexivity|]. split; [right; left; reflexivity|].
    split; [exact G1|]. split; [exact Ein|reflexivity].
  - destruct (IH o G2 H) as (a & b & Ha & Hb & K). exists a, b.
    split; [right; exact Ha|]. split; [right; exact Hb|exact K].
Qed.

(** X14.  [getClippedSegments] only returns pieces of the lines it is
    given: every piece runs between two parameters of one line, both
    between 0 and 1 and more than the tolerance 1e-4 apart, and the midpoint
    of the piece tests inside the boundary contours. *)
Theorem clipped_segments_are_inside_pieces
        (lines : list Segment2D) (boundaryContours : list (list Point2D))
        (o : Segment2D) :
  In o (getClippedSegments lines boundaryContours) ->
  exists line tStart tEnd,
    In line lines
    /\ unitParam tStart /\ unitParam tEnd
    /\ (tolerance < tEnd - tStart)%num
    /\ o = mkSegment2D (pointAt line tStart) (pointAt line tEnd)
    /\ isPointInPoly (pointAt line ((tStart + tEnd) / Fin 2)%num) boundaryContours
       = true.
Proof.
  unfold getClippedSegments. cbv zeta. intro H. apply in_flat_map in H.
  destruct H as (line & Hl & Ho). unfold clipLine in Ho. cbv zeta in Ho.
  apply keptIntervals_spec in Ho; [|apply uniqueParams_gapped].
  destruct Ho as (a & b & Ha & Hb & Hgap & Hin & ->).
  assert (U : forall t,
             In t (uniqueParams
                     (sort (fun a b => (a - b)%num)
                           ([Fin 0; Fin 1]
                              ++ flat_map (edgeHit line)
                                          (flat_map contourEdges boundaryContours)))) ->
             unitParam t).
  { intros t Ht. apply uniqueParams_incl in Ht.
    apply (Permutation_in _ (sort_perm _ _)) in Ht.
    apply in_app_or in Ht. destruct Ht as [[<-|[<-|[]]]|Ht].
    - split; reflexivity.
    - split; reflexivity.
    - apply in_flat_map in Ht. destruct Ht as (e & _ & Ht).
      eapply edgeHit_unit; eauto. }
  pose proof (U a Ha) as [A1 A2]. pose proof (U b Hb) as [B1 B2].
  exists line, a, b. repeat split; auto.
Qed.

Lemma clipped_segments_are_inside_pieces_witness :
  exists line tStart tEnd,
    In line [mkSegment2D (mkPoint2D (Fin (-5)) (Fin 5)) (mkPoint2D (Fin 15) (Fin 5))]
    /\ unitParam tStart /\ unitParam tEnd
    /\ (tolerance < tEnd - tStart)%num
    /\ mkSegment2D (mkPoint2D (Fin (0 # 200)) (Fin (1000 # 200)))
                   (mkPoint2D (Fin (2000 # 200)) (Fin (1000 # 200)))
       = mkSegment2D (pointAt line tStart) (pointAt line tEnd)
    /\ isPointInPoly (pointAt line ((tStart + tEnd) / Fin 2)%num) [rectangle 0 0 10 10]
       = true.
Proof.
  apply (@clipped_segments_are_inside_pieces
           [mkSegment2D (mkPoint2D (Fin (-5)) (Fin 5)) (mkPoint2D (Fin 15) (Fin 5))]
           [rectangle 0 0 10 10]).
  vm_compute. left. reflexivity.
Defined.


(** ** Clamping *)

Lemma clamp_cases (t : Q) :
  exists tc, Math_max (Fin 0) (Math_min (Fin 1) (Fin t)) = Fin tc
             /\ (0 <= tc /\ tc <= 1)%Q
             /\ ((tc == 1 /\ 1 <= t) \/ (tc == t /\ 0 <= t /\ t <= 1)
                 \/ (tc == 0 /\ t <= 0))%Q.
Proof.
  cbn [Math_min nle]. destruct (Qle_bool 1 t) eqn:E1; cbn [Math_max nle].
  - replace (Qle_bool 0 1) with true by reflexivity.
    exists 1%Q. split; [reflexivity|]. qprop. split; [lra|].
    left. split; [reflexivity|assumption].
  - destruct (Qle_bool 0 t) eqn:E0.
    + exists t. split; [reflexivity|]. qprop. split; [lra|]. right; left.
      split; [reflexivity|]. split; lra.
    + exists 0%Q. split; [reflexivity|]. qprop. split; [lra|]. right; right.
      split; [reflexivity|lra].
Qed.

(** ** The wavy cut line of [splitSlice] *)

Lemma truncQ_fraction (x : Q) :
  let f := (x - inject_Z (truncQ x))%Q in
  (0 <= x -> 0 <= f /\ f < 1)%Q /\ (x < 0 -> -1 < f /\ f <= 0)%Q.
Proof.
  cbv zeta. unfold truncQ. split; intros Hx.
  - replace (Qle_bool 0 x) with true by (symmetry; apply Qle_bool_iff; exact Hx).
    pose proof (Qfloor_le x) as A. pose proof (Qlt_floor x) as B.
    rewrite inject_Z_plus in B. change (inject_Z 1) with 1%Q in B. split; lra.
  - replace (Qle_bool 0 x) with false
      by (symmetry; apply Qle_bool_false; exact Hx).
    pose proof (Qle_ceiling x) as A. pose proof (Qceiling_lt x) as B.
    unfold Z.sub in B. rewrite inject_Z_plus, inject_Z_opp in B.
    change (inject_Z 1) with 1%Q in B. split; lra.
Qed.

(** The phase of [getSplitOffset] is the fractional part of [pos / 20]. *)
Lemma phase_spec (p : Q) :
  exists (ph : Q) (k : Z),
    (let phase := (nrem (Fin p) (Fin 20) / Fin 20)%num in
     if (phase <? Fin 0)%num then (phase + Fin 1)%num else phase) = Fin ph
    /\ (ph == p / 20 - inject_Z k)%Q /\ (0 <= ph)%Q /\ (ph < 1)%Q.
Proof.
  cbv zeta. cbn [nrem].
  replace (Qeq_bool 20 0) with false by reflexivity. cbn [ndiv].
  replace (Qeq_bool 20 0) with false by reflexivity. cbn [nlt nadd].
  destruct (truncQ_fraction (p / 20)) as [Hpos Hneg].
  set (k := truncQ (p / 20)) in *.
  assert (E : ((p - 20 * inject_Z k) / 20 == p / 20 - inject_Z k)%Q) by field.
  destruct (Qlt_bool ((p - 20 * inject_Z k) / 20) 0) eqn:L; qprop.
  - exists ((p - 20 * inject_Z k) / 20 + 1)%Q, (k - 1)%Z. split; [reflexivity|].
    unfold Z.sub. rewrite inject_Z_plus, inject_Z_opp.
    change (inject_Z 1) with 1%Q.
    destruct (Qlt_le_dec (p / 20) 0) as [N|N].
    + specialize (Hneg N). repeat split; lra.
    + specialize (Hpos N). lra.
  - exists ((p - 20 * inject_Z k) / 20)%Q, k. split; [reflexivity|].
    destruct (Qlt_le_dec (p / 20) 0) as [N|N].
    + specialize (Hneg N). repeat split; lra.
    + specialize (Hpos N). repeat split; lra.
Qed.

Lemma getSplitOffset_phase (p : Q) :
  exists (ph : Q) (k : Z),
    (ph == p / 20 - inject_Z k)%Q /\ (0 <= ph)%Q /\ (ph < 1)%Q
    /\ Modifier.getSplitOffset (Fin p)
       = Fin (if Qlt_bool ph (1 # 2) then 4 * (4 * ph + - (1)) else 4 * (3 + - (4 * ph))).
Proof.
  destruct (phase_spec p) as (ph & k & E & Hk & H0 & H1).
  exists ph, k. repeat split; try assumption.
  unfold Modifier.getSplitOffset. cbv zeta in E |- *. rewrite E.
  cbn [nlt nmul nsub nadd nneg]. destruct (Qlt_bool ph (1 # 2)); reflexivity.
Qed.

Lemma getSplitOffset_range (pos : num) :
  isFinite pos = true ->
  exists o, Modifier.getSplitOffset pos = Fin o /\ (-4 <= o)%Q /\ (o <= 4)%Q.
Proof.
  destruct pos as [p| | |]; try discriminate. intros _.
  destruct (getSplitOffset_phase p) as (ph & k & _ & H0 & H1 & ->).
  eexists. split; [reflexivity|].
  destruct (Qlt_bool ph (1 # 2)) eqn:L; qprop; split; lra.
Qed.

(** X18. The cut line of [splitSlice] never strays more than the amplitude
    from the split position: at every finite position [getSplitOffset] is a
    number between [-4] and [4]. *)
Theorem getSplitOffset_within_amplitude (pos : num) :
  isFinite pos = true ->
  (Fin (-4) <= Modifier.getSplitOffset pos)%num
  /\ (Modifier.getSplitOffset pos <= Fin 4)%num.
Proof.
  intros F. destruct (getSplitOffset_range pos F) as (o & -> & A & B).
  unfold num_le. cbn [nle]. split; qprop; assumption.
Qed.

Lemma getSplitOffset_within_amplitude_witness :
  (Modifier.getSplitOffset (Fin (-7)) === Fin (8 # 5))%num = true
  /\ (Fin (-4) <= Modifier.getSplitOffset (Fin (-7)))%num
  /\ (Modifier.getSplitOffset (Fin (-7)) <= Fin 4)%num.
Proof.
  split; [vm_compute; reflexivity|].
  apply (@getSplitOffset_within_amplitude (Fin (-7))). reflexivity.
Defined.

(** ** Clipping a contour at the cut line *)

Lemma findIntersection_on_cut (p1 p2 : PointUV) (axis : SplitAxis) (split : num) :
  finiteUV p1 -> finiteUV p2 -> isFinite split = true ->
  finiteUV (Modifier.findIntersection p1 p2 axis split)
  /\ onCut axis split (Modifier.findIntersection p1 p2 axis split).
Proof.
  intros [F1u F1v] [F2u F2v] Fs.
  assert (K : forall x1 y1 x2 y2 : Q,
    exists y : Q,
      (if (Math_abs (Fin x2 - Fin x1) <? Fin (1 # 100000))%num
       then ((Fin y1 + Fin y2) / Fin 2)%num
       else (Fin y1 + Math_max (Fin 0)
                        (Math_min (Fin 1) ((split - Fin x1) / (Fin x2 - Fin x1)))
                      * (Fin y2 - Fin y1))%num) = Fin y
      /\ (Math_abs (Fin x2 - Fin x1) <? Fin (1 # 100000))%num
         = Qlt_bool (Qabs (x2 + - x1)) (1 # 100000)).
  { intros x1 y1 x2 y2. destruct split as [s| | |]; try discriminate.
    cbn [nsub nneg nadd Math_abs nlt].
    destruct (Qlt_bool (Qabs (x2 + - x1)) (1 # 100000)) eqn:L.
    - eexists. split; [|reflexivity]. cbn [ndiv].
      replace (Qeq_bool 2 0) with false by reflexivity. reflexivity.
    - qprop.
      assert (N : Qeq_bool (x2 + - x1) 0 = false).
      { qprop. intros E. rewrite E in L. vm_compute in L. apply L. reflexivity. }
      cbn [ndiv]. rewrite N.
      destruct (clamp_cases ((s + - x1) / (x2 + - x1))) as (tc & -> & _).
      eexists. split; reflexivity. }
  destruct p1 as [[u1| | |] [v1| | |]]; try discriminate F1u; try discriminate F1v.
  destruct p2 as [[u2| | |] [v2| | |]]; try discriminate F2u; try discriminate F2v.
  unfold Modifier.findIntersection, onCut, finiteUV. cbv zeta.
  cbn [uv_u uv_v].
  destruct axis.
  - destruct (K u1 v1 u2 v2) as (y & E & T). rewrite T in *.
    destruct (getSplitOffset_range (Fin y) eq_refl) as (o & Ho & _).
    destruct (Qlt_bool (Qabs (u2 + - u1)) (1 # 100000));
      rewrite E; cbn [along across uv_u uv_v]; rewrite Ho;
      destruct split; try discriminate; repeat split; reflexivity.
  - destruct (K v1 u1 v2 u2) as (y & E & T). rewrite T in *.
    destruct (getSplitOffset_range (Fin y) eq_refl) as (o & Ho & _).
    destruct (Qlt_bool (Qabs (v2 + - v1)) (1 # 100000));
      rewrite E; cbn [along across uv_u uv_v]; rewrite Ho;
      destruct split; try discriminate; repeat split; reflexivity.
Qed.

Lemma onCut_inside (splitAxis : SplitAxis) (splitPos : num) (keepLeft : bool)
  (q : PointUV) :
  finiteUV q -> isFinite splitPos = true -> onCut splitAxis splitPos q ->
  Modifier.isInside splitAxis splitPos keepLeft q = true.
Proof.
  intros [Fu Fv] Fs C.
  change (Modifier.isInside splitAxis splitPos keepLeft q)
    with (if keepLeft
          then (along splitAxis q
                <=? splitPos + Modifier.getSplitOffset (across splitAxis q))%num
          else (along splitAxis q
                >=? splitPos + Modifier.getSplitOffset (across splitAxis q))%num).
  unfold onCut in C. rewrite C.
  assert (Fa : isFinite (across splitAxis q) = true) by (destruct splitAxis; assumption).
  destruct (getSplitOffset_range _ Fa) as (o & -> & _).
  destruct splitPos as [s| | |]; try discriminate.
  destruct keepLeft; unfold nge; cbn [nadd nle]; qprop; apply Qle_refl.
Qed.

Lemma clipStep_points (splitAxis : SplitAxis) (splitPos : num) (keepLeft : bool)
  (prev curr q : PointUV) :
  finiteUV prev -> finiteUV curr -> isFinite splitPos = true ->
  In q (Modifier.clipStep splitAxis splitPos keepLeft prev curr) ->
  finiteUV q
  /\ ((q = curr /\ Modifier.isInside splitAxis splitPos keepLeft curr = true)
      \/ onCut splitAxis splitPos q).
Proof.
  intros Fp Fc Fs. unfold Modifier.clipStep. cbv zeta.
  destruct (@findIntersection_on_cut prev curr splitAxis splitPos Fp Fc Fs) as [FI CI].
  destruct (Modifier.isInside splitAxis splitPos keepLeft prev),
           (Modifier.isInside splitAxis splitPos keepLeft curr); cbn [andb negb In].
  - intros [<-|[]]. split; [assumption|left; split; reflexivity].
  - intros [<-|[]]. split; [assumption|right; assumption].
  - intros [<-|[<-|[]]].
    + split; [assumption|right; assumption].
    + split; [assumption|left; split; reflexivity].
  - intros [].
Qed.

Lemma clipPoly_points (splitAxis : SplitAxis) (splitPos : num) (keepLeft : bool)
  (poly : list PointUV) (q : PointUV) :
  Forall finiteUV poly -> isFinite splitPos = true ->
  In q (Modifier.clipPoly splitAxis splitPos poly keepLeft) ->
  finiteUV q
  /\ ((In q poly /\ Modifier.isInside splitAxis splitPos keepLeft q = true)
      \/ onCut splitAxis splitPos q).
Proof.
  intros F Fs. unfold Modifier.clipPoly. cbv zeta.
  destruct (length poly =? 0)%nat eqn:E0; [intros []|].
  apply Nat.eqb_neq in E0. intros Hq. apply in_flat_map in Hq.
  destruct Hq as (i & Hi & Hq). apply in_seq in Hi.
  rewrite Forall_forall in F.
  assert (Fc : finiteUV (nth i poly undefinedUV)) by (apply F, nth_In; lia).
  assert (Fp : finiteUV (nth ((i + length poly - 1) mod length poly) poly undefinedUV))
    by (apply F, nth_In, Nat.mod_upper_bound; exact E0).
  destruct (@clipStep_points splitAxis splitPos keepLeft _ _ q Fp Fc Fs Hq)
    as [Fq [[-> I]|C]].
  - split; [assumption|]. left. split; [apply nth_In; lia|exact I].
  - split; [assumption|right; exact C].
Qed.

(** X20. Clipping keeps to its side of the cut: for a contour of finite
    points and a finite split position, every point that [clipPoly] returns
    has finite coordinates and passes the inside test of the side that is
    kept; it is a vertex of the contour or a point on the cut line. *)
Theorem clipPoly_keeps_to_its_side (splitAxis : SplitAxis) (splitPos : num)
  (keepLeft : bool) (poly : list PointUV) :
  Forall finiteUV poly -> isFinite splitPos = true ->
  Forall (fun q => finiteUV q
                   /\ Modifier.isInside splitAxis splitPos keepLeft q = true
                   /\ (In q poly \/ onCut splitAxis splitPos q))
         (Modifier.clipPoly splitAxis splitPos poly keepLeft).
Proof.
  intros F Fs. apply Forall_forall. intros q Hq.
  destruct (@clipPoly_points splitAxis splitPos keepLeft poly q F Fs Hq)
    as [Fq [[I S]|C]].
  - repeat split; try assumption; [apply Fq|apply Fq|left; exact I].
  - split; [assumption|]. split; [apply onCut_inside; assumption|right; exact C].
Qed.


Lemma clipPoly_keeps_to_its_side_witness :
  length (Modifier.clipPoly U (Fin 50) (rectUV 100 50) true) = 4%nat
  /\ Forall (fun q => finiteUV q
                      /\ Modifier.isInside U (Fin 50) true q = true
                      /\ (In q (rectUV 100 50) \/ onCut U (Fin 50) q))
            (Modifier.clipPoly U (Fin 50) (rectUV 100 50) true).
Proof.
  split; [vm_compute; reflexivity|].
  apply (@clipPoly_keeps_to_its_side U (Fin 50) true (rectUV 100 50));
    [|reflexivity].
  repeat (apply Forall_cons; [split; reflexivity|]). apply Forall_nil.
Defined.

Lemma flat_map_seq_pointwise (A : Type) (f g : nat -> list A) (n : nat) :
  (forall i, (i < n)%nat -> f i = g i) ->
  flat_map f (seq 0 n) = flat_map g (seq 0 n).
Proof.
  intros H. induction n as [|n IH]; [reflexivity|].
  rewrite seq_S, !flat_map_app, IH by (intros i Hi; apply H; lia).
  cbn [flat_map Nat.add]. rewrite (H n) by lia. reflexivity.
Qed.

Lemma flat_map_nth_seq (A : Type) (l : list A) (d : A) :
  flat_map (fun i => [nth i l d]) (seq 0 (length l)) = l.
Proof.
  induction l as [|a l IH] using rev_ind; [reflexivity|].
  rewrite length_app. cbn [length]. rewrite Nat.add_1_r, seq_S, flat_map_app.
  cbn [flat_map Nat.add]. rewrite app_nth2, Nat.sub_diag by lia. cbn [nth app].
  rewrite (@flat_map_seq_pointwise _ _ (fun i => [nth i l d])).
  - rewrite IH. reflexivity.
  - intros i Hi. rewrite app_nth1 by exact Hi. reflexivity.
Qed.

Lemma isInside_NaN (splitAxis : SplitAxis) (splitPos : num) (keepLeft : bool)
  (p : PointUV) :
  uv_u p = NaN \/ uv_v p = NaN ->
  Modifier.isInside splitAxis splitPos keepLeft p = false.
Proof.
  destruct p as [u v]. cbn [uv_u uv_v].
  assert (O : Modifier.getSplitOffset NaN = NaN) by reflexivity.
  assert (R : forall a, (a + NaN)%num = NaN) by (intros [q| | |]; reflexivity).
  assert (L : forall a, nle a NaN = false) by (intros [q| | |]; reflexivity).
  unfold Modifier.isInside, nge. cbv zeta. cbn [uv_u uv_v].
  intros [-> | ->]; destruct splitAxis, keepLeft;
    rewrite ?O, ?R, ?L; try reflexivity;
    match goal with |- nle ?a ?b = false => destruct a, b; reflexivity end.
Qed.

(** X21. A contour that the cut does not reach is not changed by it: when
    every vertex passes the inside test of the kept side, [clipPoly] returns
    the contour as it is, and when no vertex passes it, [clipPoly] returns no
    point at all; a vertex with a NaN coordinate passes the test of neither
    side. *)
Theorem clipPoly_whole_or_nothing (splitAxis : SplitAxis) (splitPos : num)
  (keepLeft : bool) (poly : list PointUV) :
  (Forall (fun p => Modifier.isInside splitAxis splitPos keepLeft p = true) poly ->
   Modifier.clipPoly splitAxis splitPos poly keepLeft = poly)
  /\ (Forall (fun p => Modifier.isInside splitAxis splitPos keepLeft p = false) poly ->
      Modifier.clipPoly splitAxis splitPos poly keepLeft = [])
  /\ (forall p, uv_u p = NaN \/ uv_v p = NaN ->
                Modifier.isInside splitAxis splitPos true p = false
                /\ Modifier.isInside splitAxis splitPos false p = false).
Proof.
  split; [|split];
    [| |intros p Hp; split; apply isInside_NaN; exact Hp].
  all: unfold Modifier.clipPoly; cbv zeta.
  all: destruct (length poly =? 0)%nat eqn:E0.
  1, 3: apply Nat.eqb_eq in E0; destruct poly; [|discriminate]; reflexivity.
  all: apply Nat.eqb_neq in E0; intros F; rewrite Forall_forall in F.
  - rewrite (@flat_map_seq_pointwise _ _ (fun i => [nth i poly undefinedUV])).
    + apply flat_map_nth_seq.
    + intros i Hi. unfold Modifier.clipStep. cbv zeta.
      rewrite !F by (apply nth_In; try apply Nat.mod_upper_bound; assumption).
      reflexivity.
  - rewrite (@flat_map_seq_pointwise _ _ (fun _ => [])).
    + clear. induction (seq 0 (length poly)) as [|a l IH]; [reflexivity|exact IH].
    + intros i Hi. unfold Modifier.clipStep. cbv zeta.
      rewrite !F by (apply nth_In; try apply Nat.mod_upper_bound; assumption).
      reflexivity.
Qed.


Lemma clipPoly_whole_or_nothing_witness :
  Modifier.clipPoly U (Fin 200) (rectUV 100 50) true = rectUV 100 50
  /\ Modifier.clipPoly U (Fin 200) (rectUV 100 50) false = []
  /\ Modifier.isInside U (Fin 200) true (mkUV NaN (Fin 0)) = false.
Proof.
  split; [|split].
  - apply (proj1 (@clipPoly_whole_or_nothing U (Fin 200) true (rectUV 100 50))).
    repeat (apply Forall_cons; [vm_compute; reflexivity|]). apply Forall_nil.
  - apply (proj1 (proj2 (@clipPoly_whole_or_nothing U (Fin 200) false
                           (rectUV 100 50)))).
    repeat (apply Forall_cons; [vm_compute; reflexivity|]). apply Forall_nil.
  - apply (proj2 (proj2 (@clipPoly_whole_or_nothing U (Fin 200) true
                           (rectUV 100 50)))).
    left. reflexivity.
Defined.


(** ** The pieces of a split *)

Lemma boundsStep_fold (c : list PointUV) (a b a' b' : num) :
  fold_left Modifier.boundsStep c (a, b, a', b')
  = (fold_left Math_min (map uv_u c) a, fold_left Math_min (map uv_v c) b,
     fold_left Math_max (map uv_u c) a', fold_left Math_max (map uv_v c) b').
Proof.
  revert a b a' b'. induction c as [|p c IH]; intros a b a' b'; [reflexivity|].
  cbn [fold_left map Modifier.boundsStep]. apply IH.
Qed.

Lemma bounds_fold (cs : list (list PointUV)) (a b a' b' : num) :
  fold_left (fun st c => fold_left Modifier.boundsStep c st) cs (a, b, a', b')
  = (fold_left Math_min (map uv_u (concat cs)) a,
     fold_left Math_min (map uv_v (concat cs)) b,
     fold_left Math_max (map uv_u (concat cs)) a',
     fold_left Math_max (map uv_v (concat cs)) b').
Proof.
  revert a b a' b'. induction cs as [|c cs IH]; intros a b a' b'; [reflexivity|].
  cbn [fold_left concat]. rewrite boundsStep_fold, IH, !map_app, !fold_left_app.
  reflexivity.
Qed.

Lemma buildSlice_spec (ids : bool -> num -> nat -> num) (slice : Slice)
  (axis : Axis) (cs : list (list PointUV)) (k : nat) (piece : Slice) :
  Modifier.buildSlice ids slice axis cs k = Some piece ->
  cs <> []
  /\ zHeight piece = zHeight slice
  /\ contours piece
     = map (fun c => map (fun p => Modifier.get3D axis (zHeight slice)
                                     (uv_u p) (uv_v p)) c) cs
  /\ segments piece = flat_map Modifier.closedSegments (contours piece)
  /\ minX (bounds piece) = fold_left Math_min (map uv_u (concat cs)) PInf
  /\ minY (bounds piece) = fold_left Math_min (map uv_v (concat cs)) PInf
  /\ maxX (bounds piece) = fold_left Math_max (map uv_u (concat cs)) NInf
  /\ maxY (bounds piece) = fold_left Math_max (map uv_v (concat cs)) NInf
  /\ b_width (bounds piece) = (maxX (bounds piece) - minX (bounds piece))%num
  /\ b_height (bounds piece) = (maxY (bounds piece) - minY (bounds piece))%num
  /\ isFinite (minX (bounds piece)) = true /\ isFinite (minY (bounds piece)) = true
  /\ isFinite (maxX (bounds piece)) = true /\ isFinite (maxY (bounds piece)) = true.
Proof.
  unfold Modifier.buildSlice. destruct (length cs =? 0)%nat eqn:E0; [discriminate|].
  cbv zeta. rewrite bounds_fold.
  destruct (isFinite (fold_left Math_min (map uv_u (concat cs)) PInf)) eqn:F1;
    [|discriminate].
  destruct (isFinite (fold_left Math_min (map uv_v (concat cs)) PInf)) eqn:F2;
    [|discriminate].
  destruct (isFinite (fold_left Math_max (map uv_u (concat cs)) NInf)) eqn:F3;
    [|discriminate].
  destruct (isFinite (fold_left Math_max (map uv_v (concat cs)) NInf)) eqn:F4;
    [|discriminate].
  cbn [negb orb]. intros E. injection E as <-. cbn [zHeight contours segments bounds
    minX minY maxX maxY b_width b_height].
  split; [intros ->; discriminate|]. repeat split; assumption.
Qed.

Lemma splitSlice_pieces (ids : bool -> num -> nat -> num) (slice : Slice)
  (axis : Axis) (maxW maxH : num) (piece : Slice) :
  In piece (Modifier.splitSlice ids slice axis maxW maxH) ->
  exists keepLeft k,
    Modifier.buildSlice ids slice axis
      (Modifier.clippedContours slice axis maxW maxH keepLeft) k = Some piece.
Proof.
  unfold Modifier.splitSlice. cbv zeta.
  destruct (Modifier.buildSlice ids slice axis
              (Modifier.clippedContours slice axis maxW maxH true) 1) eqn:E1;
  destruct (Modifier.buildSlice ids slice axis
              (Modifier.clippedContours slice axis maxW maxH false) 2) eqn:E2;
    cbn [Modifier.pushSome app In]; intros H.
  - destruct H as [<-|[<-|[]]]; [exists true, 1%nat|exists false, 2%nat]; assumption.
  - destruct H as [<-|[]]. exists true, 1%nat. assumption.
  - destruct H as [<-|[]]. exists false, 2%nat. assumption.
  - destruct H.
Qed.

Lemma clippedContours_spec (slice : Slice) (axis : Axis) (maxW maxH : num)
  (keepLeft : bool) (c : list PointUV) :
  In c (Modifier.clippedContours slice axis maxW maxH keepLeft) ->
  (3 <= length c)%nat
  /\ exists c0, In c0 (contours slice)
       /\ c = Modifier.clipPoly (fst (splitSlice_axis slice maxW maxH))
                (snd (splitSlice_axis slice maxW maxH))
                (map (Modifier.get2D axis) c0) keepLeft.
Proof.
  unfold Modifier.clippedContours.
  destruct (splitSlice_axis slice maxW maxH) as [ax pos]. cbn [fst snd].
  intros H. apply filter_In in H. destruct H as [H L].
  apply Nat.ltb_lt in L. split; [lia|].
  rewrite map_map in H. apply in_map_iff in H. destruct H as (c0 & <- & H0).
  exists c0. split; [assumption|reflexivity].
Qed.

Lemma closedSegments_length (c : list Vector3) :
  length (Modifier.closedSegments c) = length c.
Proof. unfold Modifier.closedSegments. rewrite length_map, length_seq. reflexivity. Qed.

Lemma flat_map_closedSegments_length (cs : list (list Vector3)) :
  length (flat_map Modifier.closedSegments cs) = length (concat cs).
Proof.
  induction cs as [|c cs IH]; [reflexivity|].
  cbn [flat_map concat]. rewrite !length_app, closedSegments_length, IH. reflexivity.
Qed.

Lemma getVal_get3D (axis : Axis) (height u v : num) :
  getVal (Modifier.get3D axis height u v) axis = height
  /\ Modifier.get2D axis (Modifier.get3D axis height u v) = mkUV u v.
Proof. destruct axis; split; reflexivity. Qed.

(** X22. What a split returns: at most two pieces; each piece lies at the
    height of the slice that was split, every contour of it has at least
    three points, all of them in the plane of the slice, its segments close
    every contour (one segment for each contour point), and its bounds are
    finite with width [maxX - minX] and height [maxY - minY]. *)
Theorem splitSlice_pieces_are_well_formed (ids : bool -> num -> nat -> num)
  (slice : Slice) (axis : Axis) (maxW maxH : num) :
  (length (Modifier.splitSlice ids slice axis maxW maxH) <= 2)%nat
  /\ Forall
       (fun piece =>
          zHeight piece = zHeight slice
          /\ contours piece <> []
          /\ Forall (fun c => (3 <= length c)%nat
                              /\ Forall (fun p => getVal p axis = zHeight slice) c)
                    (contours piece)
          /\ segments piece = flat_map Modifier.closedSegments (contours piece)
          /\ length (segments piece) = length (concat (contours piece))
          /\ isFinite (minX (bounds piece)) = true
          /\ isFinite (minY (bounds piece)) = true
          /\ isFinite (maxX (bounds piece)) = true
          /\ isFinite (maxY (bounds piece)) = true
          /\ b_width (bounds piece) = (maxX (bounds piece) - minX (bounds piece))%num
          /\ b_height (bounds piece)
             = (maxY (bounds piece) - minY (bounds piece))%num)
       (Modifier.splitSlice ids slice axis maxW maxH).
Proof.
  split.
  - unfold Modifier.splitSlice. cbv zeta.
    destruct (Modifier.buildSlice ids slice axis _ 1),
             (Modifier.buildSlice ids slice axis _ 2); cbn; lia.
  - apply Forall_forall. intros piece Hp.
    destruct (@splitSlice_pieces ids slice axis maxW maxH piece Hp) as (keep & k & E).
    destruct (@buildSlice_spec ids slice axis _ k piece E)
      as (N & Z & C & S & _ & _ & _ & _ & W & H & F1 & F2 & F3 & F4).
    split; [exact Z|]. split.
    { rewrite C. intros M. apply map_eq_nil in M. exact (N M). }
    split.
    { rewrite C. apply Forall_forall. intros c3 Hc. apply in_map_iff in Hc.
      destruct Hc as (c & <- & Hc).
      destruct (@clippedContours_spec slice axis maxW maxH keep c Hc) as [L _].
      rewrite length_map. split; [exact L|].
      apply Forall_forall. intros p3 Hp3. apply in_map_iff in Hp3.
      destruct Hp3 as (p & <- & _). apply getVal_get3D. }
    split; [exact S|]. split.
    { rewrite S. apply flat_map_closedSegments_length. }
    repeat split; assumption.
Qed.


Lemma splitSlice_axis_centre (slice : Slice) (maxW maxH : num) :
  snd (splitSlice_axis slice maxW maxH)
  = (boundsLow (fst (splitSlice_axis slice maxW maxH)) (bounds slice)
     + boundsExtent (fst (splitSlice_axis slice maxW maxH)) (bounds slice) / Fin 2)%num.
Proof.
  unfold splitSlice_axis. cbv zeta.
  repeat match goal with |- context [if ?c then _ else _] => destruct c end;
    reflexivity.
Qed.

(** Where a point of a clipped contour can lie along the split axis. *)
Lemma clipped_point_range (splitAxis : SplitAxis) (keepLeft : bool)
  (poly : list PointUV) (l e : Q) (q : PointUV) :
  Forall finiteUV poly -> (8 <= e)%Q ->
  Forall (fun p => (Fin l <= along splitAxis p)%num
                   /\ (along splitAxis p <= Fin (l + e))%num) poly ->
  In q (Modifier.clipPoly splitAxis (Fin (l + e / 2)) poly keepLeft) ->
  exists a, along splitAxis q = Fin a
            /\ ((if keepLeft then l else l + e / 2 - 4) <= a)%Q
            /\ (a <= (if keepLeft then l else l + e / 2 - 4) + (e / 2 + 4))%Q.
Proof.
  intros F He Hin Hq.
  assert (Half : (e / 2 + e / 2 == e)%Q) by field.
  destruct (@clipPoly_points splitAxis (Fin (l + e / 2)) keepLeft poly q F eq_refl Hq)
    as [Fq [[I S]|C]].
  - rewrite Forall_forall in Hin. destruct (Hin q I) as [A B].
    assert (Fa : isFinite (across splitAxis q) = true)
      by (destruct Fq; destruct splitAxis; assumption).
    destruct (getSplitOffset_range _ Fa) as (o & Ho & O1 & O2).
    change (Modifier.isInside splitAxis (Fin (l + e / 2)) keepLeft q)
      with (if keepLeft
            then (along splitAxis q
                  <=? Fin (l + e / 2) + Modifier.getSplitOffset (across splitAxis q))%num
            else (along splitAxis q
                  >=? Fin (l + e / 2) + Modifier.getSplitOffset (across splitAxis q))%num)
      in S.
    rewrite Ho in S. unfold num_le, nge in *.
    destruct (along splitAxis q) as [a| | |]; try discriminate.
    exists a. split; [reflexivity|]. clear Hin Hq.
    cbn [nadd nle] in *. destruct keepLeft; qprop; split; lra.
  - unfold onCut in C.
    assert (Fa : isFinite (across splitAxis q) = true)
      by (destruct Fq; destruct splitAxis; assumption).
    destruct (getSplitOffset_range _ Fa) as (o & Ho & O1 & O2).
    rewrite Ho in C. cbn [nadd] in C. rewrite C. eexists. split; [reflexivity|].
    destruct keepLeft; split; lra.
Qed.

Lemma extent_of_range (l : list num) (lo hi : Q) :
  Forall (fun v => exists a, v = Fin a /\ (lo <= a)%Q /\ (a <= hi)%Q) l ->
  isFinite (fold_left Math_min l PInf) = true ->
  isFinite (fold_left Math_max l NInf) = true ->
  (fold_left Math_max l NInf - fold_left Math_min l PInf <= Fin (hi - lo))%num.
Proof.
  intros R Fmin Fmax.
  assert (F : Forall (fun v => isFinite v = true) l).
  { rewrite Forall_forall in *. intros v Hv. destruct (R v Hv) as (a & -> & _).
    reflexivity. }
  destruct (@fold_min_spec l F PInf (or_introl eq_refl)) as (_ & _ & [E|I]);
    [rewrite E in Fmin; discriminate|].
  destruct (@fold_max_spec l F NInf (or_introl eq_refl)) as (_ & _ & [E|J]);
    [rewrite E in Fmax; discriminate|].
  rewrite Forall_forall in R.
  destruct (R _ I) as (a & -> & A1 & A2). destruct (R _ J) as (b & -> & B1 & B2).
  unfold num_le. cbn [nsub nneg nadd nle]. qprop. lra.
Qed.

(** X23. A split makes progress: when the contour points are finite and
    the bounds of the slice hold them along the split axis, with an extent of
    at least 16, every piece is at most four fifths as wide along that axis
    as the slice (each piece ends at the cut line, which stays within 4 of
    the middle of the slice). *)
Theorem split_pieces_are_narrower (ids : bool -> num -> nat -> num)
  (slice : Slice) (axis : Axis) (maxW maxH : num) :
  let splitAxis := fst (splitSlice_axis slice maxW maxH) in
  Forall finiteUV (contourPoints axis slice) ->
  isFinite (boundsLow splitAxis (bounds slice)) = true ->
  isFinite (boundsExtent splitAxis (bounds slice)) = true ->
  (Fin 16 <= boundsExtent splitAxis (bounds slice))%num ->
  boundsHold splitAxis axis slice ->
  Forall (fun piece =>
            (boundsExtent splitAxis (bounds piece)
             <= Fin (4 # 5) * boundsExtent splitAxis (bounds slice))%num)
         (Modifier.splitSlice ids slice axis maxW maxH).
Proof.
  intros splitAxis F Flo Fext He Hold.
  apply Forall_forall. intros piece Hp.
  destruct (@splitSlice_pieces ids slice axis maxW maxH piece Hp) as (keep & k & E).
  destruct (@buildSlice_spec ids slice axis _ k piece E)
    as (_ & _ & _ & _ & X1 & Y1 & X2 & Y2 & W & H & F1 & F2 & F3 & F4).
  pose proof (splitSlice_axis_centre slice maxW maxH) as Hpos.
  fold splitAxis in Hpos.
  destruct (boundsLow splitAxis (bounds slice)) as [l| | |] eqn:El; try discriminate.
  destruct (boundsExtent splitAxis (bounds slice)) as [e| | |] eqn:Ee;
    try discriminate.
  cbn [ndiv nadd nmul] in Hpos |- *.
  replace (Qeq_bool 2 0) with false in * by reflexivity.
  cbn [nadd] in Hpos |- *.
  unfold num_le in He. cbn [nle] in He. qprop.
  assert (He8 : (8 <= e)%Q) by lra.
  set (cs := Modifier.clippedContours slice axis maxW maxH keep) in *.
  assert (R : Forall (fun v => exists a, v = Fin a
                        /\ ((if keep then l else l + e / 2 - 4) <= a)%Q
                        /\ (a <= (if keep then l else l + e / 2 - 4) + (e / 2 + 4))%Q)
                     (map (along splitAxis) (concat cs))).
  { apply Forall_forall. intros v Hv. apply in_map_iff in Hv.
    destruct Hv as (q & <- & Hq). apply in_concat in Hq.
    destruct Hq as (c & Hc & Hq).
    destruct (@clippedContours_spec slice axis maxW maxH keep c Hc)
      as (_ & c0 & Hc0 & ->).
    fold splitAxis in Hq. rewrite Hpos in Hq.
    assert (Sub : forall p, In p (map (Modifier.get2D axis) c0) ->
                            In p (contourPoints axis slice)).
    { intros p Hin. unfold contourPoints. apply in_concat.
      exists (map (Modifier.get2D axis) c0). split; [|exact Hin].
      apply in_map_iff. exists c0. split; [reflexivity|exact Hc0]. }
    apply (@clipped_point_range splitAxis keep (map (Modifier.get2D axis) c0) l e q);
      [| exact He8 | | exact Hq].
    - rewrite Forall_forall in *. intros p Hin. apply F, Sub, Hin.
    - unfold boundsHold in Hold. rewrite Forall_forall in *. intros p Hin.
      specialize (Hold p (Sub p Hin)). rewrite El, Ee in Hold. exact Hold. }
  assert (G : (fold_left Math_max (map (along splitAxis) (concat cs)) NInf
               - fold_left Math_min (map (along splitAxis) (concat cs)) PInf
               <= Fin ((if keep then l else l + e / 2 - 4) + (e / 2 + 4)
                       - (if keep then l else l + e / 2 - 4)))%num).
  { apply extent_of_range; [exact R| |]; destruct splitAxis.
    - change (map (along U) (concat cs)) with (map uv_u (concat cs)).
      rewrite <- X1. exact F1.
    - change (map (along V) (concat cs)) with (map uv_v (concat cs)).
      rewrite <- Y1. exact F2.
    - change (map (along U) (concat cs)) with (map uv_u (concat cs)).
      rewrite <- X2. exact F3.
    - change (map (along V) (concat cs)) with (map uv_v (concat cs)).
      rewrite <- Y2. exact F4. }
  assert (B : boundsExtent splitAxis (bounds piece)
              = (fold_left Math_max (map (along splitAxis) (concat cs)) NInf
                 - fold_left Math_min (map (along splitAxis) (concat cs)) PInf)%num).
  { destruct splitAxis; cbn [boundsExtent].
    - rewrite W, X1, X2. reflexivity.
    - rewrite H, Y1, Y2. reflexivity. }
  rewrite B. eapply num_le_trans; [exact G|].
  assert (Half : (e / 2 + e / 2 == e)%Q) by field.
  unfold num_le. cbn [nle]. qprop. destruct keep; lra.
Qed.

Lemma split_pieces_are_narrower_witness :
  map (fun piece => b_width (bounds piece))
      (Modifier.splitSlice decimalIds (rectSlice 3 100 50) AxisZ (Fin 60) (Fin 60))
  = [Fin (432000 # 8000); Fin (432000 # 8000)]
  /\ Forall (fun piece => (b_width (bounds piece) <= Fin (4 # 5) * Fin 100)%num)
            (Modifier.splitSlice decimalIds (rectSlice 3 100 50) AxisZ
               (Fin 60) (Fin 60)).
Proof.
  split; [vm_compute; reflexivity|].
  apply (@split_pieces_are_narrower decimalIds (rectSlice 3 100 50) AxisZ
           (Fin 60) (Fin 60)).
  - repeat (apply Forall_cons; [split; reflexivity|]). apply Forall_nil.
  - reflexivity.
  - reflexivity.
  - vm_compute. reflexivity.
  - repeat (apply Forall_cons; [split; vm_compute; reflexivity|]). apply Forall_nil.
Defined.


(** ** The callers in [App.tsx] *)





Lemma filter_idApart_cons (bad : Slice) (bads kept : list Slice) :
  filter (idApart (bad :: bads)) kept
  = filter (idApart bads)
           (filter (fun s => negb (slice_id s === slice_id bad)%num) kept).
Proof.
  induction kept as [|s kept IH]; [reflexivity|].
  cbn [filter idApart forallb].
  destruct (negb (slice_id s === slice_id bad)%num); cbn [andb filter].
  - fold (idApart bads s). destruct (idApart bads s); rewrite <- IH; reflexivity.
  - exact IH.
Qed.

Lemma autoSplit_fold (ids : bool -> num -> nat -> num) (axis : Axis)
  (maxW maxH : num) (all bads : list Slice) :
  incl bads all ->
  forall kept extra,
    Forall (fun p => exists bad, In bad all
                       /\ In p (Modifier.splitSlice ids bad axis maxW maxH)) extra ->
    exists parts,
      fold_left (autoSplit_step ids axis maxW maxH) bads (kept ++ extra)
      = filter (idApart bads) kept ++ parts
      /\ Forall (fun p => exists bad, In bad all
                            /\ In p (Modifier.splitSlice ids bad axis maxW maxH))
                parts.
Proof.
  induction bads as [|bad bads IH]; intros Hin kept extra He.
  - exists extra. cbn [fold_left]. split; [|exact He].
    f_equal. symmetry. induction kept as [|s kept IHk]; [reflexivity|].
    cbn [filter idApart forallb]. f_equal. exact IHk.
  - cbn [fold_left]. unfold autoSplit_step at 2. cbv zeta.
    rewrite filter_app, <- app_assoc.
    destruct (IH (fun s Hs => Hin s (or_intror Hs))
                 (filter (fun s => negb (slice_id s === slice_id bad)%num) kept)
                 (filter (fun s => negb (slice_id s === slice_id bad)%num) extra
                  ++ Modifier.splitSlice ids bad axis maxW maxH))
      as (parts & E & P).
    + apply Forall_app. split.
      * rewrite Forall_forall in *. intros p Hp. apply filter_In in Hp.
        apply He, Hp.
      * apply Forall_forall. intros p Hp. exists bad.
        split; [apply Hin; left; reflexivity|exact Hp].
    + exists parts. split; [|exact P]. rewrite E, filter_idApart_cons. reflexivity.
Qed.

(** X25. Auto split touches only what is oversized: the new slice list
    starts with the old slices whose id differs from the id of every
    oversized slice, in their old order, and everything after them is a piece
    that [splitSlice] made of an oversized slice, for the sheet size less 10. *)
Theorem autoSplit_keeps_the_other_slices (ids : bool -> num -> nat -> num)
  (slices oversizedSlices : list Slice) (material : MaterialSettings) (axis : Axis) :
  exists parts,
    handleAutoSplit ids slices oversizedSlices material axis
    = filter (idApart oversizedSlices) slices ++ parts
    /\ Forall (fun p => exists bad,
                 In bad oversizedSlices
                 /\ In p (Modifier.splitSlice ids bad axis
                            (sheetWidth material - Fin 10)%num
                            (sheetHeight material - Fin 10)%num))
              parts.
Proof.
  unfold handleAutoSplit.
  destruct (length oversizedSlices =? 0)%nat eqn:E0.
  - apply Nat.eqb_eq in E0. destruct oversizedSlices; [|discriminate].
    exists []. split; [|apply Forall_nil]. rewrite app_nil_r.
    symmetry. clear. induction slices as [|s l IH]; [reflexivity|].
    cbn [filter idApart forallb]. f_equal. exact IH.
  - unfold splitLimits. cbv zeta.
    change (match mat_unit material with inch => Fin (254 # 10) | mm => Fin 1 end)
      with (scaleFactor material).
    fold (sheetWidth material). fold (sheetHeight material).
    destruct (@autoSplit_fold ids axis (sheetWidth material - Fin 10)%num
                (sheetHeight material - Fin 10)%num oversizedSlices oversizedSlices
                (incl_refl _) slices [] (Forall_nil _)) as (parts & E & P).
    rewrite app_nil_r in E. exists parts. split; assumption.
Qed.


(** ** Slicing without end *)

(** X26. Slicing does not end when the number of slices is [Infinity]: on
    geometry that is not flat along the axis the level loop passes its test
    at every turn, so no amount of turns lets [sliceGeometry] return. *)
Theorem sliceGeometry_never_ends_on_unbounded_count (pos : list Vector3) (axis : Axis) :
  (Fin 0 < boxMax pos axis - boxMin pos axis)%num ->
  sliceGeometry pos axis PInf = None
  /\ forall fuel : nat,
       sliceLoop fuel pos axis (boxMin pos axis)
                 ((boxMax pos axis - boxMin pos axis) / (PInf + Fin 1))%num PInf 1
       = None.
Proof.
  intros R. split; [|intros fuel; apply sliceLoop_unbounded].
  unfold sliceGeometry. cbv zeta.
  replace (boxMax pos axis - boxMin pos axis <=? Fin 0)%num with false.
  - cbn [orb nle]. apply sliceLoop_unbounded.
  - symmetry. unfold num_lt in R.
    destruct (boxMax pos axis - boxMin pos axis)%num as [r| | |];
      cbn [nlt nle] in *; try discriminate; try reflexivity.
    qprop. exact R.
Qed.

Lemma sliceGeometry_never_ends_on_unbounded_count_witness :
  sliceGeometry cube100 AxisZ PInf = None
  /\ forall fuel : nat,
       sliceLoop fuel cube100 AxisZ (boxMin cube100 AxisZ)
                 ((boxMax cube100 AxisZ - boxMin cube100 AxisZ) / (PInf + Fin 1))%num
                 PInf 1
       = None.
Proof.
  apply (@sliceGeometry_never_ends_on_unbounded_count cube100 AxisZ).
  vm_compute. reflexivity.
Defined.
